(** * Hyundai car controller: steering limiters, gain ramp and message cadence

    A shallow embedding of [opendbc/car/hyundai/carcontroller.py].

    Numbers.  Python [float]s are modelled by exact rationals ([Q]); equality
    of floats is therefore [Qeq] ([==]).  Python [int]s are [Z].  The
    elapsed-time tests of the scheduler, which compare a product of floats
    with a float constant, are in addition evaluated in binary64
    ([Binary64]).

    Errors.  The only exceptions the arithmetic of this file can raise are
    [ZeroDivisionError] (a division) and [ValueError] ([np.interp] on
    malformed tables); they are carried by the [result] monad.

    Collaborators.  Constants, tables and helpers that the controller imports
    from other modules ([values.py], [opendbc.car], [vehicle_model.py], the
    message encoders) are fields of the records [Externals] and
    [CarControllerParams], so every statement holds for all of them. *)

From Stdlib Require Import ZArith QArith Qminmax Qabs Qround Lqa Lia List Bool PrimFloat.
Import ListNotations.

Open Scope Q_scope.

(** ** Python exceptions as a result monad *)

Inductive exn : Type :=
| ZeroDivisionError
| ValueError.

Inductive result (A : Type) : Type :=
| Ok (a : A)
| Raise (e : exn).

Arguments Ok {A} a.
Arguments Raise {A} e.

Definition bind {A B : Type} (m : result A) (k : A -> result B) : result B :=
  match m with
  | Ok a => k a
  | Raise e => Raise e
  end.

Notation "x <- m ;; k" := (bind m (fun x => k))
  (at level 61, m at next level, right associativity).
Notation "' pat <- m ;; k" := (bind m (fun x => match x with pat => k end))
  (at level 61, pat pattern, m at next level, right associativity).

(** ** Float comparisons and the numeric helpers of Python and NumPy *)

Definition Qlt_bool (a b : Q) : bool := negb (Qle_bool b a).

(** [a / b] on floats: raises on a zero divisor. *)
Definition fdiv (a b : Q) : result Q :=
  if Qeq_bool b 0 then Raise ZeroDivisionError else Ok (a / b).

(** [np.clip(x, lo, hi)] is [minimum(maximum(x, lo), hi)]. *)
Definition clip (x lo hi : Q) : Q := Qmin (Qmax x lo) hi.

(** [round(x)] of Python 3: to the nearest integer, ties to the even one. *)
Definition py_round (x : Q) : Z :=
  let f := Qfloor x in
  let r := x - inject_Z f in
  if Qlt_bool r (1 # 2) then f
  else if Qlt_bool (1 # 2) r then (f + 1)%Z
  else if Z.even f then f else (f + 1)%Z.

(** [np.interp(x, xp, fp)] for a scalar [x]: the tables must be non-empty and
    of the same length; the value is held constant outside the table and is
    linear between two neighbouring breakpoints.  NumPy locates the segment by
    binary search and requires [xp] to be increasing; on such tables the scan
    below selects the same segment. *)
Fixpoint interp_segments (x : Q) (x0 y0 : Q) (rest : list (Q * Q)) : Q :=
  match rest with
  | [] => y0
  | (x1, y1) :: rest' =>
      if Qlt_bool x x1
      then y0 + (x - x0) * ((y1 - y0) / (x1 - x0))
      else interp_segments x x1 y1 rest'
  end.

Definition np_interp (x : Q) (xp fp : list Q) : result Q :=
  if negb (Nat.eqb (length xp) (length fp)) then Raise ValueError
  else
    match combine xp fp with
    | [] => Raise ValueError
    | (x0, y0) :: rest =>
        if Qle_bool x x0 then Ok y0 else Ok (interp_segments x x0 y0 rest)
    end.

(** ** Data model *)

(** [structs.CarControl.Actuators.LongControlState]. *)
Inductive LongCtrlState : Type := off | pid | stopping | starting.

Definition LongCtrlState_eqb (a b : LongCtrlState) : bool :=
  match a, b with
  | off, off | pid, pid | stopping, stopping | starting, starting => true
  | _, _ => false
  end.

(** [structs.CarControl.HUDControl.VisualAlert]; only [steerRequired] and
    [ldw] are distinguished by the controller. *)
Inductive VisualAlert : Type := none | steerRequired | ldw | otherAlert.

(** The members of [values.Buttons] that the controller sends. *)
Inductive Buttons : Type := RES_ACCEL | CANCEL.

(** The members of [values.CAR] that the controller singles out. *)
Inductive CAR : Type := GENESIS_G90 | GENESIS_G80 | OTHER_CAR.

(** The bit masks of [values.HyundaiFlags] read by the controller. *)
Record HyundaiFlags : Type := {
  CANFD : Z;
  CANFD_ANGLE_STEERING : Z;
  CANFD_CAMERA_SCC : Z;
  CANFD_LKA_STEERING : Z;
  CANFD_LKA_STEERING_ALT : Z;
  CANFD_ALT_BUTTONS : Z;
  ENABLE_BLINKERS : Z;
  USE_FCA : Z;
  SEND_LFA : Z
}.

(** Truth value of [flags & MASK]. *)
Definition has_flag (flags mask : Z) : bool := negb (Z.land flags mask =? 0)%Z.

(** [CP]: the car parameters read by the controller. *)
Record CarParams : Type := {
  flags : Z;
  openpilotLongitudinalControl : bool;
  carFingerprint : CAR
}.

(** [values.CarControllerParams]: class constants and [STEER_MAX]. *)
Record CarControllerParams : Type := {
  STEER_MAX : Q;
  ACCEL_MIN : Q;
  ACCEL_MAX : Q;
  STEER_ANGLE_MAX : Q;                       (* ANGLE_LIMITS.STEER_ANGLE_MAX *)
  SMOOTHING_ANGLE_VEGO_MATRIX : list Q;
  SMOOTHING_ANGLE_ALPHA_MATRIX : list Q;
  SMOOTHING_ANGLE_MAX_VEGO : Q
}.

(** [VehicleModel]: its one method used here. *)
Record VehicleModel : Type := {
  get_steer_from_curvature : Q -> Q -> Q -> Q
}.

(** Imports from [math], [opendbc.car], [opendbc.car.interfaces] and
    [opendbc.car.common.conversions]. *)
Record Externals : Type := {
  degrees : Q -> Q;                                           (* math.degrees *)
  ACCELERATION_DUE_TO_GRAVITY : Q;
  ISO_LATERAL_ACCEL : Q;
  MS_TO_KPH : Q;
  MS_TO_MPH : Q;
  ECAN : Z;                                                   (* self.CAN.ECAN *)
  common_fault_avoidance : bool -> bool -> Z -> Z -> Z -> Z * bool;
  apply_driver_steer_torque_limits : Z -> Q -> Q -> CarControllerParams -> Z
}.

Module CarState.
(** [CS]: the fields of [CS.out] and of [CS] itself that are read. *)
Record t : Type := {
  vEgoRaw : Q;
  steeringAngleDeg : Q;
  steeringTorque : Q;
  steeringPressed : bool;
  is_metric : bool;
  main_cruise_enabled : bool;
  buttons_counter : Z
}.
End CarState.

Module Actuators.
Record t : Type := {
  torque : Q;
  torqueOutputCan : Q;
  steeringAngleDeg : Q;
  accel : Q;
  longControlState : LongCtrlState
}.
End Actuators.

Module HUDControl.
Record t : Type := {
  visualAlert : VisualAlert;
  leftLaneVisible : bool;
  rightLaneVisible : bool;
  leftLaneDepart : bool;
  rightLaneDepart : bool;
  setSpeed : Q
}.
End HUDControl.

Module CarControl.
(** [CC]; [cancel], [resume] and [override] are [CC.cruiseControl]'s. *)
Record t : Type := {
  latActive : bool;
  enabled : bool;
  actuators : Actuators.t;
  hudControl : HUDControl.t;
  cancel : bool;
  resume : bool;
  override : bool;
  leftBlinker : bool;
  rightBlinker : bool
}.
End CarControl.

(** What the mixed-in controllers ([EsccCarController],
    [AdasDrvEcuInterceptorCarController], [MadsCarController],
    [LongitudinalController]) expose after their own [update] calls at the
    head of a tick.  Their code is outside this file, so the values are
    inputs of the tick and every statement holds whatever they are. *)
Record SubControllers : Type := {
  ESCC_enabled : bool;
  interceptor_available : bool;
  lkas_icon : Z;
  lfa_icon : Z;
  actual_accel : Q                                       (* self.tuning.actual_accel *)
}.

(** Outbound messages: one constructor per encoder call, carrying the scalar
    arguments computed by the controller.  An encoder that returns a list
    ([create_acc_commands], [create_acc_opt], [create_steering_messages], ...)
    is represented by one descriptor standing for its batch. *)
Inductive msg : Type :=
| make_tester_present_msg (addr bus : Z)
| create_lkas11 (frame : Z) (apply_torque : Q) (apply_steer_req torque_fault : bool)
    (sys_warning : bool) (sys_state : Z) (enabled : bool)
    (left_lane_warning right_lane_warning : Z) (icon : Z)
| create_clu11 (frame : Z) (button : Buttons)
| create_acc_commands (enabled : bool) (accel jerk : Q) (idx : Z) (set_speed : Q)
    (stopping override use_fca : bool)
| create_lfahda_mfc (enabled : bool) (icon : Z)
| create_acc_opt
| create_frt_radar_opt
| create_adas_drv_intercept_msg
| create_steering_messages (enabled apply_steer_req : bool) (apply_torque apply_angle : Q)
    (icon : Z)
| create_suppress_lfa (alt : bool)
| create_lfahda_cluster (enabled : bool) (icon : Z)
| create_spas_messages (left right : bool)
| create_adrv_messages (frame : Z)
| create_fca_warning_light (frame : Z)
| create_acc_control (enabled : bool) (accel_last accel : Q) (stopping override : bool)
    (set_speed : Q)
| create_acc_cancel
| create_buttons (counter : Z) (button : Buttons).

(** The attributes of [self] that [__init__] fixes for the session. *)
Record Tuning : Type := {
  ramp_down_reduction_gain_rate : Q;
  ramp_up_reduction_gain_rate : Q;
  min_torque_reduction_gain : Q;
  max_torque_reduction_gain : Q;
  active_torque_reduction_gain : Q;
  angle_torque_override_cycles : Z;
  angle_enable_smoothing_factor : bool
}.

(** The attributes of [self] that a tick mutates. *)
Record State : Type := mkState {
  frame : Z;
  angle_limit_counter : Z;
  accel_last : Q;
  apply_torque_last : Q;
  last_button_frame : Z;
  apply_angle_last : Q
}.

(** [__init__], lines 132-144 (the frame counter of the base class starts
    at 0). *)
Definition init_state : State :=
  {| frame := 0; angle_limit_counter := 0; accel_last := 0;
     apply_torque_last := 0; last_button_frame := 0; apply_angle_last := 0 |}.

Definition set_last_button_frame (st : State) (f : Z) : State :=
  {| frame := frame st; angle_limit_counter := angle_limit_counter st;
     accel_last := accel_last st; apply_torque_last := apply_torque_last st;
     last_button_frame := f; apply_angle_last := apply_angle_last st |}.

Definition set_accel_last (st : State) (a : Q) : State :=
  {| frame := frame st; angle_limit_counter := angle_limit_counter st;
     accel_last := a; apply_torque_last := apply_torque_last st;
     last_button_frame := last_button_frame st; apply_angle_last := apply_angle_last st |}.

(** ** Module constants (lines 34-42) *)

Definition MAX_ANGLE : Q := 85.
Definition MAX_ANGLE_FRAMES : Z := 89.
Definition MAX_ANGLE_CONSECUTIVE_FRAMES : Z := 2.
Definition MAX_ANGLE_RATE : Q := 5.
Definition AVERAGE_ROAD_ROLL : Q := 6 # 100.

(** Modelled from the spec: [DT_CTRL] of [opendbc.car], the period of the
    100 Hz control loop, in seconds. *)
Definition DT_CTRL : Q := 1 # 100.

(** Modelled from the spec: [rate_limit] of [opendbc.car], which limits
    [new_value] symmetrically around [last_value] (section 4.2, step 3):
    the clamp of [new_value] to [last_value + dw_step, last_value + up_step]. *)
Definition rate_limit (new_value last_value dw_step up_step : Q) : Q :=
  clip new_value (last_value + dw_step) (last_value + up_step).

(** ** The controller *)

Section Controller.

Variable ext : Externals.
Variable HF : HyundaiFlags.
Variable params : CarControllerParams.
Variable CP : CarParams.
Variable VM : VehicleModel.
Variable self : Tuning.

Definition MAX_LATERAL_ACCEL : Q :=
  ISO_LATERAL_ACCEL ext + ACCELERATION_DUE_TO_GRAVITY ext * AVERAGE_ROAD_ROLL.
Definition MAX_LATERAL_JERK : Q :=
  3 + ACCELERATION_DUE_TO_GRAVITY ext * AVERAGE_ROAD_ROLL.

Definition get_max_angle_delta (v_ego_raw : Q) (freq : Q) : result Q :=
  max_curvature_rate_sec <- fdiv MAX_LATERAL_JERK (v_ego_raw * v_ego_raw) ;;
  let max_angle_rate_sec :=
    degrees ext (get_steer_from_curvature VM max_curvature_rate_sec v_ego_raw 0) in
  fdiv max_angle_rate_sec freq.

Definition get_max_angle (v_ego_raw : Q) : result Q :=
  max_curvature <- fdiv MAX_LATERAL_ACCEL (v_ego_raw * v_ego_raw) ;;
  Ok (degrees ext (get_steer_from_curvature VM max_curvature v_ego_raw 0)).

Definition sp_smooth_angle (v_ego_raw apply_angle apply_angle_last : Q) : result Q :=
  if Qlt_bool (1 # 10) (Qabs (apply_angle - apply_angle_last)) then
    adjusted_alpha <- np_interp v_ego_raw (SMOOTHING_ANGLE_VEGO_MATRIX params)
                                           (SMOOTHING_ANGLE_ALPHA_MATRIX params) ;;
    let adjusted_alpha_limited := Qmin adjusted_alpha 1 in
    Ok (apply_angle * adjusted_alpha_limited
        + apply_angle_last * (1 - adjusted_alpha_limited))
  else Ok apply_angle.

Definition process_hud_alert (enabled : bool) (fingerprint : CAR) (hud_control : HUDControl.t)
  : bool * Z * Z * Z :=
  let sys_warning :=
    match HUDControl.visualAlert hud_control with
    | steerRequired | ldw => true
    | _ => false
    end in
  let sys_state : Z :=
    (if (HUDControl.leftLaneVisible hud_control && HUDControl.rightLaneVisible hud_control)
        || sys_warning
     then (if enabled || sys_warning then 3 else 4)
     else if HUDControl.leftLaneVisible hud_control then 5
     else if HUDControl.rightLaneVisible hud_control then 6
     else 1)%Z in
  let genesis :=
    match fingerprint with
    | GENESIS_G90 | GENESIS_G80 => true
    | OTHER_CAR => false
    end in
  let left_lane_warning : Z :=
    (if HUDControl.leftLaneDepart hud_control then (if genesis then 1 else 2) else 0)%Z in
  let right_lane_warning : Z :=
    (if HUDControl.rightLaneDepart hud_control then (if genesis then 1 else 2) else 0)%Z in
  (sys_warning, sys_state, left_lane_warning, right_lane_warning).

(** *** Steering angle limiter (lines 346-378) *)

(** Lines 351-354: the clamp to the encodable range and the smoothing. *)
Definition smoothed_apply_angle (st : State) (CS : CarState.t) (apply_angle : Q)
  : result Q :=
  let v_ego_raw := CarState.vEgoRaw CS in
  let apply_angle := clip apply_angle (- (8192 # 10)) (8191 # 10) in
  if angle_enable_smoothing_factor self
     && Qlt_bool (Qabs v_ego_raw) (SMOOTHING_ANGLE_MAX_VEGO params)
  then sp_smooth_angle v_ego_raw apply_angle (apply_angle_last st)
  else Ok apply_angle.

Definition apply_hyundai_steer_angle_limits
    (st : State) (CS : CarState.t) (CC : CarControl.t) (apply_angle : Q) : result Q :=
  let lat_active := CarControl.latActive CC in
  let v_ego_raw := CarState.vEgoRaw CS in
  let steering_angle := CarState.steeringAngleDeg CS in
  apply_angle <- smoothed_apply_angle st CS apply_angle ;;
  (* max lateral jerk limit *)
  max_angle_delta <- get_max_angle_delta (Qmax v_ego_raw 1) 100 ;;
  (* prevent fault *)
  let max_angle_delta := Qmin max_angle_delta MAX_ANGLE_RATE in
  let new_apply_angle :=
    rate_limit apply_angle (apply_angle_last st) (- max_angle_delta) max_angle_delta in
  (* max lateral accel limit *)
  max_angle <- get_max_angle (Qmax v_ego_raw 1) ;;
  let new_apply_angle := clip new_apply_angle (- max_angle) max_angle in
  (* angle is current angle when inactive *)
  let new_apply_angle := if negb lat_active then steering_angle else new_apply_angle in
  (* prevent fault *)
  Ok (clip new_apply_angle (- STEER_ANGLE_MAX params) (STEER_ANGLE_MAX params)).

(** *** Torque-reduction gain (lines 380-393) *)

Definition calculate_angle_torque_reduction_gain
    (st : State) (CS : CarState.t) (target_torque_reduction_gain : Q) : result Q :=
  if CarState.steeringPressed CS then
    let torque_delta := apply_torque_last st - min_torque_reduction_gain self in
    q <- fdiv torque_delta (inject_Z (angle_torque_override_cycles self)) ;;
    let adaptive_ramp_rate := Qmax q (4 # 1000) in
    Ok (Qmax (apply_torque_last st - adaptive_ramp_rate) (min_torque_reduction_gain self))
  else
    let target_torque :=
      clip target_torque_reduction_gain
           (active_torque_reduction_gain self) (max_torque_reduction_gain self) in
    if Qlt_bool target_torque (apply_torque_last st) then
      Ok (Qmax (apply_torque_last st - ramp_down_reduction_gain_rate self) target_torque)
    else
      Ok (Qmin (apply_torque_last st + ramp_up_reduction_gain_rate self) target_torque).

Definition update_angle_steering_control
    (st : State) (CS : CarState.t) (CC : CarControl.t) (actuators : Actuators.t)
  : result (Q * Q) :=
  new_angle <- apply_hyundai_steer_angle_limits st CS CC (Actuators.steeringAngleDeg actuators) ;;
  torque_reduction_gain <-
    calculate_angle_torque_reduction_gain st CS (Qabs (Actuators.torque actuators)) ;;
  Ok (new_angle, torque_reduction_gain).

(** *** Message scheduling: legacy bus (lines 237-283) *)

Definition create_can_msgs
    (st : State) (sub : SubControllers)
    (apply_steer_req : bool) (apply_torque : Q) (torque_fault : bool)
    (set_speed_in_units accel : Q) (stopping_ : bool)
    (hud_control : HUDControl.t) (actuators : Actuators.t)
    (CS : CarState.t) (CC : CarControl.t) : State * list msg :=
  (* HUD messages *)
  let '(sys_warning, sys_state, left_lane_warning, right_lane_warning) :=
    process_hud_alert (CarControl.enabled CC) (carFingerprint CP) hud_control in
  let can_sends :=
    [create_lkas11 (frame st) apply_torque apply_steer_req torque_fault sys_warning
                   sys_state (CarControl.enabled CC) left_lane_warning
                   right_lane_warning (lkas_icon sub)] in
  (* Button messages *)
  let '(st, can_sends) :=
    if negb (openpilotLongitudinalControl CP) then
      if CarControl.cancel CC then
        (st, can_sends ++ [create_clu11 (frame st) CANCEL])
      else if CarControl.resume CC then
        (* send resume at a max freq of 10Hz *)
        if Qlt_bool (1 # 10) (inject_Z (frame st - last_button_frame st) * DT_CTRL) then
          (* send 25 messages at a time *)
          let can_sends := can_sends ++ repeat (create_clu11 (frame st) RES_ACCEL) 25 in
          if Qle_bool (15 # 100) (inject_Z (frame st - last_button_frame st) * DT_CTRL)
          then (set_last_button_frame st (frame st), can_sends)
          else (st, can_sends)
        else (st, can_sends)
      else (st, can_sends)
    else (st, can_sends) in
  let can_sends :=
    if (frame st mod 2 =? 0)%Z && openpilotLongitudinalControl CP then
      let jerk : Q :=
        if LongCtrlState_eqb (Actuators.longControlState actuators) pid then 3 else 1 in
      let use_fca := has_flag (flags CP) (USE_FCA HF) in
      can_sends ++ [create_acc_commands (CarControl.enabled CC) accel jerk
                      (Z.quot (frame st) 2) set_speed_in_units stopping_
                      (CarControl.override CC) use_fca]
    else can_sends in
  (* 20 Hz LFA MFA message *)
  let can_sends :=
    if (frame st mod 5 =? 0)%Z && has_flag (flags CP) (SEND_LFA HF) then
      can_sends ++ [create_lfahda_mfc (CarControl.enabled CC) (lfa_icon sub)]
    else can_sends in
  (* 5 Hz ACC options *)
  let can_sends :=
    if (frame st mod 20 =? 0)%Z && openpilotLongitudinalControl CP then
      can_sends ++ [create_acc_opt]
    else can_sends in
  (* 2 Hz front radar options *)
  let can_sends :=
    if (frame st mod 50 =? 0)%Z && openpilotLongitudinalControl CP
       && negb (ESCC_enabled sub) then
      can_sends ++ [create_frt_radar_opt]
    else can_sends in
  (st, can_sends).

(** *** Message scheduling: CAN FD bus (lines 285-344) *)

Definition create_canfd_msgs
    (st : State) (sub : SubControllers)
    (apply_steer_req : bool) (apply_torque : Q)
    (set_speed_in_units accel : Q) (stopping_ : bool)
    (hud_control : HUDControl.t) (CS : CarState.t) (CC : CarControl.t)
  : State * list msg :=
  let lka_steering := has_flag (flags CP) (CANFD_LKA_STEERING HF) in
  let lka_steering_long := lka_steering && openpilotLongitudinalControl CP in
  let can_sends :=
    if interceptor_available sub then [create_adas_drv_intercept_msg] else [] in
  (* steering control *)
  let can_sends :=
    can_sends ++ [create_steering_messages (CarControl.enabled CC) apply_steer_req
                    apply_torque (apply_angle_last st) (lkas_icon sub)] in
  (* prevent LFA from activating on LKA steering cars *)
  let can_sends :=
    if (frame st mod 5 =? 0)%Z && lka_steering then
      can_sends ++ [create_suppress_lfa (has_flag (flags CP) (CANFD_LKA_STEERING_ALT HF))]
    else can_sends in
  (* LFA and HDA icons *)
  let can_sends :=
    if (frame st mod 5 =? 0)%Z && (negb lka_steering || lka_steering_long) then
      can_sends ++ [create_lfahda_cluster (CarControl.enabled CC) (lfa_icon sub)]
    else can_sends in
  (* blinkers *)
  let can_sends :=
    if lka_steering && has_flag (flags CP) (ENABLE_BLINKERS HF) then
      can_sends ++ [create_spas_messages (CarControl.leftBlinker CC)
                                         (CarControl.rightBlinker CC)]
    else can_sends in
  if openpilotLongitudinalControl CP then
    let can_sends :=
      if lka_steering then
        if negb (interceptor_available sub) then
          can_sends ++ [create_adrv_messages (frame st)]
        else can_sends
      else can_sends ++ [create_fca_warning_light (frame st)] in
    if (frame st mod 2 =? 0)%Z then
      (set_accel_last st accel,
       can_sends ++ [create_acc_control (CarControl.enabled CC) (accel_last st) accel
                       stopping_ (CarControl.override CC) set_speed_in_units])
    else (st, can_sends)
  else
    (* button presses *)
    if Qlt_bool (25 # 100) (inject_Z (frame st - last_button_frame st) * DT_CTRL) then
      (* cruise cancel *)
      if CarControl.cancel CC then
        if has_flag (flags CP) (CANFD_ALT_BUTTONS HF) then
          (set_last_button_frame st (frame st), can_sends ++ [create_acc_cancel])
        else
          (set_last_button_frame st (frame st),
           can_sends ++ repeat (create_buttons (CarState.buttons_counter CS + 1) CANCEL) 20)
      (* cruise standstill resume *)
      else if CarControl.resume CC then
        if has_flag (flags CP) (CANFD_ALT_BUTTONS HF) then
          (* TODO: resume for alt button cars *)
          (st, can_sends)
        else
          (set_last_button_frame st (frame st),
           can_sends ++ repeat (create_buttons (CarState.buttons_counter CS + 1) RES_ACCEL) 20)
      else (st, can_sends)
    else (st, can_sends).

(** *** The tick (lines 164-235) *)

(** Lines 174-187: the steering command of the tick, as the new
    [angle_limit_counter], the new [apply_angle_last], [apply_torque] and
    [apply_steer_req]. *)
Definition steering_command (st : State) (CC : CarControl.t) (CS : CarState.t)
  : result (Z * Q * Q * bool) :=
  let actuators := CarControl.actuators CC in
  (* steering torque *)
  if negb (has_flag (flags CP) (CANFD_ANGLE_STEERING HF)) then
    let '(counter, apply_steer_req) :=
      common_fault_avoidance ext
        (Qle_bool MAX_ANGLE (Qabs (CarState.steeringAngleDeg CS)))
        (CarControl.latActive CC) (angle_limit_counter st)
        MAX_ANGLE_FRAMES MAX_ANGLE_CONSECUTIVE_FRAMES in
    let new_torque := py_round (Actuators.torque actuators * STEER_MAX params) in
    let apply_torque :=
      inject_Z (apply_driver_steer_torque_limits ext new_torque (apply_torque_last st)
                  (CarState.steeringTorque CS) params) in
    Ok (counter, apply_angle_last st, apply_torque, apply_steer_req)
  (* angle control *)
  else
    '(new_angle, apply_torque) <- update_angle_steering_control st CS CC actuators ;;
    (* Safety clamp *)
    let apply_torque :=
      clip apply_torque (min_torque_reduction_gain self)
           (max_torque_reduction_gain self) in
    let apply_steer_req := CarControl.latActive CC && negb (Qeq_bool apply_torque 0) in
    Ok (angle_limit_counter st, new_angle, apply_torque, apply_steer_req).

(** Lines 207-218: tester present, with no response. *)
Definition tester_present (st : State) (sub : SubControllers) : list msg :=
  if (frame st mod 100 =? 0)%Z
     && negb (has_flag (flags CP) (CANFD_CAMERA_SCC HF)
              || ESCC_enabled sub || interceptor_available sub)
     && openpilotLongitudinalControl CP
  then
    (* for longitudinal control, either radar or ADAS driving ECU *)
    let '(addr, bus) :=
      if has_flag (flags CP) (CANFD_LKA_STEERING HF) then (1840, ECAN ext)%Z
      else (2000, if has_flag (flags CP) (CANFD HF) then ECAN ext else 0)%Z in
    [make_tester_present_msg addr bus]
    (* for blinkers *)
    ++ (if has_flag (flags CP) (ENABLE_BLINKERS HF)
        then [make_tester_present_msg 1969 (ECAN ext)] else [])
  else [].

(** Lines 220-226: the bus-specific messages. *)
Definition bus_msgs
    (st : State) (sub : SubControllers)
    (apply_steer_req : bool) (apply_torque : Q) (torque_fault : bool)
    (set_speed_in_units accel : Q) (stopping_ : bool)
    (CS : CarState.t) (CC : CarControl.t) : State * list msg :=
  if has_flag (flags CP) (CANFD HF) then
    create_canfd_msgs st sub apply_steer_req apply_torque set_speed_in_units accel
                      stopping_ (CarControl.hudControl CC) CS CC
  else
    create_can_msgs st sub apply_steer_req apply_torque torque_fault set_speed_in_units
                    accel stopping_ (CarControl.hudControl CC) (CarControl.actuators CC)
                    CS CC.

Definition update (st : State) (sub : SubControllers) (CC : CarControl.t) (CS : CarState.t)
  : result (State * Actuators.t * list msg) :=
  let actuators := CarControl.actuators CC in
  let hud_control := CarControl.hudControl CC in
  '(angle_limit_counter', apply_angle_last', apply_torque, apply_steer_req) <-
    steering_command st CC CS ;;
  let apply_torque := if negb (CarControl.latActive CC) then 0 else apply_torque in
  (* Hold torque with induced temporary fault when cutting the actuation bit *)
  let torque_fault := CarControl.latActive CC && negb apply_steer_req in
  let st :=
    {| frame := frame st; angle_limit_counter := angle_limit_counter';
       accel_last := accel_last st; apply_torque_last := apply_torque;
       last_button_frame := last_button_frame st;
       apply_angle_last := apply_angle_last' |} in
  (* accel + longitudinal *)
  let accel := clip (Actuators.accel actuators) (ACCEL_MIN params) (ACCEL_MAX params) in
  let stopping_ := LongCtrlState_eqb (Actuators.longControlState actuators) stopping in
  let set_speed_in_units :=
    HUDControl.setSpeed hud_control
    * (if CarState.is_metric CS then MS_TO_KPH ext else MS_TO_MPH ext) in
  let can_sends := tester_present st sub in
  let r := bus_msgs st sub apply_steer_req apply_torque torque_fault set_speed_in_units
                    accel stopping_ CS CC in
  let st := fst r in
  let can_sends := can_sends ++ snd r in
  new_torque_field <- fdiv apply_torque (STEER_MAX params) ;;
  let new_actuators :=
    {| Actuators.torque := new_torque_field;
       Actuators.torqueOutputCan := apply_torque;
       Actuators.steeringAngleDeg := apply_angle_last st;
       Actuators.accel := actual_accel sub;
       Actuators.longControlState := Actuators.longControlState actuators |} in
  let st :=
    {| frame := frame st + 1; angle_limit_counter := angle_limit_counter st;
       accel_last := accel_last st; apply_torque_last := apply_torque_last st;
       last_button_frame := last_button_frame st;
       apply_angle_last := apply_angle_last st |} in
  Ok (st, new_actuators, can_sends).

End Controller.

(** ** Runs: a tick per input, from a given state *)

Record Inputs : Type := {
  in_sub : SubControllers;
  in_CC : CarControl.t;
  in_CS : CarState.t
}.

Section Runs.

Variable ext : Externals.
Variable HF : HyundaiFlags.
Variable params : CarControllerParams.
Variable CP : CarParams.
Variable VM : VehicleModel.
Variable self : Tuning.

Definition tick (st : State) (i : Inputs)
  : result (State * Actuators.t * list msg) :=
  update ext HF params CP VM self st (in_sub i) (in_CC i) (in_CS i).

(** The outputs of the successive ticks, with the state left by the last. *)
Fixpoint run (st : State) (ins : list Inputs)
  : result (State * list (Actuators.t * list msg)) :=
  match ins with
  | [] => Ok (st, [])
  | i :: rest =>
      '(st1, act, sends) <- tick st i ;;
      '(st2, outs) <- run st1 rest ;;
      Ok (st2, (act, sends) :: outs)
  end.

End Runs.


(** ** Auxiliary notions used by the statements *)

Section Notions.

Variable ext : Externals.
Variable params : CarControllerParams.
Variable VM : VehicleModel.
Variable self : Tuning.

(** The smoothing tables are ones that [np.interp] accepts. *)
Definition tables_ok : Prop :=
  SMOOTHING_ANGLE_VEGO_MATRIX params <> []
  /\ length (SMOOTHING_ANGLE_VEGO_MATRIX params)
     = length (SMOOTHING_ANGLE_ALPHA_MATRIX params).

(** The static configuration under which no tick raises: a non-zero
    [STEER_MAX], a non-zero override-cycle count, and smoothing tables that
    [np.interp] accepts. *)
Definition well_formed : Prop :=
  ~ STEER_MAX params == 0
  /\ angle_torque_override_cycles self <> 0%Z
  /\ tables_ok.

(** The per-tick angle change allowed by the lateral-jerk budget at speed
    [v]: the budget over [max(v, 1)] squared, converted to an angle rate by
    the kinematic model and divided by the 100 Hz control frequency. *)
Definition kinematicRateCap (v : Q) : Q :=
  degrees ext
    (get_steer_from_curvature VM
       (MAX_LATERAL_JERK ext / (Qmax v 1 * Qmax v 1)) (Qmax v 1) 0) / 100.

(** The angle allowed by the lateral-acceleration budget at speed [v]. *)
Definition kinematicMaxAngle (v : Q) : Q :=
  degrees ext
    (get_steer_from_curvature VM
       (MAX_LATERAL_ACCEL ext / (Qmax v 1 * Qmax v 1)) (Qmax v 1) 0).

(** The angles the limiter can leave behind after an active tick at speed
    [v]: within the lateral-acceleration bound and the static maximum. *)
Definition in_envelope (v a : Q) : Prop :=
  (- kinematicMaxAngle v <= a <= kinematicMaxAngle v)
  /\ (- STEER_ANGLE_MAX params <= a <= STEER_ANGLE_MAX params).

(** The rate cap of the limiter at speed [v]. *)
Definition rate_cap (v : Q) : Q := Qmin (kinematicRateCap v) MAX_ANGLE_RATE.

End Notions.

(** The scheduler leaves every attribute but [last_button_frame] and
    [accel_last] alone. *)
Definition same_core (st st' : State) : Prop :=
  frame st' = frame st
  /\ angle_limit_counter st' = angle_limit_counter st
  /\ apply_torque_last st' = apply_torque_last st
  /\ apply_angle_last st' = apply_angle_last st.

(** The state handed to the scheduler: the steering results are stored,
    the latches are still those of the previous tick. *)
Definition mid_state (st : State) (counter : Z) (angle tq : Q) : State :=
  {| frame := frame st; angle_limit_counter := counter;
     accel_last := accel_last st; apply_torque_last := tq;
     last_button_frame := last_button_frame st; apply_angle_last := angle |}.

(** A lookup curve read as the specification reads it: the value is the
    first ordinate below the table, the last ordinate above it, and on the
    straight line between two neighbouring breakpoints otherwise. *)
Inductive piecewise_linear : list (Q * Q) -> Q -> Q -> Prop :=
| pl_below (x0 y0 : Q) (rest : list (Q * Q)) (x : Q) :
    x <= x0 -> piecewise_linear ((x0, y0) :: rest) x y0
| pl_above (pts : list (Q * Q)) (xn yn : Q) (x : Q) :
    xn <= x -> piecewise_linear (pts ++ [(xn, yn)]) x yn
| pl_between (pre : list (Q * Q)) (x0 y0 x1 y1 : Q) (post : list (Q * Q)) (x : Q) :
    x0 <= x -> x <= x1 -> x0 < x1 ->
    piecewise_linear (pre ++ (x0, y0) :: (x1, y1) :: post) x
                     (y0 + (x - x0) * ((y1 - y0) / (x1 - x0))).

(** Every element of [l] is within [cap] of its predecessor, [prev] being
    the predecessor of the first. *)
Fixpoint steps_within (cap prev : Q) (l : list Q) : Prop :=
  match l with
  | [] => True
  | a :: l' => Qabs (a - prev) <= cap /\ steps_within cap a l'
  end.

(** The number of ticks within which the override ramp reaches the minimum
    gain: the ceiling of (gain0 - minGain) / 0.004. *)
Definition override_ticks (gain0 min_gain : Q) : nat :=
  Z.to_nat (Qceiling ((gain0 - min_gain) / (4 # 1000))).

(** One step of the override ramp as the specification words it: a decrease
    by max((lastGain - minGain) / overrideCycles, 0.004), floored at minGain. *)
Definition override_ramp (min_gain : Q) (cycles : Z) (last_gain : Q) : Q :=
  Qmax (last_gain - Qmax ((last_gain - min_gain) / inject_Z cycles) (4 # 1000)) min_gain.

(** The outputs of a run, read field by field. *)
Definition echoed_angles (outs : list (Actuators.t * list msg)) : list Q :=
  map (fun o => Actuators.steeringAngleDeg (fst o)) outs.

Definition echoed_gains (outs : list (Actuators.t * list msg)) : list Q :=
  map (fun o => Actuators.torqueOutputCan (fst o)) outs.

(** ** Reading the message list of a tick *)

Definition is_tester_present (m : msg) : bool :=
  match m with make_tester_present_msg _ _ => true | _ => false end.

Definition is_acc_commands (m : msg) : bool :=
  match m with create_acc_commands _ _ _ _ _ _ _ _ => true | _ => false end.

Definition is_lfahda_mfc (m : msg) : bool :=
  match m with create_lfahda_mfc _ _ => true | _ => false end.

Definition is_acc_opt (m : msg) : bool :=
  match m with create_acc_opt => true | _ => false end.

Definition is_frt_radar_opt (m : msg) : bool :=
  match m with create_frt_radar_opt => true | _ => false end.

(** A resume press on the legacy bus. *)
Definition is_resume (m : msg) : bool :=
  match m with create_clu11 _ RES_ACCEL => true | _ => false end.

(** Any button or cruise-cancel message of either bus. *)
Definition is_button_msg (m : msg) : bool :=
  match m with
  | create_clu11 _ _ | create_buttons _ _ | create_acc_cancel => true
  | _ => false
  end.

Definition count_msgs (p : msg -> bool) (sends : list msg) : nat :=
  length (filter p sends).

(** Per tick of a run, the number of messages of a kind. *)
Definition counts (p : msg -> bool) (outs : list (Actuators.t * list msg)) : list nat :=
  map (fun o => count_msgs p (snd o)) outs.

(** The ticks of a run, numbered from 0, on which a kind is sent. *)
Definition ticks_with (p : msg -> bool) (outs : list (Actuators.t * list msg)) : list nat :=
  map fst (filter (fun tc => negb (Nat.eqb (snd tc) 0))
                  (combine (seq 0 (length outs)) (counts p outs))).

Definition total (p : msg -> bool) (outs : list (Actuators.t * list msg)) : nat :=
  list_sum (counts p outs).

(** The five periodic kinds of the legacy bus, counted on one tick, and the
    counts expected on the tick of frame [f]. *)
Definition periodic_counts (sends : list msg) : nat * nat * nat * nat * nat :=
  (count_msgs is_tester_present sends, count_msgs is_acc_commands sends,
   count_msgs is_lfahda_mfc sends, count_msgs is_acc_opt sends,
   count_msgs is_frt_radar_opt sends).

Definition periodic_expected (blinkers escc : bool) (f : Z) : nat * nat * nat * nat * nat :=
  ((if (f mod 100 =? 0)%Z && negb escc then (if blinkers then 2 else 1) else 0)%nat,
   (if (f mod 2 =? 0)%Z then 1 else 0)%nat,
   (if (f mod 5 =? 0)%Z then 1 else 0)%nat,
   (if (f mod 20 =? 0)%Z then 1 else 0)%nat,
   (if (f mod 50 =? 0)%Z && negb escc then 1 else 0)%nat).

(** The multiples of [k] below [n]. *)
Definition multiples (k n : nat) : list nat :=
  filter (fun t => Nat.eqb (t mod k) 0) (seq 0 n).

(** The resume latch of the legacy bus under a continuous resume request
    from the initial state: before the tick of frame [f] the latch holds the
    largest multiple of 15 below [f]. *)
Definition resume_latch (f : Z) : Z :=
  if (f <=? 0)%Z then 0%Z else (15 * ((f - 1) / 15))%Z.

(** The size of the resume batch on the tick of frame [f] in that scenario:
    25 when more than 10 ticks have passed since the latch, else none. *)
Definition resume_batch (f : Z) : nat :=
  if (10 <? f - resume_latch f)%Z then 25%nat else 0%nat.

(** ** The elapsed-time tests in binary64

    The scheduler compares [(frame - last_button_frame) * DT_CTRL], a product
    of an [int] and the float 0.01, with the floats 0.1, 0.15 and 0.25.  The
    definitions below evaluate these comparisons in IEEE binary64, to relate
    them to the exact tests on the tick count used by the model. *)

Module Binary64.

(** The float of a small non-negative integer (exact below 2^53). *)
Fixpoint float_of_nat (n : nat) : float :=
  match n with
  | O => 0%float
  | S k => (float_of_nat k + 1)%float
  end.

(** The binary64 values nearest to 0.01, 0.1, 0.15 and 0.25. *)
Definition dt_ctrl : float := 0x1.47ae147ae147bp-7%float.
Definition tenth : float := 0x1.999999999999ap-4%float.
Definition latch : float := 0x1.3333333333333p-3%float.
Definition quarter : float := 0x1p-2%float.

(** For an elapsed count of [d] ticks, the three float tests give what the
    tests [10 < d], [15 <= d] and [25 < d] give. *)
Definition thresholds_agree (d : nat) : bool :=
  let elapsed := (float_of_nat d * dt_ctrl)%float in
  Bool.eqb (PrimFloat.ltb tenth elapsed) (10 <? Z.of_nat d)%Z
  && Bool.eqb (PrimFloat.leb latch elapsed) (15 <=? Z.of_nat d)%Z
  && Bool.eqb (PrimFloat.ltb quarter elapsed) (25 <? Z.of_nat d)%Z.

End Binary64.

(** ** A concrete configuration, to evaluate the model on inputs

    The values of the imported constants below are examples: the statements
    of this file hold for every configuration. *)

Module Sample.

Definition HF : HyundaiFlags :=
  {| CANFD := 8192; CANFD_ANGLE_STEERING := 16777216; CANFD_CAMERA_SCC := 8;
     CANFD_LKA_STEERING := 1; CANFD_LKA_STEERING_ALT := 65536;
     CANFD_ALT_BUTTONS := 2; ENABLE_BLINKERS := 32; USE_FCA := 256;
     SEND_LFA := 128 |}.

Definition fault_avoidance (fault_condition request : bool)
    (above_limit_frames max_above_limit_frames max_mismatching_frames : Z) : Z * bool :=
  let n := if request && fault_condition then (above_limit_frames + 1)%Z else 0%Z in
  let request := if (max_above_limit_frames <? n)%Z then false else request in
  let n := if (max_above_limit_frames + max_mismatching_frames <=? n)%Z then 0%Z else n in
  (n, request).

Definition ext : Externals :=
  {| degrees := fun x => x * (20340 # 355);
     ACCELERATION_DUE_TO_GRAVITY := 981 # 100;
     ISO_LATERAL_ACCEL := 3;
     MS_TO_KPH := 36 # 10;
     MS_TO_MPH := 223694 # 100000;
     ECAN := 1;
     common_fault_avoidance := fault_avoidance;
     apply_driver_steer_torque_limits := fun new_torque _ _ _ => new_torque |}.

Definition VM : VehicleModel :=
  {| get_steer_from_curvature := fun curvature v _ =>
       curvature * 45 * (1 + (3 # 1000) * v * v) |}.

Definition params : CarControllerParams :=
  {| STEER_MAX := 270;
     ACCEL_MIN := - (35 # 10);
     ACCEL_MAX := 2;
     STEER_ANGLE_MAX := 180;
     SMOOTHING_ANGLE_VEGO_MATRIX := [0; 85 # 10; 11; 138 # 10; 2222 # 100];
     SMOOTHING_ANGLE_ALPHA_MATRIX := [5 # 100; 1 # 10; 3 # 10; 6 # 10; 1];
     SMOOTHING_ANGLE_MAX_VEGO := 2222 # 100 |}.

Definition self : Tuning :=
  {| ramp_down_reduction_gain_rate := 175 # 100000;
     ramp_up_reduction_gain_rate := 2 # 1000;
     min_torque_reduction_gain := 1 # 10;
     max_torque_reduction_gain := 1;
     active_torque_reduction_gain := 1 # 2;
     angle_torque_override_cycles := 25;
     angle_enable_smoothing_factor := true |}.

(** A legacy-bus platform and two CAN FD platforms. *)
Definition CP_legacy (long : bool) : CarParams :=
  {| flags := 128; openpilotLongitudinalControl := long; carFingerprint := OTHER_CAR |}.
Definition CP_angle : CarParams :=
  {| flags := 16777216 + 8192; openpilotLongitudinalControl := true;
     carFingerprint := OTHER_CAR |}.
Definition CP_alt_buttons : CarParams :=
  {| flags := 8192 + 2; openpilotLongitudinalControl := false;
     carFingerprint := OTHER_CAR |}.

Definition sub (escc : bool) : SubControllers :=
  {| ESCC_enabled := escc; interceptor_available := false;
     lkas_icon := 2; lfa_icon := 2; actual_accel := 0 |}.

Definition hud : HUDControl.t :=
  {| HUDControl.visualAlert := none;
     HUDControl.leftLaneVisible := true; HUDControl.rightLaneVisible := true;
     HUDControl.leftLaneDepart := false; HUDControl.rightLaneDepart := false;
     HUDControl.setSpeed := 25 |}.

Definition actuators (torque angle : Q) : Actuators.t :=
  {| Actuators.torque := torque; Actuators.torqueOutputCan := 0;
     Actuators.steeringAngleDeg := angle; Actuators.accel := 0;
     Actuators.longControlState := off |}.

Definition CC (lat : bool) (torque angle : Q) (resume : bool) : CarControl.t :=
  {| CarControl.latActive := lat; CarControl.enabled := true;
     CarControl.actuators := actuators torque angle;
     CarControl.hudControl := hud;
     CarControl.cancel := false; CarControl.resume := resume;
     CarControl.override := false;
     CarControl.leftBlinker := false; CarControl.rightBlinker := false |}.

Definition CS (v angle : Q) (pressed : bool) : CarState.t :=
  {| CarState.vEgoRaw := v; CarState.steeringAngleDeg := angle;
     CarState.steeringTorque := 0; CarState.steeringPressed := pressed;
     CarState.is_metric := true; CarState.main_cruise_enabled := true;
     CarState.buttons_counter := 0 |}.

Definition inputs (escc lat : bool) (torque target : Q) (resume : bool)
    (v angle : Q) (pressed : bool) : Inputs :=
  {| in_sub := sub escc; in_CC := CC lat torque target resume;
     in_CS := CS v angle pressed |}.

(** The sample lookup curve gives [alpha] at speed [v]. *)
Definition alpha_is (v alpha : Q) : Prop :=
  exists a, np_interp v (SMOOTHING_ANGLE_VEGO_MATRIX params)
                      (SMOOTHING_ANGLE_ALPHA_MATRIX params) = Ok a
            /\ a == alpha.

(** Lateral control active at 20 m/s, target 10 degrees, wheel not pressed. *)
Definition i_active : Inputs := inputs false true (1 # 2) 10 false 20 3 false.
(** The same with the driver pressing the wheel. *)
Definition i_pressed : Inputs := inputs false true (1 # 2) 10 false 20 3 true.
(** Lateral control inactive, the wheel at 200 degrees. *)
Definition i_inactive : Inputs := inputs false false (1 # 2) 10 false 20 200 false.
(** Lateral control inactive, the wheel at 3 degrees. *)
Definition i_inactive_small : Inputs := inputs false false (1 # 2) 10 false 20 3 false.
(** A low-speed tick, below the smoothing threshold. *)
Definition i_slow : Inputs := inputs false true (1 # 2) 10 false 5 3 false.
(** Standstill with a resume request. *)
Definition i_resume : Inputs := inputs false false 0 0 true 0 0 false.

(** A state whose gain is at its maximum. *)
Definition st_full_gain : State :=
  {| frame := 0; angle_limit_counter := 0; accel_last := 0;
     apply_torque_last := 1; last_button_frame := 0; apply_angle_last := 0 |}.

(** A state 30 ticks after the last button frame. *)
Definition st_frame_30 : State :=
  {| frame := 30; angle_limit_counter := 0; accel_last := 0;
     apply_torque_last := 0; last_button_frame := 0; apply_angle_last := 0 |}.

End Sample.


(** ** Further notions, for the properties beyond the cadence and limits *)

(** The steering command message of a tick, on either bus, and its fields. *)
Definition is_steer_cmd (m : msg) : bool :=
  match m with
  | create_lkas11 _ _ _ _ _ _ _ _ _ _ => true
  | create_steering_messages _ _ _ _ _ => true
  | _ => false
  end.

Definition steer_torque (m : msg) : option Q :=
  match m with
  | create_lkas11 _ tq _ _ _ _ _ _ _ _ => Some tq
  | create_steering_messages _ _ tq _ _ => Some tq
  | _ => None
  end.

Definition steer_req (m : msg) : option bool :=
  match m with
  | create_lkas11 _ _ req _ _ _ _ _ _ _ => Some req
  | create_steering_messages _ req _ _ _ => Some req
  | _ => None
  end.

(** The torque-fault bit, carried by the legacy steering message only. *)
Definition steer_fault (m : msg) : option bool :=
  match m with
  | create_lkas11 _ _ _ fault _ _ _ _ _ _ => Some fault
  | _ => None
  end.

(** The commanded angle, carried by the CAN FD steering message only. *)
Definition steer_angle (m : msg) : option Q :=
  match m with
  | create_steering_messages _ _ _ angle _ => Some angle
  | _ => None
  end.

(** The acceleration carried by a longitudinal command of either bus. *)
Definition accel_of (m : msg) : option Q :=
  match m with
  | create_acc_commands _ accel _ _ _ _ _ _ => Some accel
  | create_acc_control _ _ accel _ _ _ => Some accel
  | _ => None
  end.

(** The acceleration of the previous command, carried on the CAN FD bus. *)
Definition accel_last_of (m : msg) : option Q :=
  match m with
  | create_acc_control _ accel_last _ _ _ _ => Some accel_last
  | _ => None
  end.

(** The messages sent only when longitudinal control is self-managed. *)
Definition is_longitudinal_msg (m : msg) : bool :=
  match m with
  | make_tester_present_msg _ _ => true
  | create_acc_commands _ _ _ _ _ _ _ _ => true
  | create_acc_opt => true
  | create_frt_radar_opt => true
  | create_adrv_messages _ => true
  | create_fca_warning_light _ => true
  | create_acc_control _ _ _ _ _ _ => true
  | _ => false
  end.

(** A property of the value an optional field holds, when it is there. *)
Definition when_some {A : Type} (P : A -> Prop) (o : option A) : Prop :=
  match o with
  | Some a => P a
  | None => True
  end.

Section MoreNotions.

Variable params : CarControllerParams.
Variable self : Tuning.

(** Whether the limiter reaches the table lookup of [sp_smooth_angle]:
    smoothing enabled, |speed| below the threshold, and the clamped desired
    angle more than 0.1 away from the last command (lines 353 and 85). *)
Definition smoothing_applies (st : State) (CS : CarState.t) (apply_angle : Q) : bool :=
  angle_enable_smoothing_factor self
  && Qlt_bool (Qabs (CarState.vEgoRaw CS)) (SMOOTHING_ANGLE_MAX_VEGO params)
  && Qlt_bool (1 # 10)
       (Qabs (clip apply_angle (- (8192 # 10)) (8191 # 10) - apply_angle_last st)).

(** The target of the gain in the normal branch (line 388). *)
Definition gain_target (request : Q) : Q :=
  clip request (active_torque_reduction_gain self) (max_torque_reduction_gain self).

End MoreNotions.



(** ** Tuning overrides of [__init__] (lines 114-120 and 155-160)

    [Params.get] belongs to another repository: the stored value is of a
    type [PyVal] on which Python's [float], [int] and truth test are
    parameters. *)

Section TuningOverrides.

Variable PyVal : Type.
Variable py_float : PyVal -> result Q.
Variable py_int : PyVal -> result Z.
Variable py_truthy : PyVal -> bool.

Definition parse_tq_rdc_gain (val : option PyVal) : result (option Q) :=
  match val with
  | Some v =>
      f <- py_float v ;;
      q <- fdiv f 100 ;;
      Ok (Some q)
  | None => Ok None
  end.

(** Lines 157-159: [parse_tq_rdc_gain(self._params.get(KEY)) or default];
    [None] and the float 0 are false. *)
Definition tuned_gain (stored : option PyVal) (default : Q) : result Q :=
  g <- parse_tq_rdc_gain stored ;;
  Ok (match g with
      | Some q => if Qeq_bool q 0 then default else q
      | None => default
      end).

(** Line 160: [int(self._params.get(KEY) or default)]; the default is an
    [int] already. *)
Definition tuned_cycles (stored : option PyVal) (default : Z) : result Z :=
  match stored with
  | Some v => if py_truthy v then py_int v else Ok default
  | None => Ok default
  end.

End TuningOverrides.

(** Further sample data. *)
Module Cases.

(** Lateral control active with the desired angle equal to the last command. *)
Definition i_hold : Inputs := Sample.inputs false true (1 # 2) 0 false 20 3 false.

(** A cancel request, with a resume request beside it. *)
Definition i_cancel : Inputs :=
  {| in_sub := Sample.sub false;
     in_CC :=
       {| CarControl.latActive := false; CarControl.enabled := true;
          CarControl.actuators := Sample.actuators 0 0;
          CarControl.hudControl := Sample.hud;
          CarControl.cancel := true; CarControl.resume := true;
          CarControl.override := false;
          CarControl.leftBlinker := false; CarControl.rightBlinker := false |};
     in_CS := Sample.CS 0 0 false |}.

(** A CAN FD platform without longitudinal control and without alt buttons. *)
Definition CP_canfd : CarParams :=
  {| flags := 8192; openpilotLongitudinalControl := false; carFingerprint := OTHER_CAR |}.

(** A stored value is a number here; [float], [int] and the truth test as
    Python has them on numbers. *)
Definition py_float (v : Q) : result Q := Ok v.
Definition py_int (v : Q) : result Z := Ok (Z.quot (Qnum v) (Z.pos (Qden v))).
Definition py_truthy (v : Q) : bool := negb (Qeq_bool v 0).

(** The sample tuning with an override-cycle count of zero. *)
Definition self_zero_cycles : Tuning :=
  {| ramp_down_reduction_gain_rate := 175 # 100000;
     ramp_up_reduction_gain_rate := 2 # 1000;
     min_torque_reduction_gain := 1 # 10;
     max_torque_reduction_gain := 1;
     active_torque_reduction_gain := 1 # 2;
     angle_torque_override_cycles := 0;
     angle_enable_smoothing_factor := true |}.

End Cases.

(** The fields a sent message carries agree with the values handed to the
    scheduler. *)
Definition sent_fields_agree (angle : Q) (req : bool) (tq : Q) (fault : bool)
    (accel_before accel : Q) (m : msg) : Prop :=
  when_some (fun x => x = tq) (steer_torque m)
  /\ when_some (fun x => x = req) (steer_req m)
  /\ when_some (fun x => x = fault) (steer_fault m)
  /\ when_some (fun x => x = angle) (steer_angle m)
  /\ when_some (fun x => x = accel) (accel_of m)
  /\ when_some (fun x => x = accel_before) (accel_last_of m).

(** Ticks and runs of the sample platforms. *)
Module Platforms.

Definition angle_tick : State -> Inputs -> result (State * Actuators.t * list msg) :=
  tick Sample.ext Sample.HF Sample.params Sample.CP_angle Sample.VM Sample.self.

Definition legacy_tick (long : bool)
  : State -> Inputs -> result (State * Actuators.t * list msg) :=
  tick Sample.ext Sample.HF Sample.params (Sample.CP_legacy long) Sample.VM Sample.self.

Definition canfd_tick : State -> Inputs -> result (State * Actuators.t * list msg) :=
  tick Sample.ext Sample.HF Sample.params Cases.CP_canfd Sample.VM Sample.self.

Definition alt_tick : State -> Inputs -> result (State * Actuators.t * list msg) :=
  tick Sample.ext Sample.HF Sample.params Sample.CP_alt_buttons Sample.VM Sample.self.

Definition angle_run
  : State -> list Inputs -> result (State * list (Actuators.t * list msg)) :=
  run Sample.ext Sample.HF Sample.params Sample.CP_angle Sample.VM Sample.self.


End Platforms.

(** A property of what a computation returns, false when it raises. *)
Definition holds_on {A : Type} (r : result A) (P : A -> Prop) : Prop :=
  match r with
  | Ok a => P a
  | Raise _ => False
  end.

(** ** Basic facts *)

Lemma bind_Ok_inv {A B : Type} (m : result A) (k : A -> result B) (b : B) :
  bind m k = Ok b -> exists a, m = Ok a /\ k a = Ok b.
Proof.
  destruct m as [a|e]; simpl; intros H; [exists a; auto | discriminate].
Qed.

Lemma Qlt_bool_iff (a b : Q) : Qlt_bool a b = true <-> a < b.
Proof.
  unfold Qlt_bool. rewrite negb_true_iff.
  split; intros H.
  - apply Qnot_le_lt. intros Hle. apply Qle_bool_iff in Hle. congruence.
  - destruct (Qle_bool b a) eqn:E; [|reflexivity].
    apply Qle_bool_iff in E. exfalso. apply (Qlt_not_le _ _ H E).
Qed.

Lemma Qlt_bool_false_iff (a b : Q) : Qlt_bool a b = false <-> b <= a.
Proof.
  unfold Qlt_bool. rewrite negb_false_iff. apply Qle_bool_iff.
Qed.

Lemma Qeq_bool_false_iff (a b : Q) : Qeq_bool a b = false <-> ~ a == b.
Proof.
  split; intros H.
  - intros E. apply Qeq_bool_iff in E. congruence.
  - destruct (Qeq_bool a b) eqn:E; [|reflexivity].
    apply Qeq_bool_iff in E. contradiction.
Qed.

Lemma clip_bounds (x lo hi : Q) : lo <= hi -> lo <= clip x lo hi <= hi.
Proof.
  intros H. unfold clip.
  split.
  - apply Q.min_glb; [apply Q.le_max_r | exact H].
  - apply Q.le_min_r.
Qed.

Lemma clip_id (x lo hi : Q) : lo <= x <= hi -> clip x lo hi == x.
Proof.
  intros [H1 H2]. unfold clip.
  rewrite (Q.max_l x lo) by exact H1.
  apply Q.min_l. exact H2.
Qed.

(** Clamping to an interval that contains [c] does not move a point away
    from [c]. *)
Lemma clip_towards (x c lo hi d : Q) :
  lo <= c <= hi -> Qabs (x - c) <= d -> Qabs (clip x lo hi - c) <= d.
Proof.
  intros [H1 H2] H.
  apply Qabs_Qle_condition in H. destruct H as [Ha Hb].
  apply Qabs_Qle_condition.
  unfold clip.
  destruct (Q.max_spec x lo) as [[? E1]|[? E1]];
    destruct (Q.min_spec (Qmax x lo) hi) as [[? E2]|[? E2]];
    rewrite E2; try rewrite E1; split; try rewrite E1 in *; lra.
Qed.

Lemma Qabs_diff_clip (x c d : Q) :
  0 <= d -> Qabs (clip x (c + - d) (c + d) - c) <= d.
Proof.
  intros Hd. apply Qabs_Qle_condition.
  assert (Hb : c + - d <= clip x (c + - d) (c + d) <= c + d)
    by (apply clip_bounds; lra).
  destruct Hb. split; lra.
Qed.

Lemma fdiv_Ok (a b : Q) : ~ b == 0 -> fdiv a b = Ok (a / b).
Proof.
  intros H. unfold fdiv.
  apply Qeq_bool_false_iff in H. rewrite H. reflexivity.
Qed.

Lemma Qmax_1_sq_nonzero (v : Q) : ~ Qmax v 1 * Qmax v 1 == 0.
Proof.
  assert (H : 1 <= Qmax v 1) by apply Q.le_max_r.
  intros E. nra.
Qed.

Lemma np_interp_total (x : Q) (xp fp : list Q) :
  xp <> [] -> length xp = length fp -> exists a, np_interp x xp fp = Ok a.
Proof.
  intros Hne Hlen. unfold np_interp.
  rewrite Hlen, Nat.eqb_refl. simpl.
  destruct xp as [|x0 xp]; [congruence|].
  destruct fp as [|y0 fp]; [discriminate|].
  simpl. destruct (Qle_bool x x0); eexists; reflexivity.
Qed.

Lemma interp_segments_pl (rest pre : list (Q * Q)) (x0 y0 x : Q) :
  x0 <= x ->
  piecewise_linear (pre ++ (x0, y0) :: rest) x (interp_segments x x0 y0 rest).
Proof.
  revert pre x0 y0.
  induction rest as [|[x1 y1] rest IH]; intros pre x0 y0 Hx; simpl.
  - apply pl_above. exact Hx.
  - destruct (Qlt_bool x x1) eqn:E.
    + apply Qlt_bool_iff in E.
      apply pl_between; [exact Hx | apply Qlt_le_weak; exact E |].
      apply Qle_lt_trans with x; assumption.
    + apply Qlt_bool_false_iff in E.
      specialize (IH (pre ++ [(x0, y0)]) x1 y1 E).
      rewrite <- app_assoc in IH. exact IH.
Qed.

Lemma np_interp_pl (x : Q) (xp fp : list Q) (y : Q) :
  np_interp x xp fp = Ok y -> piecewise_linear (combine xp fp) x y.
Proof.
  unfold np_interp.
  destruct (negb _); [discriminate|].
  destruct (combine xp fp) as [|[x0 y0] rest]; [discriminate|].
  destruct (Qle_bool x x0) eqn:E; intros H; injection H as <-.
  - apply pl_below. apply Qle_bool_iff. exact E.
  - apply (interp_segments_pl rest [] x0 y0 x).
    apply Qlt_le_weak. apply Qlt_bool_iff.
    unfold Qlt_bool. rewrite E. reflexivity.
Qed.

Lemma steps_within_nth (cap prev : Q) (l : list Q) :
  steps_within cap prev l ->
  forall t, (t < length l)%nat -> Qabs (nth t l 0 - nth t (prev :: l) 0) <= cap.
Proof.
  revert prev. induction l as [|a l IH]; intros prev H t Ht; simpl in Ht; [lia|].
  destruct H as [H1 H2].
  destruct t as [|t]; [exact H1|].
  apply (IH a H2 t). lia.
Qed.

Section Facts.

Variable ext : Externals.
Variable HF : HyundaiFlags.
Variable params : CarControllerParams.
Variable CP : CarParams.
Variable VM : VehicleModel.
Variable self : Tuning.

Lemma create_can_msgs_core st sub req tq fault ss acc stp hud act CS CC :
  same_core st (fst (create_can_msgs HF CP st sub req tq fault ss acc stp hud act CS CC)).
Proof.
  unfold create_can_msgs.
  destruct (process_hud_alert _ _ _) as [[[w s] l] r].
  destruct (negb (openpilotLongitudinalControl CP));
    [destruct (CarControl.cancel CC);
     [|destruct (CarControl.resume CC);
       [destruct (Qlt_bool _ _); [destruct (Qle_bool _ _)|]|]]|];
    simpl; repeat split.
Qed.

Lemma create_canfd_msgs_core st sub req tq ss acc stp hud CS CC :
  same_core st (fst (create_canfd_msgs HF CP st sub req tq ss acc stp hud CS CC)).
Proof.
  unfold create_canfd_msgs.
  destruct (openpilotLongitudinalControl CP).
  - destruct (frame st mod 2 =? 0)%Z; simpl; repeat split.
  - destruct (Qlt_bool _ _); [|simpl; repeat split].
    destruct (CarControl.cancel CC).
    + destruct (has_flag _ (CANFD_ALT_BUTTONS HF)); simpl; repeat split.
    + destruct (CarControl.resume CC); [|simpl; repeat split].
      destruct (has_flag _ (CANFD_ALT_BUTTONS HF)); simpl; repeat split.
Qed.

Lemma bus_msgs_core st sub req tq fault ss acc stp CS CC :
  same_core st (fst (bus_msgs HF CP st sub req tq fault ss acc stp CS CC)).
Proof.
  unfold bus_msgs. destruct (has_flag _ _).
  - apply create_canfd_msgs_core.
  - apply create_can_msgs_core.
Qed.

(** What a tick that returns has done. *)
Lemma update_Ok_inv st sub CC CS st' act sends :
  update ext HF params CP VM self st sub CC CS = Ok (st', act, sends) ->
  exists counter angle tq req,
    steering_command ext HF params CP VM self st CC CS = Ok (counter, angle, tq, req)
    /\ let out := if negb (CarControl.latActive CC) then 0 else tq in
       frame st' = (frame st + 1)%Z
       /\ apply_angle_last st' = angle
       /\ Actuators.steeringAngleDeg act = angle
       /\ apply_torque_last st' = out
       /\ Actuators.torqueOutputCan act = out
       /\ fdiv out (STEER_MAX params) = Ok (Actuators.torque act)
       /\ exists fault ss acc stp,
            let r := bus_msgs HF CP (mid_state st counter angle out) sub req out fault
                              ss acc stp CS CC in
            last_button_frame st' = last_button_frame (fst r)
            /\ sends = tester_present ext HF CP st sub ++ snd r.
Proof.
  unfold update. intros H.
  apply bind_Ok_inv in H. destruct H as [[[[counter angle] tq] req] [Hs H]].
  exists counter, angle, tq, req. split; [exact Hs|].
  apply bind_Ok_inv in H. destruct H as [q [Hq H]].
  injection H as <- <- <-.
  match goal with
  | |- context [bus_msgs _ _ ?m _ _ _ ?fault ?ss ?acc ?stp _ _] =>
      pose proof (bus_msgs_core m sub req
                    (if negb (CarControl.latActive CC) then 0 else tq)
                    fault ss acc stp CS CC) as (Hf & _ & Ht & Ha)
  end.
  simpl in Hf, Ht, Ha. cbv zeta. simpl.
  rewrite Hf, Ht, Ha.
  repeat split; try reflexivity.
  - exact Hq.
  - do 4 eexists. split; reflexivity.
Qed.

Lemma update_total st sub CC CS counter angle tq req :
  ~ STEER_MAX params == 0 ->
  steering_command ext HF params CP VM self st CC CS = Ok (counter, angle, tq, req) ->
  exists st' act sends,
    update ext HF params CP VM self st sub CC CS = Ok (st', act, sends).
Proof.
  intros Hz Hs. unfold update. rewrite Hs. simpl.
  rewrite fdiv_Ok by exact Hz. simpl. do 3 eexists. reflexivity.
Qed.

End Facts.

(** ** The steering angle limiter *)

Section Limiter.

Variable ext : Externals.
Variable HF : HyundaiFlags.
Variable params : CarControllerParams.
Variable CP : CarParams.
Variable VM : VehicleModel.
Variable self : Tuning.

Local Abbreviation limiter := (apply_hyundai_steer_angle_limits ext params VM self).
Local Abbreviation gain := (calculate_angle_torque_reduction_gain self).
Local Abbreviation M := (STEER_ANGLE_MAX params).

Lemma get_max_angle_delta_floored (v : Q) :
  get_max_angle_delta ext VM (Qmax v 1) 100 = Ok (kinematicRateCap ext VM v).
Proof.
  unfold get_max_angle_delta.
  rewrite fdiv_Ok by apply Qmax_1_sq_nonzero. simpl.
  rewrite fdiv_Ok by (intros E; discriminate E). reflexivity.
Qed.

Lemma get_max_angle_floored (v : Q) :
  get_max_angle ext VM (Qmax v 1) = Ok (kinematicMaxAngle ext VM v).
Proof.
  unfold get_max_angle.
  rewrite fdiv_Ok by apply Qmax_1_sq_nonzero. reflexivity.
Qed.

Lemma smoothed_total st CS x :
  tables_ok params -> exists a, smoothed_apply_angle params self st CS x = Ok a.
Proof.
  intros [Hne Hlen]. unfold smoothed_apply_angle, sp_smooth_angle.
  destruct (_ && _); [|eexists; reflexivity].
  destruct (Qlt_bool _ _); [|eexists; reflexivity].
  destruct (np_interp_total (CarState.vEgoRaw CS) _ _ Hne Hlen) as [al ->].
  simpl. eexists; reflexivity.
Qed.

(** The limiter after its smoothing stage, in closed form. *)
Lemma limiter_eq st CS CC x a :
  smoothed_apply_angle params self st CS x = Ok a ->
  let v := CarState.vEgoRaw CS in
  let d := Qmin (kinematicRateCap ext VM v) MAX_ANGLE_RATE in
  let A := kinematicMaxAngle ext VM v in
  limiter st CS CC x
  = Ok (clip (if negb (CarControl.latActive CC)
              then CarState.steeringAngleDeg CS
              else clip (rate_limit a (apply_angle_last st) (- d) d) (- A) A)
             (- M) M).
Proof.
  intros Hs. unfold apply_hyundai_steer_angle_limits.
  rewrite Hs. simpl.
  rewrite get_max_angle_delta_floored. simpl.
  rewrite get_max_angle_floored. reflexivity.
Qed.

Lemma limiter_range st CS CC x :
  0 <= M -> tables_ok params ->
  exists a, limiter st CS CC x = Ok a /\ - M <= a <= M.
Proof.
  intros HM Ht.
  destruct (smoothed_total st CS x Ht) as [s Hs].
  eexists. split; [apply (limiter_eq st CS CC x s Hs)|].
  apply clip_bounds. lra.
Qed.

Lemma inject_Z_nonzero (z : Z) : z <> 0%Z -> ~ inject_Z z == 0.
Proof.
  intros Hz E. apply Hz. unfold Qeq in E. simpl in E. lia.
Qed.

Lemma gain_total st CS target :
  angle_torque_override_cycles self <> 0%Z -> exists g, gain st CS target = Ok g.
Proof.
  intros Hc. unfold calculate_angle_torque_reduction_gain.
  destruct (CarState.steeringPressed CS).
  - rewrite fdiv_Ok by (apply inject_Z_nonzero; exact Hc). simpl. eexists; reflexivity.
  - destruct (Qlt_bool _ _); eexists; reflexivity.
Qed.

Lemma steering_command_angle st CC CS a g :
  has_flag (flags CP) (CANFD_ANGLE_STEERING HF) = true ->
  limiter st CS CC (Actuators.steeringAngleDeg (CarControl.actuators CC)) = Ok a ->
  gain st CS (Qabs (Actuators.torque (CarControl.actuators CC))) = Ok g ->
  let tq := clip g (min_torque_reduction_gain self) (max_torque_reduction_gain self) in
  steering_command ext HF params CP VM self st CC CS
  = Ok (angle_limit_counter st, a, tq, CarControl.latActive CC && negb (Qeq_bool tq 0)).
Proof.
  intros Hf Ha Hg. unfold steering_command, update_angle_steering_control.
  rewrite Hf, Ha. simpl. rewrite Hg. reflexivity.
Qed.

(** In angle mode a tick that returns has stored and echoed the results of
    the limiter and of the clamped gain. *)
Lemma steering_command_angle_inv st CC CS counter angle tq req :
  has_flag (flags CP) (CANFD_ANGLE_STEERING HF) = true ->
  steering_command ext HF params CP VM self st CC CS = Ok (counter, angle, tq, req) ->
  exists g,
    limiter st CS CC (Actuators.steeringAngleDeg (CarControl.actuators CC)) = Ok angle
    /\ gain st CS (Qabs (Actuators.torque (CarControl.actuators CC))) = Ok g
    /\ tq = clip g (min_torque_reduction_gain self) (max_torque_reduction_gain self).
Proof.
  intros Hf. unfold steering_command, update_angle_steering_control.
  rewrite Hf. simpl. intros H.
  apply bind_Ok_inv in H. destruct H as [[a g] [H1 H2]].
  apply bind_Ok_inv in H1. destruct H1 as [a' [Ha H1]].
  apply bind_Ok_inv in H1. destruct H1 as [g' [Hg H1]].
  injection H1 as <- <-. injection H2 as <- <- <- <-.
  exists g'. auto.
Qed.

(** Under a well-formed configuration an angle-mode tick returns. *)
Lemma update_angle_total st sub CC CS :
  well_formed params self ->
  has_flag (flags CP) (CANFD_ANGLE_STEERING HF) = true ->
  exists a g st' act sends,
    limiter st CS CC (Actuators.steeringAngleDeg (CarControl.actuators CC)) = Ok a
    /\ gain st CS (Qabs (Actuators.torque (CarControl.actuators CC))) = Ok g
    /\ update ext HF params CP VM self st sub CC CS = Ok (st', act, sends).
Proof.
  intros (Hz & Hc & Ht) Hf.
  destruct (smoothed_total st CS (Actuators.steeringAngleDeg (CarControl.actuators CC)) Ht)
    as [s Hs].
  pose proof (limiter_eq st CS CC _ _ Hs) as Ha. cbv zeta in Ha.
  destruct (gain_total st CS (Qabs (Actuators.torque (CarControl.actuators CC))) Hc)
    as [g Hg].
  pose proof (steering_command_angle st CC CS _ _ Hf Ha Hg) as Hsc. cbv zeta in Hsc.
  destruct (update_total ext HF params CP VM self st sub CC CS _ _ _ _ Hz Hsc)
    as (st' & act & sends & Hu).
  do 5 eexists. repeat split; eassumption.
Qed.

(** The workhorse for angle mode: the tick returns, and what it stores
    and echoes are the limiter's angle and the clamped gain (zero when
    lateral control is inactive). *)
Lemma update_angle_step st sub CC CS :
  well_formed params self ->
  has_flag (flags CP) (CANFD_ANGLE_STEERING HF) = true ->
  exists a g st' act sends,
    limiter st CS CC (Actuators.steeringAngleDeg (CarControl.actuators CC)) = Ok a
    /\ gain st CS (Qabs (Actuators.torque (CarControl.actuators CC))) = Ok g
    /\ update ext HF params CP VM self st sub CC CS = Ok (st', act, sends)
    /\ let out :=
         if negb (CarControl.latActive CC) then 0
         else clip g (min_torque_reduction_gain self) (max_torque_reduction_gain self) in
       frame st' = (frame st + 1)%Z
       /\ apply_angle_last st' = a
       /\ Actuators.steeringAngleDeg act = a
       /\ apply_torque_last st' = out
       /\ Actuators.torqueOutputCan act = out
       /\ fdiv out (STEER_MAX params) = Ok (Actuators.torque act).
Proof.
  intros Hwf Hf.
  destruct (update_angle_total st sub CC CS Hwf Hf)
    as (a & g & st' & act & sends & Ha & Hg & Hu).
  exists a, g, st', act, sends.
  pose proof Hu as Hi. apply update_Ok_inv in Hi.
  destruct Hi as (counter & angle & tq & req & Hsc & Hfr & Hl & He & Htl & Hto & Hd & _).
  apply (steering_command_angle_inv _ _ _ _ _ _ _ Hf) in Hsc.
  destruct Hsc as (g' & Ha' & Hg' & ->).
  rewrite Ha in Ha'. injection Ha' as <-.
  rewrite Hg in Hg'. injection Hg' as <-.
  repeat split; assumption.
Qed.

(** C1.  In angle-steering mode, under a well-formed configuration whose
    static maximum steering angle is not negative: the limiter returns, for
    every raw desired angle, speed and lateral-active flag, an angle in
    [-STEER_ANGLE_MAX, STEER_ANGLE_MAX]; and the tick returns, stores that
    angle as the last commanded angle and echoes it in the actuators. *)
Theorem angle_within_static_max st sub CC CS :
  0 <= M ->
  well_formed params self ->
  has_flag (flags CP) (CANFD_ANGLE_STEERING HF) = true ->
  (forall apply_angle, exists a, limiter st CS CC apply_angle = Ok a /\ - M <= a <= M)
  /\ exists a st' act sends,
       limiter st CS CC (Actuators.steeringAngleDeg (CarControl.actuators CC)) = Ok a
       /\ update ext HF params CP VM self st sub CC CS = Ok (st', act, sends)
       /\ Actuators.steeringAngleDeg act = a
       /\ apply_angle_last st' = a
       /\ - M <= a <= M.
Proof.
  intros HM Hwf Hf.
  assert (Ht : tables_ok params) by apply Hwf.
  split; [intros x; apply limiter_range; assumption|].
  destruct (update_angle_step st sub CC CS Hwf Hf)
    as (a & g & st' & act & sends & Ha & _ & Hu & _ & Hl & He & _).
  exists a, st', act, sends.
  destruct (limiter_range st CS CC (Actuators.steeringAngleDeg (CarControl.actuators CC)) HM Ht)
    as (a' & E & Hr).
  rewrite Ha in E. injection E as <-.
  repeat split; try assumption; apply Hr.
Qed.

(** *** Inactive ticks *)

Lemma limiter_inactive st CS CC x :
  tables_ok params ->
  CarControl.latActive CC = false ->
  limiter st CS CC x = Ok (clip (CarState.steeringAngleDeg CS) (- M) M).
Proof.
  intros Ht Hl.
  destruct (smoothed_total st CS x Ht) as [s Hs].
  rewrite (limiter_eq st CS CC x s Hs). rewrite Hl. reflexivity.
Qed.

Lemma inactive_step st i :
  well_formed params self ->
  has_flag (flags CP) (CANFD_ANGLE_STEERING HF) = true ->
  CarControl.latActive (in_CC i) = false ->
  exists st' act sends,
    tick ext HF params CP VM self st i = Ok (st', act, sends)
    /\ Actuators.steeringAngleDeg act
       = clip (CarState.steeringAngleDeg (in_CS i)) (- M) M.
Proof.
  intros Hwf Hf Hl.
  destruct (update_angle_step st (in_sub i) (in_CC i) (in_CS i) Hwf Hf)
    as (a & g & st' & act & sends & Ha & _ & Hu & _ & _ & He & _).
  exists st', act, sends. split; [exact Hu|].
  rewrite (limiter_inactive st (in_CS i) (in_CC i) _ (proj2 (proj2 Hwf)) Hl) in Ha.
  injection Ha as <-. exact He.
Qed.

(** C7 (amended).  In angle mode, on a tick where lateral control is
    inactive, the echoed steering angle is the vehicle's true current
    steering angle of that tick clamped to
    [-STEER_ANGLE_MAX, STEER_ANGLE_MAX], whatever the previous command and
    the desired angle were; it equals the true angle when that lies within
    the static maximum.  In particular this holds of the second of two
    consecutive inactive ticks. *)
Theorem inactive_angle_is_clamped_true_angle :
  well_formed params self ->
  has_flag (flags CP) (CANFD_ANGLE_STEERING HF) = true ->
  (forall st i,
      CarControl.latActive (in_CC i) = false ->
      exists st' act sends,
        tick ext HF params CP VM self st i = Ok (st', act, sends)
        /\ Actuators.steeringAngleDeg act
           = clip (CarState.steeringAngleDeg (in_CS i)) (- M) M
        /\ (- M <= CarState.steeringAngleDeg (in_CS i) <= M ->
            Actuators.steeringAngleDeg act == CarState.steeringAngleDeg (in_CS i)))
  /\ (forall st i1 i2,
         CarControl.latActive (in_CC i1) = false ->
         CarControl.latActive (in_CC i2) = false ->
         exists st' a1 s1 a2 s2,
           run ext HF params CP VM self st [i1; i2] = Ok (st', [(a1, s1); (a2, s2)])
           /\ Actuators.steeringAngleDeg a2
              = clip (CarState.steeringAngleDeg (in_CS i2)) (- M) M
           /\ (- M <= CarState.steeringAngleDeg (in_CS i2) <= M ->
               Actuators.steeringAngleDeg a2 == CarState.steeringAngleDeg (in_CS i2))).
Proof.
  intros Hwf Hf. split.
  - intros st i Hl.
    destruct (inactive_step st i Hwf Hf Hl) as (st' & act & sends & Hu & He).
    exists st', act, sends. repeat split; try assumption.
    intros Hr. rewrite He. apply clip_id. exact Hr.
  - intros st i1 i2 Hl1 Hl2.
    destruct (inactive_step st i1 Hwf Hf Hl1) as (st1 & a1 & s1 & Hu1 & _).
    destruct (inactive_step st1 i2 Hwf Hf Hl2) as (st2 & a2 & s2 & Hu2 & He).
    exists st2, a1, s1, a2, s2. split; [|split].
    + simpl. rewrite Hu1. simpl. rewrite Hu2. reflexivity.
    + exact He.
    + intros Hr. rewrite He. apply clip_id. exact Hr.
Qed.

(** *** Smoothing *)

(** C8.  With smoothing enabled and |speed| below the configured threshold
    (and tables that [np.interp] accepts), the smoothing stage of the
    limiter is [sp_smooth_angle] on the candidate (the raw angle clamped to
    the encodable range) and the last commanded angle: the blend factor is
    the piecewise-linear interpolation of the speed over the lookup table,
    limited to at most 1; when the candidate differs from the last command
    by more than 0.1 the output is alpha * candidate + (1 - alpha) * last,
    otherwise it is the candidate itself; and the limiter continues from
    that output. *)
Theorem smoothing_blend st CS CC x :
  angle_enable_smoothing_factor self = true ->
  Qabs (CarState.vEgoRaw CS) < SMOOTHING_ANGLE_MAX_VEGO params ->
  tables_ok params ->
  let v := CarState.vEgoRaw CS in
  let cand := clip x (- (8192 # 10)) (8191 # 10) in
  let last := apply_angle_last st in
  exists alpha0 r,
    np_interp v (SMOOTHING_ANGLE_VEGO_MATRIX params) (SMOOTHING_ANGLE_ALPHA_MATRIX params)
    = Ok alpha0
    /\ piecewise_linear
         (combine (SMOOTHING_ANGLE_VEGO_MATRIX params) (SMOOTHING_ANGLE_ALPHA_MATRIX params))
         v alpha0
    /\ smoothed_apply_angle params self st CS x = Ok r
    /\ sp_smooth_angle params v cand last = Ok r
    /\ Qmin alpha0 1 <= 1
    /\ (1 # 10 < Qabs (cand - last) ->
        r == Qmin alpha0 1 * cand + (1 - Qmin alpha0 1) * last)
    /\ (Qabs (cand - last) <= 1 # 10 -> r = cand)
    /\ limiter st CS CC x
       = Ok (clip (if negb (CarControl.latActive CC)
                   then CarState.steeringAngleDeg CS
                   else clip (rate_limit r last (- rate_cap ext VM v) (rate_cap ext VM v))
                             (- kinematicMaxAngle ext VM v) (kinematicMaxAngle ext VM v))
                  (- M) M).
Proof.
  intros Hen Hv [Hne Hlen] v cand last.
  destruct (np_interp_total v _ _ Hne Hlen) as [alpha0 Hal].
  assert (Hst : smoothed_apply_angle params self st CS x
                = sp_smooth_angle params v cand last).
  { unfold smoothed_apply_angle. rewrite Hen.
    apply Qlt_bool_iff in Hv. rewrite Hv. reflexivity. }
  assert (Hsp : exists r,
             sp_smooth_angle params v cand last = Ok r
             /\ (1 # 10 < Qabs (cand - last) ->
                 r == Qmin alpha0 1 * cand + (1 - Qmin alpha0 1) * last)
             /\ (Qabs (cand - last) <= 1 # 10 -> r = cand)).
  { unfold sp_smooth_angle.
    destruct (Qlt_bool (1 # 10) (Qabs (cand - last))) eqn:E.
    - rewrite Hal. simpl. eexists. split; [reflexivity|]. split.
      + intros _. ring.
      + intros Hle. apply Qlt_bool_iff in E. exfalso.
        apply (Qlt_not_le _ _ E Hle).
    - eexists. split; [reflexivity|]. split.
      + intros Hlt. apply Qlt_bool_iff in Hlt. congruence.
      + reflexivity. }
  destruct Hsp as (r & Hr & Hbig & Hsmall).
  exists alpha0, r.
  split; [exact Hal|].
  split; [apply np_interp_pl; exact Hal|].
  split; [rewrite Hst; exact Hr|].
  split; [exact Hr|].
  split; [apply Q.le_min_r|].
  split; [exact Hbig|].
  split; [exact Hsmall|].
  apply limiter_eq. rewrite Hst. exact Hr.
Qed.

(** *** The rate limit *)

Lemma limiter_Ok_smoothed st CS CC x a :
  limiter st CS CC x = Ok a ->
  exists s, smoothed_apply_angle params self st CS x = Ok s.
Proof.
  unfold apply_hyundai_steer_angle_limits. intros H.
  apply bind_Ok_inv in H. destruct H as [s [Hs _]]. exists s. exact Hs.
Qed.

(** One active tick: the new angle is within the rate cap of the last
    one when that was in the envelope, and is in the envelope itself. *)
Lemma limiter_active_step st CS CC x a :
  CarControl.latActive CC = true ->
  limiter st CS CC x = Ok a ->
  let v := CarState.vEgoRaw CS in
  0 <= kinematicRateCap ext VM v ->
  0 <= kinematicMaxAngle ext VM v ->
  0 <= M ->
  in_envelope ext params VM v a
  /\ (in_envelope ext params VM v (apply_angle_last st) ->
      Qabs (a - apply_angle_last st) <= rate_cap ext VM v).
Proof.
  intros Hl Ha v Hd HA HM.
  destruct (limiter_Ok_smoothed _ _ _ _ _ Ha) as [s Hs].
  rewrite (limiter_eq st CS CC x s Hs) in Ha. rewrite Hl in Ha. simpl in Ha.
  injection Ha as <-. fold v. fold (rate_cap ext VM v).
  assert (Hc : 0 <= rate_cap ext VM v).
  { unfold rate_cap. apply Q.min_glb; [exact Hd | intros E; discriminate E]. }
  set (d := rate_cap ext VM v) in *.
  set (A := kinematicMaxAngle ext VM v) in *.
  set (y := rate_limit s (apply_angle_last st) (- d) d).
  split.
  - unfold in_envelope. fold A.
    assert (H1 : - A <= clip y (- A) A <= A) by (apply clip_bounds; lra).
    split.
    + assert (H2 : Qabs (clip (clip y (- A) A) (- M) M - 0) <= A).
      { apply clip_towards; [lra|]. apply Qabs_Qle_condition. lra. }
      apply Qabs_Qle_condition in H2. lra.
    + apply clip_bounds. lra.
  - intros [[E1 E2] [E3 E4]]. fold A in E1, E2.
    apply clip_towards; [lra|].
    apply clip_towards; [lra|].
    unfold y, rate_limit. apply Qabs_diff_clip. exact Hc.
Qed.

Lemma run_rate_limited v :
  well_formed params self ->
  has_flag (flags CP) (CANFD_ANGLE_STEERING HF) = true ->
  0 <= kinematicRateCap ext VM v ->
  0 <= kinematicMaxAngle ext VM v ->
  0 <= M ->
  forall ins st,
    Forall (fun i => CarControl.latActive (in_CC i) = true
                     /\ CarState.vEgoRaw (in_CS i) = v) ins ->
    exists st' outs,
      run ext HF params CP VM self st ins = Ok (st', outs)
      /\ length outs = length ins
      /\ (in_envelope ext params VM v (apply_angle_last st) ->
          steps_within (rate_cap ext VM v) (apply_angle_last st) (echoed_angles outs))
      /\ match echoed_angles outs with
         | [] => True
         | a :: rest => steps_within (rate_cap ext VM v) a rest
         end.
Proof.
  intros Hwf Hf Hd HA HM.
  induction ins as [|i ins IH]; intros st Hall.
  - exists st, []. simpl. auto.
  - inversion Hall as [|? ? [Hl Hv] Hall']; subst.
    destruct (update_angle_step st (in_sub i) (in_CC i) (in_CS i) Hwf Hf)
      as (a & g & st1 & act & sends & Ha & _ & Hu & _ & Hl1 & He & _).
    destruct (limiter_active_step st (in_CS i) (in_CC i) _ a Hl Ha Hd HA HM)
      as [Henv Hstep].
    destruct (IH st1 Hall') as (st2 & outs & Hr & Hlen & Hin & _).
    rewrite Hl1 in Hin. specialize (Hin Henv).
    exists st2, ((act, sends) :: outs).
    split; [simpl; unfold tick; rewrite Hu; simpl; rewrite Hr; reflexivity|].
    split; [simpl; congruence|].
    simpl. rewrite He. split; [|exact Hin].
    intros H0. split; [apply Hstep; exact H0 | exact Hin].
Qed.

(** C2.  In angle mode, for ticks held at one speed [v] with lateral
    control continuously active (a well-formed configuration, a kinematic
    model whose rate cap and maximum angle at [v] are not negative, and a
    non-negative static maximum): the run returns and every echoed angle is
    within min(kinematicRateCap(v), MAX_ANGLE_RATE) of the one echoed on the
    tick before; so is the first one with respect to the previously
    commanded angle when that lies in the envelope of speed [v], as the
    initial 0 does. *)
Theorem rate_limit_law v st ins :
  well_formed params self ->
  has_flag (flags CP) (CANFD_ANGLE_STEERING HF) = true ->
  0 <= kinematicRateCap ext VM v ->
  0 <= kinematicMaxAngle ext VM v ->
  0 <= M ->
  Forall (fun i => CarControl.latActive (in_CC i) = true
                   /\ CarState.vEgoRaw (in_CS i) = v) ins ->
  exists st' outs,
    run ext HF params CP VM self st ins = Ok (st', outs)
    /\ length outs = length ins
    /\ (forall t, (S t < length outs)%nat ->
        Qabs (nth (S t) (echoed_angles outs) 0 - nth t (echoed_angles outs) 0)
        <= Qmin (kinematicRateCap ext VM v) MAX_ANGLE_RATE)
    /\ ((st = init_state \/ in_envelope ext params VM v (apply_angle_last st)) ->
        forall t, (t < length outs)%nat ->
        Qabs (nth t (echoed_angles outs) 0
              - nth t (apply_angle_last st :: echoed_angles outs) 0)
        <= Qmin (kinematicRateCap ext VM v) MAX_ANGLE_RATE).
Proof.
  intros Hwf Hf Hd HA HM Hall.
  destruct (run_rate_limited v Hwf Hf Hd HA HM ins st Hall)
    as (st' & outs & Hr & Hlen & Hfirst & Hrest).
  exists st', outs. split; [exact Hr|]. split; [exact Hlen|].
  fold (rate_cap ext VM v).
  assert (Hl : length (echoed_angles outs) = length outs)
    by (unfold echoed_angles; apply length_map).
  split.
  - intros t Ht.
    destruct (echoed_angles outs) as [|a rest] eqn:E; simpl in Hl; [lia|].
    apply (steps_within_nth _ a rest Hrest t). simpl in Hl. lia.
  - intros Hst t Ht.
    apply steps_within_nth; [|lia].
    apply Hfirst. destruct Hst as [-> | Hst]; [|exact Hst].
    unfold in_envelope. simpl. split; split; lra.
Qed.

End Limiter.

(** ** The torque-reduction gain *)

Section Gain.

Variable ext : Externals.
Variable HF : HyundaiFlags.
Variable params : CarControllerParams.
Variable CP : CarParams.
Variable VM : VehicleModel.
Variable self : Tuning.

Local Abbreviation gain := (calculate_angle_torque_reduction_gain self).
Local Abbreviation gmin := (min_torque_reduction_gain self).
Local Abbreviation gmax := (max_torque_reduction_gain self).
Local Abbreviation cycles := (angle_torque_override_cycles self).

Lemma gain_pressed st CS target :
  cycles <> 0%Z ->
  CarState.steeringPressed CS = true ->
  gain st CS target = Ok (override_ramp gmin cycles (apply_torque_last st)).
Proof.
  intros Hc Hp. unfold calculate_angle_torque_reduction_gain. rewrite Hp.
  rewrite fdiv_Ok by (apply inject_Z_nonzero; exact Hc). reflexivity.
Qed.

Lemma override_ramp_bounds (g : Q) :
  gmin <= g ->
  gmin <= override_ramp gmin cycles g
  /\ override_ramp gmin cycles g <= g
  /\ override_ramp gmin cycles g <= Qmax (g - (4 # 1000)) gmin.
Proof.
  intros Hg. unfold override_ramp.
  set (q := (g - gmin) / inject_Z cycles).
  destruct (Q.max_spec q (4 # 1000)) as [[? E1]|[? E1]];
    destruct (Q.max_spec (g - Qmax q (4 # 1000)) gmin) as [[? E2]|[? E2]];
    destruct (Q.max_spec (g - (4 # 1000)) gmin) as [[? E3]|[? E3]];
    rewrite E2, E3; rewrite E1 in *; repeat split; lra.
Qed.

(** One tick of the override branch in angle mode. *)
Lemma override_step st i :
  well_formed params self ->
  has_flag (flags CP) (CANFD_ANGLE_STEERING HF) = true ->
  gmin <= gmax ->
  CarControl.latActive (in_CC i) = true ->
  CarState.steeringPressed (in_CS i) = true ->
  exists st' act sends,
    tick ext HF params CP VM self st i = Ok (st', act, sends)
    /\ Actuators.torqueOutputCan act = apply_torque_last st'
    /\ gmin <= apply_torque_last st' <= gmax
    /\ (gmin <= apply_torque_last st <= gmax ->
        apply_torque_last st' == override_ramp gmin cycles (apply_torque_last st)
        /\ apply_torque_last st' <= apply_torque_last st
        /\ apply_torque_last st' <= Qmax (apply_torque_last st - (4 # 1000)) gmin).
Proof.
  intros Hwf Hf Hmm Hl Hp.
  destruct (update_angle_step ext HF params CP VM self st (in_sub i) (in_CC i) (in_CS i)
              Hwf Hf)
    as (a & g & st' & act & sends & _ & Hg & Hu & _ & _ & _ & Htl & Hto & _).
  rewrite Hl in Htl, Hto. simpl in Htl, Hto.
  rewrite (gain_pressed st (in_CS i) _ (proj1 (proj2 Hwf)) Hp) in Hg.
  injection Hg as <-.
  exists st', act, sends.
  split; [exact Hu|]. split; [congruence|].
  rewrite Htl.
  split; [apply clip_bounds; exact Hmm|].
  intros [H1 H2].
  destruct (override_ramp_bounds (apply_torque_last st) H1) as (B1 & B2 & B3).
  assert (E : clip (override_ramp gmin cycles (apply_torque_last st)) gmin gmax
              == override_ramp gmin cycles (apply_torque_last st))
    by (apply clip_id; split; lra).
  split; [exact E|]. split; lra.
Qed.

Lemma ticks_succ (t : nat) :
  inject_Z (Z.of_nat (S t)) == inject_Z (Z.of_nat t) + 1.
Proof.
  rewrite Nat2Z.inj_succ. unfold Z.succ. rewrite inject_Z_plus. reflexivity.
Qed.

(** A run of the override branch: every gain is the ramp of its
    predecessor, and after [t + 1] ticks the gain is at most
    max(gain0 - 0.004 (t + 1), minGain). *)
Lemma run_override :
  well_formed params self ->
  has_flag (flags CP) (CANFD_ANGLE_STEERING HF) = true ->
  gmin <= gmax ->
  forall ins st,
    Forall (fun i => CarControl.latActive (in_CC i) = true
                     /\ CarState.steeringPressed (in_CS i) = true) ins ->
    gmin <= apply_torque_last st <= gmax ->
    exists st' outs,
      run ext HF params CP VM self st ins = Ok (st', outs)
      /\ length outs = length ins
      /\ forall t, (t < length outs)%nat ->
           let prev := nth t (apply_torque_last st :: echoed_gains outs) 0 in
           let cur := nth t (echoed_gains outs) 0 in
           cur == override_ramp gmin cycles prev
           /\ cur <= prev
           /\ gmin <= cur
           /\ cur <= Qmax (apply_torque_last st
                           - (4 # 1000) * inject_Z (Z.of_nat (S t))) gmin.
Proof.
  intros Hwf Hf Hmm.
  induction ins as [|i ins IH]; intros st Hall Hg.
  - exists st, []. split; [reflexivity|]. split; [reflexivity|].
    intros t Ht. simpl in Ht. lia.
  - inversion Hall as [|? ? [Hl Hp] Hall']; subst.
    destruct (override_step st i Hwf Hf Hmm Hl Hp)
      as (st1 & act & sends & Hu & Hto & Hb & Hstep).
    destruct (Hstep Hg) as (E1 & E2 & E3).
    destruct (IH st1 Hall' Hb) as (st2 & outs & Hr & Hlen & Htr).
    exists st2, ((act, sends) :: outs).
    split; [simpl; rewrite Hu; simpl; rewrite Hr; reflexivity|].
    split; [simpl; congruence|].
    intros [|t] Ht; unfold echoed_gains; cbn [nth map fst length] in Ht |- *;
      fold (echoed_gains outs); rewrite Hto.
    + split; [exact E1|]. split; [exact E2|]. split; [apply Hb|].
      setoid_replace ((4 # 1000) * inject_Z (Z.of_nat 1)) with (4 # 1000)
        by reflexivity.
      exact E3.
    + assert (Ht' : (t < length outs)%nat) by lia.
      destruct (Htr t Ht') as (T1 & T2 & T3 & T4).
      cbn [nth] in T1, T2, T3, T4.
      split; [exact T1|]. split; [exact T2|]. split; [exact T3|].
      pose proof (ticks_succ (S t)) as Es.
      assert (Hn : 0 <= inject_Z (Z.of_nat (S t)))
        by (change 0 with (inject_Z 0); rewrite <- Zle_Qle; lia).
      set (n := inject_Z (Z.of_nat (S t))) in *.
      set (n' := inject_Z (Z.of_nat (S (S t)))) in *.
      set (g0 := apply_torque_last st) in *.
      set (g1 := apply_torque_last st1) in *.
      set (c := nth t (echoed_gains outs) 0) in *.
      clearbody n n' g0 g1 c.
      destruct (Q.max_spec (g1 - (4 # 1000) * n) gmin) as [[? M1]|[? M1]];
        rewrite M1 in T4;
        destruct (Q.max_spec (g0 - (4 # 1000)) gmin) as [[? M2]|[? M2]];
        rewrite M2 in E3;
        destruct (Q.max_spec (g0 - (4 # 1000) * n') gmin) as [[? M3]|[? M3]];
        rewrite M3; lra.
Qed.

Lemma override_ticks_enough (g0 : Q) (t : nat) :
  (override_ticks g0 gmin <= t)%nat ->
  g0 - (4 # 1000) * inject_Z (Z.of_nat t) <= gmin.
Proof.
  unfold override_ticks. intros H.
  set (x := (g0 - gmin) / (4 # 1000)) in *.
  pose proof (Qle_ceiling x) as Hc.
  assert (Hz : (Qceiling x <= Z.of_nat t)%Z) by lia.
  rewrite Zle_Qle in Hz.
  assert (Hx : x <= inject_Z (Z.of_nat t)) by lra.
  assert (Ex : g0 - gmin == x * (4 # 1000)).
  { unfold x. field. }
  lra.
Qed.

(** C6.  In the override branch (angle mode, a well-formed configuration
    with minGain <= maxGain, lateral control active and the wheel pressed on
    every tick, the gain before the first tick in [minGain, maxGain]): the
    run returns; the gain sequence is non-increasing; each gain is the
    previous one decreased by max((lastGain - minGain) / overrideCycles,
    0.004) and floored at minGain; and from tick number
    ceil((gain0 - minGain) / 0.004) on the gain equals minGain -- in
    particular for gain0 = maxGain, minGain = 0.1 and overrideCycles = 25. *)
Theorem override_ramp_down st ins :
  well_formed params self ->
  has_flag (flags CP) (CANFD_ANGLE_STEERING HF) = true ->
  gmin <= gmax ->
  Forall (fun i => CarControl.latActive (in_CC i) = true
                   /\ CarState.steeringPressed (in_CS i) = true) ins ->
  gmin <= apply_torque_last st <= gmax ->
  exists st' outs,
    run ext HF params CP VM self st ins = Ok (st', outs)
    /\ length outs = length ins
    /\ (forall t, (t < length outs)%nat ->
        nth t (echoed_gains outs) 0 <= nth t (apply_torque_last st :: echoed_gains outs) 0
        /\ nth t (echoed_gains outs) 0
           == Qmax (nth t (apply_torque_last st :: echoed_gains outs) 0
                    - Qmax ((nth t (apply_torque_last st :: echoed_gains outs) 0 - gmin)
                            / inject_Z cycles) (4 # 1000))
                   gmin)
    /\ (forall t, (t < length outs)%nat ->
        (override_ticks (apply_torque_last st) gmin <= S t)%nat ->
        nth t (echoed_gains outs) 0 == gmin).
Proof.
  intros Hwf Hf Hmm Hall Hg.
  destruct (run_override Hwf Hf Hmm ins st Hall Hg) as (st' & outs & Hr & Hlen & Htr).
  exists st', outs. split; [exact Hr|]. split; [exact Hlen|]. split.
  - intros t Ht. destruct (Htr t Ht) as (T1 & T2 & _).
    split; [exact T2 | exact T1].
  - intros t Ht HN. destruct (Htr t Ht) as (_ & _ & T3 & T4).
    cbv zeta in T3, T4.
    pose proof (override_ticks_enough (apply_torque_last st) (S t) HN) as Hle.
    rewrite Q.max_r in T4 by exact Hle.
    apply Qle_antisym; assumption.
Qed.

(** C5 (amended).  In angle-steering mode (a well-formed configuration
    with minGain <= maxGain) every tick returns; the gain it outputs is
    persisted as the last commanded torque and echoed as
    [torqueOutputCan], and the echoed [torque] field is that gain divided
    by [STEER_MAX].  When lateral control is active the gain lies in
    [minGain, maxGain], whatever the driver-override state; when lateral
    control is inactive the gain is forced to 0. *)
Theorem gain_output_range st sub CC CS :
  well_formed params self ->
  has_flag (flags CP) (CANFD_ANGLE_STEERING HF) = true ->
  gmin <= gmax ->
  exists st' act sends,
    update ext HF params CP VM self st sub CC CS = Ok (st', act, sends)
    /\ apply_torque_last st' = Actuators.torqueOutputCan act
    /\ Actuators.torque act = Actuators.torqueOutputCan act / STEER_MAX params
    /\ (CarControl.latActive CC = true ->
        gmin <= Actuators.torqueOutputCan act <= gmax)
    /\ (CarControl.latActive CC = false ->
        Actuators.torqueOutputCan act = 0).
Proof.
  intros Hwf Hf Hmm.
  destruct (update_angle_step ext HF params CP VM self st sub CC CS Hwf Hf)
    as (a & g & st' & act & sends & _ & _ & Hu & _ & _ & _ & Htl & Hto & Hd).
  exists st', act, sends. split; [exact Hu|].
  split; [congruence|].
  split.
  - rewrite fdiv_Ok in Hd by apply Hwf. injection Hd as Hd.
    rewrite <- Hd, Hto. reflexivity.
  - split; intros Hl; rewrite Hl in Hto; simpl in Hto; rewrite Hto.
    + apply clip_bounds. exact Hmm.
    + reflexivity.
Qed.

End Gain.

(** ** Runs and the scheduler *)

Section Scheduler.

Variable ext : Externals.
Variable HF : HyundaiFlags.
Variable params : CarControllerParams.
Variable CP : CarParams.
Variable VM : VehicleModel.
Variable self : Tuning.

Local Abbreviation tick' := (tick ext HF params CP VM self).
Local Abbreviation run' := (run ext HF params CP VM self).

(** A measurement of each tick's output that is a function of the frame
    number, along a run that keeps an invariant. *)
Lemma run_measure (Pin : Inputs -> Prop) (Inv : State -> Prop)
      (A : Type) (m : Actuators.t * list msg -> A) (g : Z -> A) :
  (forall st i, Pin i -> Inv st ->
     exists st' act sends,
       tick' st i = Ok (st', act, sends)
       /\ Inv st' /\ frame st' = (frame st + 1)%Z /\ m (act, sends) = g (frame st)) ->
  forall ins st, Forall Pin ins -> Inv st ->
    exists st' outs,
      run' st ins = Ok (st', outs)
      /\ Inv st'
      /\ frame st' = (frame st + Z.of_nat (length ins))%Z
      /\ map m outs = map (fun t => g (frame st + Z.of_nat t)%Z) (seq 0 (length ins)).
Proof.
  intros Hstep. induction ins as [|i ins IH]; intros st Hall Hinv.
  - exists st, []. simpl. repeat split; [exact Hinv | lia].
  - inversion Hall as [|? ? Hi Hall']; subst.
    destruct (Hstep st i Hi Hinv) as (st1 & act & sends & Hu & Hinv1 & Hf1 & Hm).
    destruct (IH st1 Hall' Hinv1) as (st2 & outs & Hr & Hinv2 & Hf2 & Hmap).
    exists st2, ((act, sends) :: outs).
    split; [simpl; rewrite Hu; simpl; rewrite Hr; reflexivity|].
    split; [exact Hinv2|].
    split; [rewrite Hf2, Hf1; simpl length; lia|].
    simpl. rewrite Hm, Hmap, Z.add_0_r. f_equal.
    rewrite <- seq_shift, map_map.
    apply map_ext. intros t. f_equal. rewrite Hf1. lia.
Qed.

Lemma map_length_eq {A B : Type} (f : A -> B) (l : list A) (l' : list B) :
  map f l = l' -> length l = length l'.
Proof. intros <-. symmetry. apply length_map. Qed.

Lemma tick_total_torque st i :
  has_flag (flags CP) (CANFD_ANGLE_STEERING HF) = false ->
  ~ STEER_MAX params == 0 ->
  exists st' act sends, tick' st i = Ok (st', act, sends).
Proof.
  intros Hf Hz. unfold tick.
  assert (Hs : exists r, steering_command ext HF params CP VM self st (in_CC i) (in_CS i)
                         = Ok r).
  { unfold steering_command. rewrite Hf. simpl.
    destruct (common_fault_avoidance _ _ _ _ _ _). eexists; reflexivity. }
  destruct Hs as [[[[c a] tq] req] Hs].
  apply (update_total ext HF params CP VM self st (in_sub i) (in_CC i) (in_CS i)
           c a tq req Hz Hs).
Qed.

(** Under a well-formed configuration every tick returns. *)
Lemma tick_total st i :
  well_formed params self ->
  exists st' act sends, tick' st i = Ok (st', act, sends).
Proof.
  intros Hwf.
  destruct (has_flag (flags CP) (CANFD_ANGLE_STEERING HF)) eqn:Hf.
  - destruct (update_angle_total ext HF params CP VM self st (in_sub i) (in_CC i)
                (in_CS i) Hwf Hf) as (a & g & st' & act & sends & _ & _ & Hu).
    exists st', act, sends. exact Hu.
  - apply tick_total_torque; [exact Hf | apply Hwf].
Qed.

(** *** Torque mode leaves the commanded angle alone *)

Lemma torque_mode_step st i st' act sends :
  has_flag (flags CP) (CANFD_ANGLE_STEERING HF) = false ->
  tick' st i = Ok (st', act, sends) ->
  apply_angle_last st' = apply_angle_last st
  /\ Actuators.steeringAngleDeg act = apply_angle_last st
  /\ frame st' = (frame st + 1)%Z.
Proof.
  intros Hf Hu. unfold tick in Hu. apply update_Ok_inv in Hu.
  destruct Hu as (c & a & tq & req & Hsc & Hfr & Hl & He & _).
  unfold steering_command in Hsc. rewrite Hf in Hsc. simpl in Hsc.
  destruct (common_fault_avoidance _ _ _ _ _ _) in Hsc.
  injection Hsc as _ <- _ _. auto.
Qed.

(** C10.  In torque-steering mode (angle-steering flag clear, non-zero
    [STEER_MAX]) a tick never changes the persisted last commanded angle
    and echoes it as [steeringAngleDeg]; so along any run from the initial
    state every tick returns and echoes the construction-time value 0,
    whatever the vehicle's steering angle is. *)
Theorem torque_mode_echoes_initial_angle :
  has_flag (flags CP) (CANFD_ANGLE_STEERING HF) = false ->
  ~ STEER_MAX params == 0 ->
  (forall st i st' act sends,
      tick' st i = Ok (st', act, sends) ->
      apply_angle_last st' = apply_angle_last st
      /\ Actuators.steeringAngleDeg act = apply_angle_last st)
  /\ (forall ins,
        exists st' outs,
          run' init_state ins = Ok (st', outs)
          /\ length outs = length ins
          /\ apply_angle_last st' = 0
          /\ Forall (fun a => a = 0) (echoed_angles outs)).
Proof.
  intros Hf Hz. split.
  - intros st i st' act sends Hu.
    destruct (torque_mode_step st i st' act sends Hf Hu) as (H1 & H2 & _). auto.
  - intros ins.
    destruct (run_measure (fun _ => True) (fun st => apply_angle_last st = 0) Q
                (fun o => Actuators.steeringAngleDeg (fst o)) (fun _ => 0))
      with (ins := ins) (st := init_state)
      as (st' & outs & Hr & Hinv & _ & Hmap).
    + intros st i _ Hinv.
      destruct (tick_total_torque st i Hf Hz) as (st' & act & sends & Hu).
      destruct (torque_mode_step st i st' act sends Hf Hu) as (H1 & H2 & H3).
      exists st', act, sends. simpl. repeat split; congruence.
    + apply Forall_forall. auto.
    + reflexivity.
    + exists st', outs. split; [exact Hr|].
      split; [rewrite (map_length_eq _ _ _ Hmap), length_map, length_seq; reflexivity|].
      split; [exact Hinv|].
      unfold echoed_angles. rewrite Hmap.
      apply Forall_forall. intros a Ha. apply in_map_iff in Ha.
      destruct Ha as (t & <- & _). reflexivity.
Qed.

(** *** Elapsed-time tests as tick counts *)

Lemma elapsed_gt_tenth (d : Z) :
  Qlt_bool (1 # 10) (inject_Z d * DT_CTRL) = (10 <? d)%Z.
Proof.
  unfold Qlt_bool, Qle_bool, DT_CTRL. simpl.
  destruct (Z.leb_spec (d * 1 * 10) 100); destruct (Z.ltb_spec 10 d);
    simpl; try reflexivity; lia.
Qed.

Lemma elapsed_ge_latch (d : Z) :
  Qle_bool (15 # 100) (inject_Z d * DT_CTRL) = (15 <=? d)%Z.
Proof.
  unfold Qle_bool, DT_CTRL. simpl.
  destruct (Z.leb_spec 1500 (d * 1 * 100)); destruct (Z.leb_spec 15 d);
    try reflexivity; lia.
Qed.

Lemma count_msgs_app (p : msg -> bool) (a b : list msg) :
  count_msgs p (a ++ b) = (count_msgs p a + count_msgs p b)%nat.
Proof. unfold count_msgs. rewrite filter_app, length_app. reflexivity. Qed.

(** *** The legacy bus *)

Lemma legacy_tick_inv st i st' act sends :
  has_flag (flags CP) (CANFD HF) = false ->
  tick' st i = Ok (st', act, sends) ->
  exists c a tq req fault ss acc stp,
    let r := create_can_msgs HF CP (mid_state st c a tq) (in_sub i) req tq fault ss acc
               stp (CarControl.hudControl (in_CC i))
               (CarControl.actuators (in_CC i)) (in_CS i) (in_CC i) in
    frame st' = (frame st + 1)%Z
    /\ last_button_frame st' = last_button_frame (fst r)
    /\ sends = tester_present ext HF CP st (in_sub i) ++ snd r.
Proof.
  intros Hb Hu. unfold tick in Hu. apply update_Ok_inv in Hu.
  destruct Hu as (c & a & tq & req & _ & Hfr & _ & _ & _ & _ & _
                  & fault & ss & acc & stp & Hlb & Hs).
  unfold bus_msgs in Hlb, Hs. rewrite Hb in Hlb, Hs.
  exists c, a, (if negb (CarControl.latActive (in_CC i)) then 0 else tq), req,
         fault, ss, acc, stp.
  cbv zeta. auto.
Qed.

(** The legacy messages of a tick when longitudinal control is
    self-managed: how many of each periodic kind. *)
Lemma create_can_msgs_long st sub req tq fault ss acc stp hud act CS CC :
  openpilotLongitudinalControl CP = true ->
  let sends := snd (create_can_msgs HF CP st sub req tq fault ss acc stp hud act CS CC) in
  count_msgs is_tester_present sends = 0%nat
  /\ count_msgs is_acc_commands sends = (if (frame st mod 2 =? 0)%Z then 1 else 0)%nat
  /\ count_msgs is_lfahda_mfc sends
     = (if (frame st mod 5 =? 0)%Z && has_flag (flags CP) (SEND_LFA HF) then 1 else 0)%nat
  /\ count_msgs is_acc_opt sends = (if (frame st mod 20 =? 0)%Z then 1 else 0)%nat
  /\ count_msgs is_frt_radar_opt sends
     = (if (frame st mod 50 =? 0)%Z && negb (ESCC_enabled sub) then 1 else 0)%nat.
Proof.
  intros Hlong. unfold create_can_msgs.
  destruct (process_hud_alert _ _ _) as [[[w s] l] r].
  rewrite Hlong. simpl.
  destruct (frame st mod 2 =? 0)%Z; destruct (frame st mod 5 =? 0)%Z;
    destruct (has_flag (flags CP) (SEND_LFA HF));
    destruct (frame st mod 20 =? 0)%Z; destruct (frame st mod 50 =? 0)%Z;
    destruct (ESCC_enabled sub); simpl; repeat split; reflexivity.
Qed.

Lemma tester_present_counts st sub :
  let sends := tester_present ext HF CP st sub in
  count_msgs is_tester_present sends
  = (if (frame st mod 100 =? 0)%Z
        && negb (has_flag (flags CP) (CANFD_CAMERA_SCC HF)
                 || ESCC_enabled sub || interceptor_available sub)
        && openpilotLongitudinalControl CP
     then (if has_flag (flags CP) (ENABLE_BLINKERS HF) then 2 else 1) else 0)%nat
  /\ count_msgs is_acc_commands sends = 0%nat
  /\ count_msgs is_lfahda_mfc sends = 0%nat
  /\ count_msgs is_acc_opt sends = 0%nat
  /\ count_msgs is_frt_radar_opt sends = 0%nat
  /\ count_msgs is_resume sends = 0%nat
  /\ count_msgs is_button_msg sends = 0%nat.
Proof.
  unfold tester_present.
  destruct (_ && _ && _); [|repeat split; reflexivity].
  destruct (has_flag (flags CP) (CANFD_LKA_STEERING HF));
    destruct (has_flag (flags CP) (ENABLE_BLINKERS HF)); repeat split; reflexivity.
Qed.

Lemma legacy_long_tick (escc : bool) st i :
  has_flag (flags CP) (CANFD HF) = false ->
  openpilotLongitudinalControl CP = true ->
  has_flag (flags CP) (CANFD_CAMERA_SCC HF) = false ->
  has_flag (flags CP) (SEND_LFA HF) = true ->
  well_formed params self ->
  ESCC_enabled (in_sub i) = escc /\ interceptor_available (in_sub i) = false ->
  exists st' act sends,
    tick' st i = Ok (st', act, sends)
    /\ True
    /\ frame st' = (frame st + 1)%Z
    /\ periodic_counts (snd (act, sends))
       = periodic_expected (has_flag (flags CP) (ENABLE_BLINKERS HF)) escc (frame st).
Proof.
  intros Hb Hlong Hscc Hlfa Hwf [He Hi].
  destruct (tick_total st i Hwf) as (st' & act & sends & Hu).
  exists st', act, sends. split; [exact Hu|]. split; [exact I|].
  destruct (legacy_tick_inv st i st' act sends Hb Hu)
    as (c & a & tq & req & fault & ss & acc & stp & Hfr & _ & Hs).
  split; [exact Hfr|].
  pose proof (create_can_msgs_long (mid_state st c a tq) (in_sub i) req tq fault ss acc stp
                (CarControl.hudControl (in_CC i)) (CarControl.actuators (in_CC i))
                (in_CS i) (in_CC i) Hlong) as (C1 & C2 & C3 & C4 & C5).
  pose proof (tester_present_counts st (in_sub i)) as (T1 & T2 & T3 & T4 & T5 & _).
  simpl snd. unfold periodic_counts, periodic_expected. rewrite Hs.
  rewrite !count_msgs_app, C1, C2, C3, C4, C5, T1, T2, T3, T4, T5.
  rewrite Hscc, Hlfa, Hlong, He, Hi. simpl frame.
  rewrite !Bool.andb_true_r, !Nat.add_0_r, Bool.orb_false_r. simpl. reflexivity.
Qed.

Lemma counts_of_periodic (outs : list (Actuators.t * list msg)) :
  let pc := map (fun o => periodic_counts (snd o)) outs in
  counts is_tester_present outs = map (fun x => fst (fst (fst (fst x)))) pc
  /\ counts is_acc_commands outs = map (fun x => snd (fst (fst (fst x)))) pc
  /\ counts is_lfahda_mfc outs = map (fun x => snd (fst (fst x))) pc
  /\ counts is_acc_opt outs = map (fun x => snd (fst x)) pc
  /\ counts is_frt_radar_opt outs = map (fun x => snd x) pc.
Proof.
  cbv zeta. unfold counts. rewrite !map_map. repeat split; reflexivity.
Qed.

(** C3.  On the legacy bus with longitudinal control self-managed (camera
    SCC flag clear, send-LFA flag set, a well-formed configuration), a run
    of 500 ticks from the initial state returns, and when neither the
    substitute radar ECU (ESCC) nor the ADAS interceptor is active on any
    tick: tester-present batches are sent on ticks 0, 100, 200, 300, 400
    and no other; acceleration command batches on the 250 even ticks; one
    LFA message on each of the 100 ticks divisible by 5; ACC-options
    batches on the 25 ticks divisible by 20; one radar-option message on
    each of the 10 ticks divisible by 50.  With ESCC enabled on every tick
    no radar-option message is sent. *)
Theorem cadence_500_ticks ins :
  has_flag (flags CP) (CANFD HF) = false ->
  openpilotLongitudinalControl CP = true ->
  has_flag (flags CP) (CANFD_CAMERA_SCC HF) = false ->
  has_flag (flags CP) (SEND_LFA HF) = true ->
  well_formed params self ->
  length ins = 500%nat ->
  Forall (fun i => interceptor_available (in_sub i) = false) ins ->
  (Forall (fun i => ESCC_enabled (in_sub i) = false) ins ->
   exists st' outs,
     run' init_state ins = Ok (st', outs)
     /\ length outs = 500%nat
     /\ ticks_with is_tester_present outs = [0; 100; 200; 300; 400]%nat
     /\ ticks_with is_acc_commands outs = multiples 2 500
     /\ total is_acc_commands outs = 250%nat
     /\ ticks_with is_lfahda_mfc outs = multiples 5 500
     /\ total is_lfahda_mfc outs = 100%nat
     /\ ticks_with is_acc_opt outs = multiples 20 500
     /\ total is_acc_opt outs = 25%nat
     /\ ticks_with is_frt_radar_opt outs = multiples 50 500
     /\ total is_frt_radar_opt outs = 10%nat)
  /\ (Forall (fun i => ESCC_enabled (in_sub i) = true) ins ->
      exists st' outs,
        run' init_state ins = Ok (st', outs)
        /\ length outs = 500%nat
        /\ total is_frt_radar_opt outs = 0%nat).
Proof.
  intros Hb Hlong Hscc Hlfa Hwf Hlen Hint.
  assert (Hrun : forall escc,
             Forall (fun i => ESCC_enabled (in_sub i) = escc) ins ->
             exists st' outs,
               run' init_state ins = Ok (st', outs)
               /\ length outs = 500%nat
               /\ map (fun o => periodic_counts (snd o)) outs
                  = map (fun t => periodic_expected
                                    (has_flag (flags CP) (ENABLE_BLINKERS HF)) escc
                                    (Z.of_nat t)) (seq 0 500)).
  { intros escc Hescc.
    destruct (run_measure
                (fun i => ESCC_enabled (in_sub i) = escc
                          /\ interceptor_available (in_sub i) = false)
                (fun _ => True) _
                (fun o => periodic_counts (snd o))
                (periodic_expected (has_flag (flags CP) (ENABLE_BLINKERS HF)) escc))
      with (ins := ins) (st := init_state)
      as (st' & outs & Hr & _ & _ & Hmap).
    - intros st i Hi _. apply legacy_long_tick; assumption.
    - rewrite Forall_forall in *. intros i Hin. split; auto.
    - exact I.
    - exists st', outs. split; [exact Hr|].
      rewrite Hlen in Hmap. split.
      + rewrite (map_length_eq _ _ _ Hmap), length_map, length_seq. reflexivity.
      + exact Hmap. }
  split; intros Hescc.
  - destruct (Hrun false Hescc) as (st' & outs & Hr & Hl & Hmap).
    exists st', outs. split; [exact Hr|]. split; [exact Hl|].
    destruct (counts_of_periodic outs) as (K1 & K2 & K3 & K4 & K5).
    unfold ticks_with, total.
    rewrite K1, K2, K3, K4, K5, Hmap, Hl.
    destruct (has_flag (flags CP) (ENABLE_BLINKERS HF));
      repeat split; vm_compute; reflexivity.
  - destruct (Hrun true Hescc) as (st' & outs & Hr & Hl & Hmap).
    exists st', outs. split; [exact Hr|]. split; [exact Hl|].
    destruct (counts_of_periodic outs) as (_ & _ & _ & _ & K5).
    unfold total. rewrite K5, Hmap.
    vm_compute. reflexivity.
Qed.

(** *** Resume requests on the legacy bus *)

Lemma create_can_msgs_resume st sub req tq fault ss acc stp hud act CS CC :
  openpilotLongitudinalControl CP = false ->
  CarControl.cancel CC = false ->
  CarControl.resume CC = true ->
  let r := create_can_msgs HF CP st sub req tq fault ss acc stp hud act CS CC in
  let d := (frame st - last_button_frame st)%Z in
  count_msgs is_resume (snd r) = (if (10 <? d)%Z then 25 else 0)%nat
  /\ last_button_frame (fst r)
     = (if (15 <=? d)%Z then frame st else last_button_frame st).
Proof.
  intros Hlong Hc Hr. unfold create_can_msgs.
  destruct (process_hud_alert _ _ _) as [[[w s] l] r].
  rewrite Hlong, Hc, Hr. simpl negb. cbv iota.
  rewrite elapsed_gt_tenth, elapsed_ge_latch.
  destruct (Z.ltb_spec 10 (frame st - last_button_frame st));
    destruct (Z.leb_spec 15 (frame st - last_button_frame st));
    try lia; cbv iota beta; cbn [frame set_last_button_frame];
    rewrite !Bool.andb_false_r; cbn [andb];
    destruct ((frame st mod 5 =? 0)%Z && has_flag (flags CP) (SEND_LFA HF));
    split; reflexivity.
Qed.

Lemma resume_latch_step (f : Z) :
  (0 <= f)%Z ->
  (if (15 <=? f - resume_latch f)%Z then f else resume_latch f) = resume_latch (f + 1).
Proof.
  intros Hf. unfold resume_latch.
  destruct (Z.leb_spec f 0); destruct (Z.leb_spec (f + 1) 0); try lia.
  - assert (f = 0%Z) by lia. subst f. reflexivity.
  - replace (f + 1 - 1)%Z with f by lia.
    destruct (Z.leb_spec 15 (f - 15 * ((f - 1) / 15))); Z.div_mod_to_equations; lia.
Qed.

Lemma resume_tick st i :
  has_flag (flags CP) (CANFD HF) = false ->
  openpilotLongitudinalControl CP = false ->
  well_formed params self ->
  CarControl.resume (in_CC i) = true /\ CarControl.cancel (in_CC i) = false ->
  (0 <= frame st)%Z /\ last_button_frame st = resume_latch (frame st) ->
  exists st' act sends,
    tick' st i = Ok (st', act, sends)
    /\ ((0 <= frame st')%Z /\ last_button_frame st' = resume_latch (frame st'))
    /\ frame st' = (frame st + 1)%Z
    /\ count_msgs is_resume (snd (act, sends)) = resume_batch (frame st).
Proof.
  intros Hb Hlong Hwf [Hr Hc] [Hf Hl].
  destruct (tick_total st i Hwf) as (st' & act & sends & Hu).
  exists st', act, sends. split; [exact Hu|].
  destruct (legacy_tick_inv st i st' act sends Hb Hu)
    as (c & a & tq & req & fault & ss & acc & stp & Hfr & Hlb & Hs).
  pose proof (create_can_msgs_resume (mid_state st c a tq) (in_sub i) req tq fault ss acc
                stp (CarControl.hudControl (in_CC i)) (CarControl.actuators (in_CC i))
                (in_CS i) (in_CC i) Hlong Hc Hr) as (C1 & C2).
  simpl frame in C1, C2. simpl last_button_frame in C1, C2.
  pose proof (tester_present_counts st (in_sub i)) as (_ & _ & _ & _ & _ & T6 & _).
  split; [|split; [exact Hfr|]].
  - split; [lia|].
    rewrite Hlb, Hfr. cbv zeta. rewrite C2, Hl. apply resume_latch_step. exact Hf.
  - simpl snd. rewrite Hs, count_msgs_app, T6. cbv zeta in C1. rewrite C1, Hl.
    reflexivity.
Qed.

(** C4 (amended).  On the legacy bus with longitudinal control not
    self-managed, resume requested on every tick from the initial state and
    no cancel request: the run returns; the tick of frame [t] sends a batch
    of 25 resume messages exactly when more than 10 ticks have passed since
    the latch, and none otherwise; the latch advances only on a tick where
    15 ticks have passed.  So no batch is sent on ticks 0 to 10, a batch is
    sent on each of ticks 11 to 15, the latch first advances on tick 15,
    and no batch is sent on ticks 16 to 25. *)
Theorem resume_throttle ins :
  has_flag (flags CP) (CANFD HF) = false ->
  openpilotLongitudinalControl CP = false ->
  well_formed params self ->
  Forall (fun i => CarControl.resume (in_CC i) = true
                   /\ CarControl.cancel (in_CC i) = false) ins ->
  exists st' outs,
    run' init_state ins = Ok (st', outs)
    /\ length outs = length ins
    /\ counts is_resume outs
       = map (fun t => resume_batch (Z.of_nat t)) (seq 0 (length ins))
    /\ last_button_frame st' = resume_latch (Z.of_nat (length ins))
    /\ map (fun t => resume_batch (Z.of_nat t)) (seq 0 26)
       = (repeat 0 11 ++ repeat 25 5 ++ repeat 0 10)%nat
    /\ map (fun t => resume_latch (Z.of_nat t)) (seq 0 18)
       = (repeat 0 16 ++ [15; 15])%Z.
Proof.
  intros Hb Hlong Hwf Hall.
  destruct (run_measure
              (fun i => CarControl.resume (in_CC i) = true
                        /\ CarControl.cancel (in_CC i) = false)
              (fun st => (0 <= frame st)%Z
                         /\ last_button_frame st = resume_latch (frame st))
              _ (fun o => count_msgs is_resume (snd o)) resume_batch)
    with (ins := ins) (st := init_state)
    as (st' & outs & Hr & [_ Hinv] & Hfr & Hmap).
  - intros st i Hi Hinv. apply resume_tick; assumption.
  - exact Hall.
  - split; [simpl; lia | reflexivity].
  - exists st', outs. split; [exact Hr|].
    split; [rewrite (map_length_eq _ _ _ Hmap), length_map, length_seq; reflexivity|].
    split; [exact Hmap|].
    split; [rewrite Hinv, Hfr; reflexivity|].
    split; vm_compute; reflexivity.
Qed.

(** *** Resume requests on the CAN FD bus with alternative buttons *)

Lemma create_canfd_msgs_alt_resume st sub req tq ss acc stp hud CS CC :
  openpilotLongitudinalControl CP = false ->
  has_flag (flags CP) (CANFD_ALT_BUTTONS HF) = true ->
  CarControl.cancel CC = false ->
  let r := create_canfd_msgs HF CP st sub req tq ss acc stp hud CS CC in
  fst r = st /\ count_msgs is_button_msg (snd r) = 0%nat.
Proof.
  intros Hlong Halt Hc. unfold create_canfd_msgs.
  rewrite Hlong, Halt, Hc. rewrite !Bool.andb_false_r, !Bool.orb_false_r.
  destruct (Qlt_bool _ _); destruct (CarControl.resume CC);
    destruct (interceptor_available sub);
    destruct (has_flag (flags CP) (CANFD_LKA_STEERING HF));
    destruct (frame st mod 5 =? 0)%Z;
    destruct (has_flag (flags CP) (ENABLE_BLINKERS HF));
    simpl; split; reflexivity.
Qed.

(** C9.  On the CAN FD bus with longitudinal control not self-managed, the
    alt-button flag set and no cancel request, a tick with a resume request
    on which more than 0.25 s has passed since the last button frame
    returns, sends no button message, and leaves the last-button-frame
    latch where it was (the scheduler returns the state untouched). *)
Theorem canfd_alt_buttons_resume_is_silent st i :
  has_flag (flags CP) (CANFD HF) = true ->
  openpilotLongitudinalControl CP = false ->
  has_flag (flags CP) (CANFD_ALT_BUTTONS HF) = true ->
  well_formed params self ->
  CarControl.cancel (in_CC i) = false ->
  CarControl.resume (in_CC i) = true ->
  25 # 100 < inject_Z (frame st - last_button_frame st) * DT_CTRL ->
  (forall req tq ss acc stp hud,
      let r := create_canfd_msgs HF CP st (in_sub i) req tq ss acc stp hud
                 (in_CS i) (in_CC i) in
      fst r = st /\ count_msgs is_button_msg (snd r) = 0%nat)
  /\ exists st' act sends,
       tick' st i = Ok (st', act, sends)
       /\ count_msgs is_button_msg sends = 0%nat
       /\ last_button_frame st' = last_button_frame st.
Proof.
  intros Hb Hlong Halt Hwf Hc Hr Hel. split.
  - intros. apply create_canfd_msgs_alt_resume; assumption.
  - destruct (tick_total st i Hwf) as (st' & act & sends & Hu).
    exists st', act, sends. split; [exact Hu|].
    unfold tick in Hu. apply update_Ok_inv in Hu.
    destruct Hu as (c & a & tq & req & _ & _ & _ & _ & _ & _ & _
                    & fault & ss & acc & stp & Hlb & Hs).
    unfold bus_msgs in Hlb, Hs. rewrite Hb in Hlb, Hs.
    match type of Hlb with
    | context [create_canfd_msgs _ _ ?m ?sub ?rq ?t ?s1 ?a1 ?s2 ?h ?cs ?cc] =>
        pose proof (create_canfd_msgs_alt_resume m sub rq t s1 a1 s2 h cs cc
                      Hlong Halt Hc) as (F1 & F2)
    end.
    pose proof (tester_present_counts st (in_sub i)) as (_ & _ & _ & _ & _ & _ & T7).
    split.
    + rewrite Hs, count_msgs_app, T7. exact F2.
    + rewrite Hlb, F1. reflexivity.
Qed.

End Scheduler.

(** ** Evaluation on the sample configuration *)

Ltac Qcompare := vm_compute; first [reflexivity | intros E; discriminate E].

Lemma sample_well_formed : well_formed Sample.params Sample.self.
Proof.
  unfold well_formed, tables_ok. simpl.
  split; [intros E; discriminate E|].
  split; [intros E; discriminate E|].
  split; [intros E; discriminate E|reflexivity].
Defined.

Lemma Forall_repeat {A : Type} (P : A -> Prop) (x : A) (n : nat) :
  P x -> Forall P (repeat x n).
Proof.
  intros H. induction n as [|n IH]; simpl; constructor; assumption.
Defined.

Lemma angle_within_static_max_witness :
  (forall apply_angle, exists a,
      apply_hyundai_steer_angle_limits Sample.ext Sample.params Sample.VM Sample.self
        init_state (in_CS Sample.i_active) (in_CC Sample.i_active) apply_angle = Ok a
      /\ - STEER_ANGLE_MAX Sample.params <= a <= STEER_ANGLE_MAX Sample.params)
  /\ exists a st' act sends,
       apply_hyundai_steer_angle_limits Sample.ext Sample.params Sample.VM Sample.self
         init_state (in_CS Sample.i_active) (in_CC Sample.i_active)
         (Actuators.steeringAngleDeg (CarControl.actuators (in_CC Sample.i_active))) = Ok a
       /\ update Sample.ext Sample.HF Sample.params Sample.CP_angle Sample.VM Sample.self
            init_state (in_sub Sample.i_active) (in_CC Sample.i_active)
            (in_CS Sample.i_active) = Ok (st', act, sends)
       /\ Actuators.steeringAngleDeg act = a
       /\ apply_angle_last st' = a
       /\ - STEER_ANGLE_MAX Sample.params <= a <= STEER_ANGLE_MAX Sample.params.
Proof.
  apply (angle_within_static_max Sample.ext Sample.HF Sample.params Sample.CP_angle
           Sample.VM Sample.self init_state (in_sub Sample.i_active)
           (in_CC Sample.i_active) (in_CS Sample.i_active)).
  - Qcompare.
  - exact sample_well_formed.
  - reflexivity.
Defined.

Lemma rate_limit_law_witness :
  exists st' outs,
    run Sample.ext Sample.HF Sample.params Sample.CP_angle Sample.VM Sample.self
      init_state (repeat Sample.i_active 3) = Ok (st', outs)
    /\ length outs = length (repeat Sample.i_active 3)
    /\ (forall t, (S t < length outs)%nat ->
        Qabs (nth (S t) (echoed_angles outs) 0 - nth t (echoed_angles outs) 0)
        <= Qmin (kinematicRateCap Sample.ext Sample.VM 20) MAX_ANGLE_RATE)
    /\ ((init_state = init_state
         \/ in_envelope Sample.ext Sample.params Sample.VM 20 (apply_angle_last init_state)) ->
        forall t, (t < length outs)%nat ->
        Qabs (nth t (echoed_angles outs) 0
              - nth t (apply_angle_last init_state :: echoed_angles outs) 0)
        <= Qmin (kinematicRateCap Sample.ext Sample.VM 20) MAX_ANGLE_RATE).
Proof.
  apply (rate_limit_law Sample.ext Sample.HF Sample.params Sample.CP_angle
           Sample.VM Sample.self 20 init_state (repeat Sample.i_active 3)).
  - exact sample_well_formed.
  - reflexivity.
  - Qcompare.
  - Qcompare.
  - Qcompare.
  - apply Forall_repeat. split; reflexivity.
Defined.

Lemma cadence_500_ticks_witness :
  exists st' outs,
    run Sample.ext Sample.HF Sample.params (Sample.CP_legacy true) Sample.VM Sample.self
      init_state (repeat Sample.i_active 500) = Ok (st', outs)
    /\ length outs = 500%nat
    /\ ticks_with is_tester_present outs = [0; 100; 200; 300; 400]%nat
    /\ ticks_with is_acc_commands outs = multiples 2 500
    /\ total is_acc_commands outs = 250%nat
    /\ ticks_with is_lfahda_mfc outs = multiples 5 500
    /\ total is_lfahda_mfc outs = 100%nat
    /\ ticks_with is_acc_opt outs = multiples 20 500
    /\ total is_acc_opt outs = 25%nat
    /\ ticks_with is_frt_radar_opt outs = multiples 50 500
    /\ total is_frt_radar_opt outs = 10%nat.
Proof.
  apply (cadence_500_ticks Sample.ext Sample.HF Sample.params (Sample.CP_legacy true)
           Sample.VM Sample.self (repeat Sample.i_active 500)).
  - reflexivity.
  - reflexivity.
  - reflexivity.
  - reflexivity.
  - exact sample_well_formed.
  - apply repeat_length.
  - apply Forall_repeat. reflexivity.
  - apply Forall_repeat. reflexivity.
Defined.

Lemma resume_throttle_witness :
  exists st' outs,
    run Sample.ext Sample.HF Sample.params (Sample.CP_legacy false) Sample.VM Sample.self
      init_state (repeat Sample.i_resume 26) = Ok (st', outs)
    /\ length outs = length (repeat Sample.i_resume 26)
    /\ counts is_resume outs
       = map (fun t => resume_batch (Z.of_nat t))
             (seq 0 (length (repeat Sample.i_resume 26)))
    /\ last_button_frame st' = resume_latch (Z.of_nat (length (repeat Sample.i_resume 26)))
    /\ map (fun t => resume_batch (Z.of_nat t)) (seq 0 26)
       = (repeat 0 11 ++ repeat 25 5 ++ repeat 0 10)%nat
    /\ map (fun t => resume_latch (Z.of_nat t)) (seq 0 18)
       = (repeat 0 16 ++ [15; 15])%Z.
Proof.
  apply (resume_throttle Sample.ext Sample.HF Sample.params (Sample.CP_legacy false)
           Sample.VM Sample.self (repeat Sample.i_resume 26)).
  - reflexivity.
  - reflexivity.
  - exact sample_well_formed.
  - apply Forall_repeat. split; reflexivity.
Defined.

Lemma gain_output_range_witness :
  exists st' act sends,
    update Sample.ext Sample.HF Sample.params Sample.CP_angle Sample.VM Sample.self
      init_state (in_sub Sample.i_pressed) (in_CC Sample.i_pressed) (in_CS Sample.i_pressed)
    = Ok (st', act, sends)
    /\ apply_torque_last st' = Actuators.torqueOutputCan act
    /\ Actuators.torque act = Actuators.torqueOutputCan act / STEER_MAX Sample.params
    /\ (CarControl.latActive (in_CC Sample.i_pressed) = true ->
        min_torque_reduction_gain Sample.self <= Actuators.torqueOutputCan act
        <= max_torque_reduction_gain Sample.self)
    /\ (CarControl.latActive (in_CC Sample.i_pressed) = false ->
        Actuators.torqueOutputCan act = 0).
Proof.
  apply (gain_output_range Sample.ext Sample.HF Sample.params Sample.CP_angle
           Sample.VM Sample.self init_state (in_sub Sample.i_pressed)
           (in_CC Sample.i_pressed) (in_CS Sample.i_pressed)).
  - exact sample_well_formed.
  - reflexivity.
  - Qcompare.
Defined.

Lemma override_ramp_down_witness :
  exists st' outs,
    run Sample.ext Sample.HF Sample.params Sample.CP_angle Sample.VM Sample.self
      Sample.st_full_gain (repeat Sample.i_pressed 225) = Ok (st', outs)
    /\ length outs = length (repeat Sample.i_pressed 225)
    /\ (forall t, (t < length outs)%nat ->
        nth t (echoed_gains outs) 0
        <= nth t (apply_torque_last Sample.st_full_gain :: echoed_gains outs) 0
        /\ nth t (echoed_gains outs) 0
           == Qmax (nth t (apply_torque_last Sample.st_full_gain :: echoed_gains outs) 0
                    - Qmax ((nth t (apply_torque_last Sample.st_full_gain
                                    :: echoed_gains outs) 0
                             - min_torque_reduction_gain Sample.self)
                            / inject_Z (angle_torque_override_cycles Sample.self))
                           (4 # 1000))
                   (min_torque_reduction_gain Sample.self))
    /\ (forall t, (t < length outs)%nat ->
        (override_ticks (apply_torque_last Sample.st_full_gain)
                        (min_torque_reduction_gain Sample.self) <= S t)%nat ->
        nth t (echoed_gains outs) 0 == min_torque_reduction_gain Sample.self).
Proof.
  apply (override_ramp_down Sample.ext Sample.HF Sample.params Sample.CP_angle
           Sample.VM Sample.self Sample.st_full_gain (repeat Sample.i_pressed 225)).
  - exact sample_well_formed.
  - reflexivity.
  - Qcompare.
  - apply Forall_repeat. split; reflexivity.
  - split; Qcompare.
Defined.

Lemma inactive_angle_is_clamped_true_angle_witness :
  (forall st i,
      CarControl.latActive (in_CC i) = false ->
      exists st' act sends,
        tick Sample.ext Sample.HF Sample.params Sample.CP_angle Sample.VM Sample.self st i
        = Ok (st', act, sends)
        /\ Actuators.steeringAngleDeg act
           = clip (CarState.steeringAngleDeg (in_CS i))
                  (- STEER_ANGLE_MAX Sample.params) (STEER_ANGLE_MAX Sample.params)
        /\ (- STEER_ANGLE_MAX Sample.params <= CarState.steeringAngleDeg (in_CS i)
            <= STEER_ANGLE_MAX Sample.params ->
            Actuators.steeringAngleDeg act == CarState.steeringAngleDeg (in_CS i)))
  /\ (forall st i1 i2,
         CarControl.latActive (in_CC i1) = false ->
         CarControl.latActive (in_CC i2) = false ->
         exists st' a1 s1 a2 s2,
           run Sample.ext Sample.HF Sample.params Sample.CP_angle Sample.VM Sample.self
             st [i1; i2] = Ok (st', [(a1, s1); (a2, s2)])
           /\ Actuators.steeringAngleDeg a2
              = clip (CarState.steeringAngleDeg (in_CS i2))
                     (- STEER_ANGLE_MAX Sample.params) (STEER_ANGLE_MAX Sample.params)
           /\ (- STEER_ANGLE_MAX Sample.params <= CarState.steeringAngleDeg (in_CS i2)
               <= STEER_ANGLE_MAX Sample.params ->
               Actuators.steeringAngleDeg a2 == CarState.steeringAngleDeg (in_CS i2))).
Proof.
  apply (inactive_angle_is_clamped_true_angle Sample.ext Sample.HF Sample.params
           Sample.CP_angle Sample.VM Sample.self).
  - exact sample_well_formed.
  - reflexivity.
Defined.

Lemma smoothing_blend_witness :
  exists alpha0 r,
    np_interp (CarState.vEgoRaw (in_CS Sample.i_slow))
      (SMOOTHING_ANGLE_VEGO_MATRIX Sample.params)
      (SMOOTHING_ANGLE_ALPHA_MATRIX Sample.params) = Ok alpha0
    /\ piecewise_linear
         (combine (SMOOTHING_ANGLE_VEGO_MATRIX Sample.params)
                  (SMOOTHING_ANGLE_ALPHA_MATRIX Sample.params))
         (CarState.vEgoRaw (in_CS Sample.i_slow)) alpha0
    /\ smoothed_apply_angle Sample.params Sample.self init_state (in_CS Sample.i_slow) 10
       = Ok r
    /\ sp_smooth_angle Sample.params (CarState.vEgoRaw (in_CS Sample.i_slow))
         (clip 10 (- (8192 # 10)) (8191 # 10)) (apply_angle_last init_state) = Ok r
    /\ Qmin alpha0 1 <= 1
    /\ (1 # 10 < Qabs (clip 10 (- (8192 # 10)) (8191 # 10) - apply_angle_last init_state) ->
        r == Qmin alpha0 1 * clip 10 (- (8192 # 10)) (8191 # 10)
             + (1 - Qmin alpha0 1) * apply_angle_last init_state)
    /\ (Qabs (clip 10 (- (8192 # 10)) (8191 # 10) - apply_angle_last init_state) <= 1 # 10 ->
        r = clip 10 (- (8192 # 10)) (8191 # 10))
    /\ apply_hyundai_steer_angle_limits Sample.ext Sample.params Sample.VM Sample.self
         init_state (in_CS Sample.i_slow) (in_CC Sample.i_slow) 10
       = Ok (clip (if negb (CarControl.latActive (in_CC Sample.i_slow))
                   then CarState.steeringAngleDeg (in_CS Sample.i_slow)
                   else clip (rate_limit r (apply_angle_last init_state)
                                (- rate_cap Sample.ext Sample.VM
                                     (CarState.vEgoRaw (in_CS Sample.i_slow)))
                                (rate_cap Sample.ext Sample.VM
                                   (CarState.vEgoRaw (in_CS Sample.i_slow))))
                             (- kinematicMaxAngle Sample.ext Sample.VM
                                  (CarState.vEgoRaw (in_CS Sample.i_slow)))
                             (kinematicMaxAngle Sample.ext Sample.VM
                                (CarState.vEgoRaw (in_CS Sample.i_slow))))
                  (- STEER_ANGLE_MAX Sample.params) (STEER_ANGLE_MAX Sample.params)).
Proof.
  apply (smoothing_blend Sample.ext Sample.params Sample.VM Sample.self init_state
           (in_CS Sample.i_slow) (in_CC Sample.i_slow) 10).
  - reflexivity.
  - Qcompare.
  - split; [intros E; discriminate E | reflexivity].
Defined.

Lemma canfd_alt_buttons_resume_is_silent_witness :
  (forall req tq ss acc stp hud,
      fst (create_canfd_msgs Sample.HF Sample.CP_alt_buttons Sample.st_frame_30
             (in_sub Sample.i_resume) req tq ss acc stp hud
             (in_CS Sample.i_resume) (in_CC Sample.i_resume)) = Sample.st_frame_30
      /\ count_msgs is_button_msg
           (snd (create_canfd_msgs Sample.HF Sample.CP_alt_buttons Sample.st_frame_30
                   (in_sub Sample.i_resume) req tq ss acc stp hud
                   (in_CS Sample.i_resume) (in_CC Sample.i_resume))) = 0%nat)
  /\ exists st' act sends,
       tick Sample.ext Sample.HF Sample.params Sample.CP_alt_buttons Sample.VM Sample.self
         Sample.st_frame_30 Sample.i_resume = Ok (st', act, sends)
       /\ count_msgs is_button_msg sends = 0%nat
       /\ last_button_frame st' = last_button_frame Sample.st_frame_30.
Proof.
  apply (canfd_alt_buttons_resume_is_silent Sample.ext Sample.HF Sample.params
           Sample.CP_alt_buttons Sample.VM Sample.self Sample.st_frame_30 Sample.i_resume).
  - reflexivity.
  - reflexivity.
  - reflexivity.
  - exact sample_well_formed.
  - reflexivity.
  - reflexivity.
  - Qcompare.
Defined.

Lemma torque_mode_echoes_initial_angle_witness :
  (forall st i st' act sends,
      tick Sample.ext Sample.HF Sample.params (Sample.CP_legacy true) Sample.VM Sample.self
        st i = Ok (st', act, sends) ->
      apply_angle_last st' = apply_angle_last st
      /\ Actuators.steeringAngleDeg act = apply_angle_last st)
  /\ (forall ins,
        exists st' outs,
          run Sample.ext Sample.HF Sample.params (Sample.CP_legacy true) Sample.VM
            Sample.self init_state ins = Ok (st', outs)
          /\ length outs = length ins
          /\ apply_angle_last st' = 0
          /\ Forall (fun a => a = 0) (echoed_angles outs)).
Proof.
  apply (torque_mode_echoes_initial_angle Sample.ext Sample.HF Sample.params
           (Sample.CP_legacy true) Sample.VM Sample.self).
  - reflexivity.
  - intros E. discriminate E.
Defined.

(** *** Where the specification's wording fails *)

(** C4, as worded, fails: with resume requested from tick 0 no batch is sent
    on tick 0, and a batch of 25 is sent on tick 11 (and on 12, 13, 14). *)
Lemma resume_throttle_counterexample :
  exists st' outs,
    run Sample.ext Sample.HF Sample.params (Sample.CP_legacy false) Sample.VM Sample.self
      init_state (repeat Sample.i_resume 16) = Ok (st', outs)
    /\ Forall (fun i => CarControl.resume (in_CC i) = true
                        /\ CarControl.cancel (in_CC i) = false)
              (repeat Sample.i_resume 16)
    /\ counts is_resume outs
       = [0; 0; 0; 0; 0; 0; 0; 0; 0; 0; 0; 25; 25; 25; 25; 25]%nat
    /\ ~ (nth 0 (counts is_resume outs) 0 = 25
          /\ forall t, (1 <= t <= 14)%nat -> nth t (counts is_resume outs) 0 = 0)%nat.
Proof.
  eexists. eexists.
  split; [vm_compute; reflexivity|].
  split; [apply Forall_repeat; split; reflexivity|].
  split; [vm_compute; reflexivity|].
  intros [H _]. vm_compute in H. discriminate H.
Qed.

(** C5, as worded, fails: on an inactive tick in angle mode the gain output
    is 0, below minGain = 0.1, in both echoed fields; and on an active tick
    the [torque] field is the gain over [STEER_MAX], here 0.1 / 270. *)
Lemma gain_output_range_counterexample :
  (exists st' act sends,
      tick Sample.ext Sample.HF Sample.params Sample.CP_angle Sample.VM Sample.self
        init_state Sample.i_inactive_small = Ok (st', act, sends)
      /\ has_flag (flags Sample.CP_angle) (CANFD_ANGLE_STEERING Sample.HF) = true
      /\ ~ (min_torque_reduction_gain Sample.self <= Actuators.torque act
            <= max_torque_reduction_gain Sample.self)
      /\ ~ (min_torque_reduction_gain Sample.self <= Actuators.torqueOutputCan act
            <= max_torque_reduction_gain Sample.self))
  /\ (exists st' act sends,
         tick Sample.ext Sample.HF Sample.params Sample.CP_angle Sample.VM Sample.self
           init_state Sample.i_active = Ok (st', act, sends)
         /\ Actuators.torque act == 1 # 2700
         /\ ~ (min_torque_reduction_gain Sample.self <= Actuators.torque act
               <= max_torque_reduction_gain Sample.self)).
Proof.
  split.
  - do 3 eexists. split; [vm_compute; reflexivity|].
    split; [reflexivity|].
    split; intros [H _]; vm_compute in H; apply H; reflexivity.
  - do 3 eexists. split; [vm_compute; reflexivity|].
    split; [reflexivity|].
    intros [H _]. vm_compute in H. apply H. reflexivity.
Qed.

(** C7, as worded, fails: with the wheel at 200 degrees and a static maximum
    of 180 degrees, the inactive tick echoes 180, not the true angle. *)
Lemma inactive_angle_counterexample :
  exists st' act sends,
    tick Sample.ext Sample.HF Sample.params Sample.CP_angle Sample.VM Sample.self
      init_state Sample.i_inactive = Ok (st', act, sends)
    /\ CarControl.latActive (in_CC Sample.i_inactive) = false
    /\ CarState.steeringAngleDeg (in_CS Sample.i_inactive) == 200
    /\ Actuators.steeringAngleDeg act == 180
    /\ ~ Actuators.steeringAngleDeg act == CarState.steeringAngleDeg (in_CS Sample.i_inactive).
Proof.
  do 3 eexists. split; [vm_compute; reflexivity|].
  split; [reflexivity|].
  split; [reflexivity|].
  split; [reflexivity|].
  intros E. discriminate E.
Qed.

(** The ramp from gain 1 to minGain 0.1 takes ceil(0.9 / 0.004) = 225 ticks. *)
Example override_ticks_sample : override_ticks 1 (1 # 10) = 225%nat.
Proof. reflexivity. Qed.

(** In binary64 the elapsed-time tests of the scheduler fall on the same
    ticks as the exact ones, for every elapsed count below 3000 ticks. *)
Example binary64_thresholds :
  forallb Binary64.thresholds_agree (seq 0 3000) = true.
Proof. vm_compute. reflexivity. Qed.

(** Python's [round] sends ties to the even neighbour. *)
Example py_round_ties :
  map py_round [5 # 2; 7 # 2; - (5 # 2); 26 # 10; - (1 # 3)] = [2; 4; -2; 3; 0]%Z.
Proof. reflexivity. Qed.

(** The sample lookup curve below the table, at breakpoints, half-way
    between two breakpoints, and above the table. *)
Example np_interp_sample :
  Sample.alpha_is (- (1)) (5 # 100)
  /\ Sample.alpha_is 0 (5 # 100)
  /\ Sample.alpha_is (85 # 10) (1 # 10)
  /\ Sample.alpha_is (975 # 100) (2 # 10)
  /\ Sample.alpha_is 11 (3 # 10)
  /\ Sample.alpha_is 30 1.
Proof.
  repeat split; (eexists; split; [reflexivity | reflexivity]).
Qed.

Example np_interp_rejects_empty : np_interp 1 [] [] = Raise ValueError.
Proof. reflexivity. Qed.

(** At 20 m/s, from a last command of 0 towards a target of 10 degrees, the
    limiter moves by exactly the rate cap: strictly between 0 and 10. *)
Example limiter_sample :
  exists a,
    apply_hyundai_steer_angle_limits Sample.ext Sample.params Sample.VM Sample.self
      init_state (in_CS Sample.i_active) (in_CC Sample.i_active) 10 = Ok a
    /\ a == rate_cap Sample.ext Sample.VM 20
    /\ 0 < a < 10.
Proof.
  eexists. split; [vm_compute; reflexivity|].
  split; [reflexivity|]. split; reflexivity.
Qed.

(** A zero override-cycle count makes the override branch raise. *)
Example gain_zero_cycles_raises :
  calculate_angle_torque_reduction_gain
    {| ramp_down_reduction_gain_rate := 0; ramp_up_reduction_gain_rate := 0;
       min_torque_reduction_gain := 1 # 10; max_torque_reduction_gain := 1;
       active_torque_reduction_gain := 1 # 2; angle_torque_override_cycles := 0;
       angle_enable_smoothing_factor := true |}
    init_state (in_CS Sample.i_pressed) (1 # 2)
  = Raise ZeroDivisionError.
Proof. reflexivity. Qed.

(** ** Further properties of the limiter *)


Lemma fdiv_Ok_iff (a b : Q) : (exists q, fdiv a b = Ok q) <-> ~ b == 0.
Proof.
  unfold fdiv. destruct (Qeq_bool b 0) eqn:E.
  - apply Qeq_bool_iff in E. split; [intros [q H]; discriminate H | intros H; contradiction].
  - apply Qeq_bool_false_iff in E. split; [intros _; exact E | intros _; eexists; reflexivity].
Qed.

Lemma fdiv_Ok_nonzero (a b q : Q) : fdiv a b = Ok q -> ~ b == 0.
Proof. intros H. apply (proj1 (fdiv_Ok_iff a b)). exists q. exact H. Qed.

Lemma np_interp_Ok_iff (x : Q) (xp fp : list Q) :
  (exists a, np_interp x xp fp = Ok a) <-> (xp <> [] /\ length xp = length fp).
Proof.
  split.
  - intros [a H]. unfold np_interp in H.
    destruct (Nat.eqb (length xp) (length fp)) eqn:E; [|discriminate H].
    apply Nat.eqb_eq in E. split; [|exact E].
    intros ->. destruct fp; discriminate H.
  - intros [Hne Hlen]. apply np_interp_total; assumption.
Qed.

Lemma clip_id_eq (a x lo hi : Q) : a == x -> lo <= x <= hi -> clip a lo hi == x.
Proof.
  intros E [H1 H2]. unfold clip.
  destruct (Q.max_spec a lo) as [[? E1]|[? E1]];
    destruct (Q.min_spec (Qmax a lo) hi) as [[? E2]|[? E2]];
    rewrite E2; try rewrite E1; rewrite E1 in *; lra.
Qed.

Section LimiterMore.

Variable ext : Externals.
Variable HF : HyundaiFlags.
Variable params : CarControllerParams.
Variable CP : CarParams.
Variable VM : VehicleModel.
Variable self : Tuning.

Local Abbreviation limiter := (apply_hyundai_steer_angle_limits ext params VM self).
Local Abbreviation M := (STEER_ANGLE_MAX params).


Lemma smoothed_Ok_iff st CS x :
  (exists a, smoothed_apply_angle params self st CS x = Ok a)
  <-> (smoothing_applies params self st CS x = true -> tables_ok params).
Proof.
  unfold smoothed_apply_angle, smoothing_applies, sp_smooth_angle, tables_ok.
  destruct (angle_enable_smoothing_factor self
            && Qlt_bool (Qabs (CarState.vEgoRaw CS)) (SMOOTHING_ANGLE_MAX_VEGO params));
    [|split; [intros _ H; discriminate H | intros _; eexists; reflexivity]].
  simpl andb.
  destruct (Qlt_bool (1 # 10) _);
    [|split; [intros _ H; discriminate H | intros _; eexists; reflexivity]].
  split.
  - intros [a H] _. apply bind_Ok_inv in H. destruct H as [al [Hal _]].
    apply (proj1 (np_interp_Ok_iff (CarState.vEgoRaw CS) _ _)). eexists. exact Hal.
  - intros H. specialize (H eq_refl).
    apply (proj2 (np_interp_Ok_iff (CarState.vEgoRaw CS) _ _)) in H. destruct H as [al ->].
    simpl. eexists. reflexivity.
Qed.

(** X2.  The limiter returns exactly when the smoothing tables are ones
    [np.interp] accepts or the table lookup is not reached; in particular it
    returns at every speed, zero included, because the speed is floored at 1
    before the divisions. *)
Theorem limiter_returns_iff st CS CC x :
  (exists a, limiter st CS CC x = Ok a)
  <-> (smoothing_applies params self st CS x = true -> tables_ok params).
Proof.
  rewrite <- smoothed_Ok_iff. split.
  - intros [a H]. apply (limiter_Ok_smoothed ext params VM self st CS CC x a H).
  - intros [s Hs]. eexists. apply (limiter_eq ext params VM self st CS CC x s Hs).
Qed.

(** X3.  When lateral control is active, the angle the limiter returns is
    within the lateral-acceleration bound of the current speed, whatever the
    desired angle and the last command are (for a non-negative bound and a
    non-negative static maximum). *)
Theorem active_angle_within_lateral_accel_bound st CS CC x a :
  CarControl.latActive CC = true ->
  0 <= kinematicMaxAngle ext VM (CarState.vEgoRaw CS) ->
  0 <= M ->
  limiter st CS CC x = Ok a ->
  - kinematicMaxAngle ext VM (CarState.vEgoRaw CS) <= a
  /\ a <= kinematicMaxAngle ext VM (CarState.vEgoRaw CS).
Proof.
  intros Hl HA HM Ha.
  destruct (limiter_Ok_smoothed ext params VM self st CS CC x a Ha) as [s Hs].
  rewrite (limiter_eq ext params VM self st CS CC x s Hs) in Ha.
  rewrite Hl in Ha. simpl in Ha. injection Ha as <-.
  set (A := kinematicMaxAngle ext VM (CarState.vEgoRaw CS)) in *.
  match goal with
  | |- - A <= clip (clip ?y (- A) A) _ _ /\ _ =>
      assert (H1 : - A <= clip y (- A) A <= A) by (apply clip_bounds; lra);
      assert (H2 : Qabs (clip (clip y (- A) A) (- M) M - 0) <= A)
        by (apply clip_towards; [lra | apply Qabs_Qle_condition; lra])
  end.
  apply Qabs_Qle_condition in H2. lra.
Qed.

(** X4.  Holding the command: with lateral control active, a desired angle
    equal to the last command, that command within the encodable range and
    within the envelope of the current speed, and a non-negative rate cap,
    the limiter returns the last command again. *)
Theorem limiter_holds_steady st CS CC :
  CarControl.latActive CC = true ->
  - (8192 # 10) <= apply_angle_last st <= 8191 # 10 ->
  in_envelope ext params VM (CarState.vEgoRaw CS) (apply_angle_last st) ->
  0 <= kinematicRateCap ext VM (CarState.vEgoRaw CS) ->
  exists a, limiter st CS CC (apply_angle_last st) = Ok a /\ a == apply_angle_last st.
Proof.
  intros Hl Henc [[E1 E2] [E3 E4]] Hd.
  set (last := apply_angle_last st) in *.
  assert (Hc : clip last (- (8192 # 10)) (8191 # 10) == last) by (apply clip_id; exact Henc).
  assert (Hs : smoothed_apply_angle params self st CS last
               = Ok (clip last (- (8192 # 10)) (8191 # 10))).
  { unfold smoothed_apply_angle, sp_smooth_angle. fold last.
    assert (Hz : Qlt_bool (1 # 10) (Qabs (clip last (- (8192 # 10)) (8191 # 10) - last))
                 = false).
    { apply Qlt_bool_false_iff. apply Qabs_Qle_condition. lra. }
    rewrite Hz. destruct (_ && _); reflexivity. }
  eexists. split; [apply (limiter_eq ext params VM self st CS CC last _ Hs)|].
  rewrite Hl. simpl negb. cbv iota. fold last.
  assert (H0 : 0 <= Qmin (kinematicRateCap ext VM (CarState.vEgoRaw CS)) MAX_ANGLE_RATE).
  { apply Q.min_glb; [exact Hd | intros E; discriminate E]. }
  set (d := Qmin (kinematicRateCap ext VM (CarState.vEgoRaw CS)) MAX_ANGLE_RATE) in *.
  apply clip_id_eq; [|split; assumption].
  apply clip_id_eq; [|split; assumption].
  unfold rate_limit. apply clip_id_eq; [exact Hc|]. split; lra.
Qed.

End LimiterMore.

(** ** Smoothing stays between the last command and the candidate *)

Lemma Forall_combine_snd (P : Q -> Prop) (xp fp : list Q) :
  Forall P fp -> Forall (fun p => P (snd p)) (combine xp fp).
Proof.
  revert fp. induction xp as [|x xp IH]; intros fp H; simpl; [constructor|].
  destruct fp as [|y fp]; [constructor|].
  inversion H; subst. constructor; [assumption | apply IH; assumption].
Qed.

Lemma segment_value (x x0 y0 x1 y1 : Q) :
  x0 <= x -> x < x1 ->
  exists t, 0 <= t /\ t <= 1
            /\ y0 + (x - x0) * ((y1 - y0) / (x1 - x0)) == y0 + t * (y1 - y0).
Proof.
  intros H0 H1.
  assert (HD : 0 < x1 - x0) by lra.
  exists ((x - x0) / (x1 - x0)). split; [|split].
  - apply Qle_shift_div_l; [exact HD | lra].
  - apply Qle_shift_div_r; [exact HD | lra].
  - field. intros E. lra.
Qed.

Lemma interp_segments_lower (lo x : Q) (rest : list (Q * Q)) :
  forall x0 y0,
    x0 <= x -> lo <= y0 -> Forall (fun p => lo <= snd p) rest ->
    lo <= interp_segments x x0 y0 rest.
Proof.
  induction rest as [|[x1 y1] rest IH]; intros x0 y0 Hx Hy Hall; simpl; [exact Hy|].
  inversion Hall as [|? ? Hy1 Hall']; subst. simpl in Hy1.
  destruct (Qlt_bool x x1) eqn:E.
  - apply Qlt_bool_iff in E.
    destruct (segment_value x x0 y0 x1 y1 Hx E) as (t & T0 & T1 & ->).
    nra.
  - apply Qlt_bool_false_iff in E. apply IH; assumption.
Qed.

Lemma np_interp_lower (lo x : Q) (xp fp : list Q) (y : Q) :
  Forall (fun a => lo <= a) fp -> np_interp x xp fp = Ok y -> lo <= y.
Proof.
  intros Hall. unfold np_interp.
  destruct (negb _); [discriminate|].
  pose proof (Forall_combine_snd (fun a => lo <= a) xp fp Hall) as Hc.
  destruct (combine xp fp) as [|[x0 y0] rest]; [discriminate|].
  inversion Hc as [|? ? Hy0 Hrest]; subst. simpl in Hy0.
  destruct (Qle_bool x x0) eqn:E; intros H; injection H as <-; [exact Hy0|].
  apply interp_segments_lower; try assumption.
  apply Qlt_le_weak. apply Qlt_bool_iff. unfold Qlt_bool. rewrite E. reflexivity.
Qed.

(** X5.  When no ordinate of the alpha table is negative, the angle
    [sp_smooth_angle] returns lies between the last command and the candidate:
    smoothing never overshoots the candidate and never moves away from it. *)
Theorem smoothing_stays_between (params : CarControllerParams)
        (v apply_angle apply_angle_last r : Q) :
  Forall (fun a => 0 <= a) (SMOOTHING_ANGLE_ALPHA_MATRIX params) ->
  sp_smooth_angle params v apply_angle apply_angle_last = Ok r ->
  Qmin apply_angle apply_angle_last <= r /\ r <= Qmax apply_angle apply_angle_last.
Proof.
  intros Hall. unfold sp_smooth_angle.
  destruct (Qlt_bool _ _).
  - intros H. apply bind_Ok_inv in H. destruct H as [al [Hal H]].
    injection H as <-.
    pose proof (np_interp_lower 0 v _ _ al Hall Hal) as H0.
    assert (H1 : 0 <= Qmin al 1 <= 1).
    { split; [apply Q.min_glb; [exact H0 | intros E; discriminate E] | apply Q.le_min_r]. }
    set (k := Qmin al 1) in *. clearbody k.
    destruct (Q.min_spec apply_angle apply_angle_last) as [[? E1]|[? E1]];
      destruct (Q.max_spec apply_angle apply_angle_last) as [[? E2]|[? E2]];
      rewrite E1, E2; split; nra.
  - intros H. injection H as <-. split; [apply Q.le_min_l | apply Q.le_max_l].
Qed.

(** ** Further properties of the gain *)

Section GainMore.

Variable ext : Externals.
Variable HF : HyundaiFlags.
Variable params : CarControllerParams.
Variable CP : CarParams.
Variable VM : VehicleModel.
Variable self : Tuning.

Local Abbreviation gain := (calculate_angle_torque_reduction_gain self).
Local Abbreviation gmin := (min_torque_reduction_gain self).
Local Abbreviation gmax := (max_torque_reduction_gain self).
Local Abbreviation gact := (active_torque_reduction_gain self).
Local Abbreviation rd := (ramp_down_reduction_gain_rate self).
Local Abbreviation ru := (ramp_up_reduction_gain_rate self).

(** X6.  The gain computation raises in one case only: the driver presses
    the wheel and the override-cycle count is zero; the exception is then
    [ZeroDivisionError]. *)
Theorem gain_raises_iff st CS target e :
  gain st CS target = Raise e
  <-> (e = ZeroDivisionError
       /\ CarState.steeringPressed CS = true
       /\ angle_torque_override_cycles self = 0%Z).
Proof.
  unfold calculate_angle_torque_reduction_gain, fdiv.
  destruct (CarState.steeringPressed CS).
  - destruct (Qeq_bool (inject_Z (angle_torque_override_cycles self)) 0) eqn:E; simpl.
    + apply Qeq_bool_iff in E.
      assert (Hz : angle_torque_override_cycles self = 0%Z).
      { destruct (Z.eq_dec (angle_torque_override_cycles self) 0) as [Hz|Hz]; [exact Hz|].
        exfalso. apply (inject_Z_nonzero _ Hz). exact E. }
      split; [intros H; injection H as <-; auto | intros (-> & _ & _); reflexivity].
    + apply Qeq_bool_false_iff in E. split; [discriminate|].
      intros (_ & _ & Hz). exfalso. apply E. rewrite Hz. reflexivity.
  - destruct (Qlt_bool _ _); split; try discriminate; intros (_ & H & _); discriminate H.
Qed.

(** The normal branch in closed form. *)
Lemma gain_normal st CS request :
  CarState.steeringPressed CS = false ->
  gain st CS request
  = Ok (if Qlt_bool (gain_target self request) (apply_torque_last st)
        then Qmax (apply_torque_last st - rd) (gain_target self request)
        else Qmin (apply_torque_last st + ru) (gain_target self request)).
Proof.
  intros Hp. unfold calculate_angle_torque_reduction_gain, gain_target. rewrite Hp.
  destruct (Qlt_bool _ _); reflexivity.
Qed.

Lemma gain_normal_facts (last T : Q) :
  0 <= rd -> 0 <= ru ->
  let g := if Qlt_bool T last then Qmax (last - rd) T else Qmin (last + ru) T in
  (T <= last -> T <= g /\ g <= last)
  /\ (last <= T -> last <= g /\ g <= T)
  /\ Qabs (g - T) <= Qmax (Qabs (last - T) - Qmin rd ru) 0.
Proof.
  intros Hd Hu. cbv zeta.
  destruct (Qlt_bool T last) eqn:E.
  - apply Qlt_bool_iff in E.
    destruct (Q.max_spec (last - rd) T) as [[? E1]|[? E1]]; rewrite E1;
      (split; [intros _; split; lra | split; [intros; split; lra|]]);
      apply Qabs_Qle_condition;
      destruct (Q.min_spec rd ru) as [[? E2]|[? E2]]; rewrite E2;
      rewrite (Qabs_pos (last - T)) by lra;
      match goal with
      | |- context [Qmax ?a ?b] =>
          destruct (Q.max_spec a b) as [[? E3]|[? E3]]; rewrite E3
      end; split; lra.
  - apply Qlt_bool_false_iff in E.
    destruct (Q.min_spec (last + ru) T) as [[? E1]|[? E1]]; rewrite E1;
      (split; [intros; split; lra | split; [intros _; split; lra|]]);
      apply Qabs_Qle_condition;
      destruct (Q.min_spec rd ru) as [[? E2]|[? E2]]; rewrite E2;
      rewrite (Qabs_neg (last - T)) by lra;
      match goal with
      | |- context [Qmax ?a ?b] =>
          destruct (Q.max_spec a b) as [[? E3]|[? E3]]; rewrite E3
      end; split; lra.
Qed.

(** X7.  In the normal branch (wheel not pressed, ramp rates not negative)
    the gain takes one step from the last gain towards the target
    clip(request, activeGain, maxGain): it ends between the two, never past
    the target, and the distance to the target shrinks by min(rampDown,
    rampUp) or to zero. *)
Theorem gain_steps_towards_target st CS request :
  CarState.steeringPressed CS = false ->
  0 <= rd -> 0 <= ru ->
  exists g,
    gain st CS request = Ok g
    /\ Qmin (apply_torque_last st) (gain_target self request) <= g
    /\ g <= Qmax (apply_torque_last st) (gain_target self request)
    /\ Qabs (g - gain_target self request)
       <= Qmax (Qabs (apply_torque_last st - gain_target self request) - Qmin rd ru) 0.
Proof.
  intros Hp Hd Hu. eexists. split; [apply gain_normal; exact Hp|].
  destruct (gain_normal_facts (apply_torque_last st) (gain_target self request) Hd Hu)
    as (F1 & F2 & F3).
  split; [|split; [|exact F3]].
  - destruct (Q.min_spec (apply_torque_last st) (gain_target self request))
      as [[? E]|[? E]]; rewrite E.
    + apply F2. lra.
    + apply F1. lra.
  - destruct (Q.max_spec (apply_torque_last st) (gain_target self request))
      as [[? E]|[? E]]; rewrite E.
    + apply F2. lra.
    + apply F1. lra.
Qed.

(** One tick of the normal branch in angle mode, against a target [T]. *)
Lemma normal_step st i T :
  well_formed params self ->
  has_flag (flags CP) (CANFD_ANGLE_STEERING HF) = true ->
  gmin <= gact -> gact <= gmax -> 0 <= rd -> 0 <= ru ->
  CarControl.latActive (in_CC i) = true ->
  CarState.steeringPressed (in_CS i) = false ->
  gain_target self (Qabs (Actuators.torque (CarControl.actuators (in_CC i)))) == T ->
  gmin <= apply_torque_last st <= gmax ->
  exists st' act sends,
    tick ext HF params CP VM self st i = Ok (st', act, sends)
    /\ Actuators.torqueOutputCan act = apply_torque_last st'
    /\ gmin <= apply_torque_last st' <= gmax
    /\ (T <= apply_torque_last st ->
        T <= apply_torque_last st' /\ apply_torque_last st' <= apply_torque_last st)
    /\ (apply_torque_last st <= T ->
        apply_torque_last st <= apply_torque_last st' /\ apply_torque_last st' <= T)
    /\ Qabs (apply_torque_last st' - T)
       <= Qmax (Qabs (apply_torque_last st - T) - Qmin rd ru) 0.
Proof.
  intros Hwf Hf Hma Ham Hd Hu Hl Hp HT Hg.
  destruct (update_angle_step ext HF params CP VM self st (in_sub i) (in_CC i) (in_CS i)
              Hwf Hf)
    as (a & g & st' & act & sends & _ & Hgn & Hup & _ & _ & _ & Htl & Hto & _).
  rewrite Hl in Htl, Hto. simpl in Htl, Hto.
  rewrite (gain_normal st (in_CS i) _ Hp) in Hgn. injection Hgn as <-.
  exists st', act, sends. split; [exact Hup|]. split; [congruence|].
  set (Ti := gain_target self (Qabs (Actuators.torque (CarControl.actuators (in_CC i))))) in *.
  assert (HTi : gact <= Ti <= gmax) by (apply clip_bounds; exact Ham).
  destruct (gain_normal_facts (apply_torque_last st) Ti Hd Hu) as (F1 & F2 & F3).
  set (g := if Qlt_bool Ti (apply_torque_last st)
            then Qmax (apply_torque_last st - rd) Ti
            else Qmin (apply_torque_last st + ru) Ti) in *.
  assert (Hb : gmin <= g <= gmax).
  { destruct (Qlt_le_dec Ti (apply_torque_last st)) as [H|H].
    - destruct F1 as [? ?]; [lra|]. split; lra.
    - destruct F2 as [? ?]; [lra|]. split; lra. }
  assert (Ec : clip g gmin gmax == g) by (apply clip_id; exact Hb).
  rewrite Htl. rewrite Ec. rewrite HT in F1, F2, F3.
  split; [exact Hb|]. split; [exact F1|]. split; [exact F2 | exact F3].
Qed.

Lemma run_normal T :
  well_formed params self ->
  has_flag (flags CP) (CANFD_ANGLE_STEERING HF) = true ->
  gmin <= gact -> gact <= gmax -> 0 <= rd -> 0 <= ru ->
  forall ins st,
    Forall (fun i =>
              CarControl.latActive (in_CC i) = true
              /\ CarState.steeringPressed (in_CS i) = false
              /\ gain_target self (Qabs (Actuators.torque (CarControl.actuators (in_CC i))))
                 == T) ins ->
    gmin <= apply_torque_last st <= gmax ->
    exists st' outs,
      run ext HF params CP VM self st ins = Ok (st', outs)
      /\ length outs = length ins
      /\ forall t, (t < length outs)%nat ->
           let prev := nth t (apply_torque_last st :: echoed_gains outs) 0 in
           let cur := nth t (echoed_gains outs) 0 in
           (T <= prev -> T <= cur /\ cur <= prev)
           /\ (prev <= T -> prev <= cur /\ cur <= T)
           /\ Qabs (cur - T)
              <= Qmax (Qabs (apply_torque_last st - T)
                       - Qmin rd ru * inject_Z (Z.of_nat (S t))) 0.
Proof.
  intros Hwf Hf Hma Ham Hd Hu.
  induction ins as [|i ins IH]; intros st Hall Hg.
  - exists st, []. split; [reflexivity|]. split; [reflexivity|].
    intros t Ht. simpl in Ht. lia.
  - inversion Hall as [|? ? (Hl & Hp & HT) Hall']; subst.
    destruct (normal_step st i T Hwf Hf Hma Ham Hd Hu Hl Hp HT Hg)
      as (st1 & act & sends & Hup & Hto & Hb & S1 & S2 & S3).
    destruct (IH st1 Hall' Hb) as (st2 & outs & Hr & Hlen & Htr).
    exists st2, ((act, sends) :: outs).
    split; [simpl; rewrite Hup; simpl; rewrite Hr; reflexivity|].
    split; [simpl; congruence|].
    intros [|t] Ht; unfold echoed_gains; cbn [nth map fst length] in Ht |- *;
      fold (echoed_gains outs); rewrite Hto.
    + split; [exact S1|]. split; [exact S2|].
      setoid_replace (Qmin rd ru * inject_Z (Z.of_nat 1)) with (Qmin rd ru)
        by (change (inject_Z (Z.of_nat 1)) with 1; ring).
      exact S3.
    + assert (Ht' : (t < length outs)%nat) by lia.
      destruct (Htr t Ht') as (T1 & T2 & T3). cbn [nth] in T1, T2, T3.
      split; [exact T1|]. split; [exact T2|].
      pose proof (ticks_succ (S t)) as Es.
      assert (Hn : 0 <= inject_Z (Z.of_nat (S t)))
        by (change 0 with (inject_Z 0); rewrite <- Zle_Qle; lia).
      assert (Hr0 : 0 <= Qmin rd ru) by (apply Q.min_glb; assumption).
      set (n := inject_Z (Z.of_nat (S t))) in *.
      set (n' := inject_Z (Z.of_nat (S (S t)))) in *.
      set (r := Qmin rd ru) in *.
      set (d0 := Qabs (apply_torque_last st - T)) in *.
      set (d1 := Qabs (apply_torque_last st1 - T)) in *.
      set (c := Qabs (nth t (echoed_gains outs) 0 - T)) in *.
      clearbody n n' r d0 d1 c.
      assert (Hrn : 0 <= r * n) by (apply Qmult_le_0_compat; assumption).
      assert (Er : r * n' == r * n + r) by (rewrite Es; ring).
      destruct (Q.max_spec (d1 - r * n) 0) as [[? M1]|[? M1]]; rewrite M1 in T3;
        destruct (Q.max_spec (d0 - r) 0) as [[? M2]|[? M2]]; rewrite M2 in S3;
        destruct (Q.max_spec (d0 - r * n') 0) as [[? M3]|[? M3]]; rewrite M3; lra.
Qed.

(** X8.  In angle mode with lateral control active, the wheel not pressed
    and a request whose target clip(|torque|, activeGain, maxGain) is the
    same [T] on every tick (a well-formed configuration with
    minGain <= activeGain <= maxGain, ramp rates not negative, the gain
    before the first tick in [minGain, maxGain]): the run returns; every
    gain lies between its predecessor and [T], never past [T]; and once
    min(rampDown, rampUp) times the number of ticks covers the initial
    distance to [T], the gain equals [T]. *)
Theorem gain_converges_to_target T st ins :
  well_formed params self ->
  has_flag (flags CP) (CANFD_ANGLE_STEERING HF) = true ->
  gmin <= gact -> gact <= gmax -> 0 <= rd -> 0 <= ru ->
  Forall (fun i =>
            CarControl.latActive (in_CC i) = true
            /\ CarState.steeringPressed (in_CS i) = false
            /\ gain_target self (Qabs (Actuators.torque (CarControl.actuators (in_CC i))))
               == T) ins ->
  gmin <= apply_torque_last st <= gmax ->
  exists st' outs,
    run ext HF params CP VM self st ins = Ok (st', outs)
    /\ length outs = length ins
    /\ (forall t, (t < length outs)%nat ->
        (T <= nth t (apply_torque_last st :: echoed_gains outs) 0 ->
         T <= nth t (echoed_gains outs) 0
         /\ nth t (echoed_gains outs) 0 <= nth t (apply_torque_last st :: echoed_gains outs) 0)
        /\ (nth t (apply_torque_last st :: echoed_gains outs) 0 <= T ->
            nth t (apply_torque_last st :: echoed_gains outs) 0 <= nth t (echoed_gains outs) 0
            /\ nth t (echoed_gains outs) 0 <= T))
    /\ (forall t, (t < length outs)%nat ->
        Qabs (apply_torque_last st - T) <= Qmin rd ru * inject_Z (Z.of_nat (S t)) ->
        nth t (echoed_gains outs) 0 == T).
Proof.
  intros Hwf Hf Hma Ham Hd Hu Hall Hg.
  destruct (run_normal T Hwf Hf Hma Ham Hd Hu ins st Hall Hg)
    as (st' & outs & Hr & Hlen & Htr).
  exists st', outs. split; [exact Hr|]. split; [exact Hlen|]. split.
  - intros t Ht. destruct (Htr t Ht) as (T1 & T2 & _). split; assumption.
  - intros t Ht Hcov. destruct (Htr t Ht) as (_ & _ & T3). cbv zeta in T3.
    rewrite Q.max_r in T3 by lra.
    apply Qabs_Qle_condition in T3. lra.
Qed.

End GainMore.

(** ** Further properties of the tick and of the scheduler *)

Lemma elapsed_gt_quarter (d : Z) :
  Qlt_bool (25 # 100) (inject_Z d * DT_CTRL) = (25 <? d)%Z.
Proof.
  unfold Qlt_bool, Qle_bool, DT_CTRL. simpl.
  destruct (Z.leb_spec (d * 1 * 100) 2500); destruct (Z.ltb_spec 25 d);
    simpl; try reflexivity; lia.
Qed.

Ltac forall_msgs :=
  repeat first
    [ apply Forall_nil
    | apply Forall_cons; [repeat split; reflexivity|]
    | apply Forall_app; split
    | apply Forall_repeat; repeat split; reflexivity ].

Section TickMore.

Variable ext : Externals.
Variable HF : HyundaiFlags.
Variable params : CarControllerParams.
Variable CP : CarParams.
Variable VM : VehicleModel.
Variable self : Tuning.

Local Abbreviation update' := (update ext HF params CP VM self).
Local Abbreviation gmin := (min_torque_reduction_gain self).
Local Abbreviation gmax := (max_torque_reduction_gain self).

(** What the legacy scheduler sends, field by field. *)
Lemma create_can_msgs_fields st sub req tq fault ss acc stp hud act CS CC :
  let r := create_can_msgs HF CP st sub req tq fault ss acc stp hud act CS CC in
  Forall (sent_fields_agree (apply_angle_last st) req tq fault (accel_last st) acc) (snd r)
  /\ (exists m, filter is_steer_cmd (snd r) = [m])
  /\ accel_last (fst r) = accel_last st
  /\ (last_button_frame (fst r) = last_button_frame st
      \/ last_button_frame (fst r) = frame st).
Proof.
  unfold create_can_msgs.
  destruct (process_hud_alert _ _ _) as [[[w s] l] r0].
  destruct (openpilotLongitudinalControl CP); simpl negb; cbv iota.
  - cbn [frame]. rewrite !Bool.andb_true_r.
    destruct (frame st mod 2 =? 0)%Z; destruct (frame st mod 5 =? 0)%Z;
      destruct (has_flag (flags CP) (SEND_LFA HF));
      destruct (frame st mod 20 =? 0)%Z; destruct (frame st mod 50 =? 0)%Z;
      destruct (ESCC_enabled sub); cbn [andb negb snd fst];
      (split; [forall_msgs | split; [eexists; reflexivity | split; [reflexivity | left; reflexivity]]]).
  - destruct (CarControl.cancel CC);
      [|destruct (CarControl.resume CC);
        [destruct (Qlt_bool _ _); [destruct (Qle_bool _ _)|]|]];
      cbv iota beta; cbn [frame set_last_button_frame];
      rewrite !Bool.andb_false_r; cbn [andb];
      destruct ((frame st mod 5 =? 0)%Z && has_flag (flags CP) (SEND_LFA HF));
      cbn [snd fst];
      (split; [forall_msgs
              | split; [eexists; reflexivity
                       | split; [reflexivity | first [left; reflexivity | right; reflexivity]]]]).
Qed.

(** What the CAN FD scheduler sends, field by field. *)
Lemma create_canfd_msgs_fields fault st sub req tq ss acc stp hud CS CC :
  let r := create_canfd_msgs HF CP st sub req tq ss acc stp hud CS CC in
  Forall (sent_fields_agree (apply_angle_last st) req tq fault (accel_last st) acc) (snd r)
  /\ (exists m, filter is_steer_cmd (snd r) = [m]
                /\ steer_angle m = Some (apply_angle_last st))
  /\ (accel_last (fst r) = accel_last st \/ accel_last (fst r) = acc)
  /\ (last_button_frame (fst r) = last_button_frame st
      \/ last_button_frame (fst r) = frame st).
Proof.
  unfold create_canfd_msgs.
  destruct (interceptor_available sub);
    destruct (has_flag (flags CP) (CANFD_LKA_STEERING HF));
    destruct (frame st mod 5 =? 0)%Z;
    destruct (has_flag (flags CP) (ENABLE_BLINKERS HF));
    destruct (openpilotLongitudinalControl CP);
    cbn [andb orb negb];
    try (destruct (frame st mod 2 =? 0)%Z);
    try (destruct (Qlt_bool _ _);
         [destruct (CarControl.cancel CC);
          [destruct (has_flag (flags CP) (CANFD_ALT_BUTTONS HF))
          |destruct (CarControl.resume CC);
           [destruct (has_flag (flags CP) (CANFD_ALT_BUTTONS HF))|]]|]);
    cbn [snd fst accel_last last_button_frame set_accel_last set_last_button_frame];
    (split; [forall_msgs
            | split; [eexists; split; reflexivity
                     | split; [first [left; reflexivity | right; reflexivity]
                              | first [left; reflexivity | right; reflexivity]]]]).
Qed.

Lemma tester_present_fields angle req tq fault al acc st sub :
  Forall (sent_fields_agree angle req tq fault al acc) (tester_present ext HF CP st sub)
  /\ filter is_steer_cmd (tester_present ext HF CP st sub) = [].
Proof.
  unfold tester_present.
  destruct (_ && _ && _); [|split; [constructor | reflexivity]].
  destruct (has_flag (flags CP) (CANFD_LKA_STEERING HF));
    destruct (has_flag (flags CP) (ENABLE_BLINKERS HF));
    (split; [forall_msgs | reflexivity]).
Qed.

(** What the bus-specific part of a tick sends and stores. *)
Lemma bus_msgs_fields st sub req tq fault ss acc stp CS CC :
  let r := bus_msgs HF CP st sub req tq fault ss acc stp CS CC in
  Forall (sent_fields_agree (apply_angle_last st) req tq fault (accel_last st) acc) (snd r)
  /\ (exists m, filter is_steer_cmd (snd r) = [m]
                /\ (has_flag (flags CP) (CANFD HF) = true ->
                    steer_angle m = Some (apply_angle_last st)))
  /\ (accel_last (fst r) = accel_last st \/ accel_last (fst r) = acc)
  /\ (last_button_frame (fst r) = last_button_frame st
      \/ last_button_frame (fst r) = frame st).
Proof.
  unfold bus_msgs. destruct (has_flag (flags CP) (CANFD HF)).
  - destruct (create_canfd_msgs_fields fault st sub req tq ss acc stp
                (CarControl.hudControl CC) CS CC) as (F1 & (m & F2 & F3) & F4 & F5).
    repeat split; try assumption. exists m. split; [exact F2 | intros _; exact F3].
  - destruct (create_can_msgs_fields st sub req tq fault ss acc stp
                (CarControl.hudControl CC) (CarControl.actuators CC) CS CC)
      as (F1 & (m & F2) & F4 & F5).
    repeat split; try assumption; [|left; exact F4].
    exists m. split; [exact F2 | intros H; discriminate H].
Qed.

(** What a tick that returns has done, with the values it hands on. *)
Lemma update_Ok_full st sub CC CS st' act sends :
  update' st sub CC CS = Ok (st', act, sends) ->
  exists counter tq req,
    steering_command ext HF params CP VM self st CC CS
    = Ok (counter, Actuators.steeringAngleDeg act, tq, req)
    /\ Actuators.torqueOutputCan act = (if negb (CarControl.latActive CC) then 0 else tq)
    /\ apply_torque_last st' = Actuators.torqueOutputCan act
    /\ apply_angle_last st' = Actuators.steeringAngleDeg act
    /\ angle_limit_counter st' = counter
    /\ frame st' = (frame st + 1)%Z
    /\ fdiv (Actuators.torqueOutputCan act) (STEER_MAX params) = Ok (Actuators.torque act)
    /\ exists ss stp,
         let r := bus_msgs HF CP
                    (mid_state st counter (Actuators.steeringAngleDeg act)
                               (Actuators.torqueOutputCan act))
                    sub req (Actuators.torqueOutputCan act)
                    (CarControl.latActive CC && negb req) ss
                    (clip (Actuators.accel (CarControl.actuators CC))
                          (ACCEL_MIN params) (ACCEL_MAX params))
                    stp CS CC in
         last_button_frame st' = last_button_frame (fst r)
         /\ accel_last st' = accel_last (fst r)
         /\ sends = tester_present ext HF CP st sub ++ snd r.
Proof.
  unfold update. intros H.
  apply bind_Ok_inv in H. destruct H as [[[[counter angle] tq] req] [Hs H]].
  apply bind_Ok_inv in H. destruct H as [q [Hq H]].
  injection H as <- <- <-.
  match goal with
  | |- context [bus_msgs _ _ ?m _ _ _ ?fault ?ss ?acc ?stp _ _] =>
      pose proof (bus_msgs_core HF CP m sub req
                    (if negb (CarControl.latActive CC) then 0 else tq)
                    fault ss acc stp CS CC) as (Hf & Hc & Ht & Ha)
  end.
  simpl in Hf, Hc, Ht, Ha. cbn [Actuators.steeringAngleDeg Actuators.torqueOutputCan
                                 Actuators.torque apply_torque_last apply_angle_last
                                 angle_limit_counter frame last_button_frame accel_last].
  rewrite Hf, Hc, Ht, Ha.
  exists counter, tq, req.
  split; [exact Hs|]. split; [reflexivity|]. split; [reflexivity|].
  split; [reflexivity|]. split; [reflexivity|]. split; [reflexivity|].
  split; [exact Hq|].
  do 2 eexists. cbv zeta. split; [reflexivity|]. split; reflexivity.
Qed.

Lemma Forall_filter_one {A : Type} (P : A -> Prop) (p : A -> bool) (l : list A) (m : A) :
  Forall P l -> filter p l = [m] -> P m /\ p m = true.
Proof.
  intros Hall Hf.
  assert (Hin : In m (filter p l)) by (rewrite Hf; left; reflexivity).
  apply filter_In in Hin. destruct Hin as [Hin Hp].
  split; [|exact Hp]. rewrite Forall_forall in Hall. apply Hall. exact Hin.
Qed.

(** The messages of a tick, against what the tick echoes. *)
Lemma tick_fields st sub CC CS st' act sends :
  update' st sub CC CS = Ok (st', act, sends) ->
  exists counter tq req,
    steering_command ext HF params CP VM self st CC CS
    = Ok (counter, Actuators.steeringAngleDeg act, tq, req)
    /\ Actuators.torqueOutputCan act = (if negb (CarControl.latActive CC) then 0 else tq)
    /\ Forall (sent_fields_agree (Actuators.steeringAngleDeg act) req
                 (Actuators.torqueOutputCan act) (CarControl.latActive CC && negb req)
                 (accel_last st)
                 (clip (Actuators.accel (CarControl.actuators CC))
                       (ACCEL_MIN params) (ACCEL_MAX params))) sends
    /\ exists m, filter is_steer_cmd sends = [m]
                 /\ (has_flag (flags CP) (CANFD HF) = true ->
                     steer_angle m = Some (Actuators.steeringAngleDeg act)).
Proof.
  intros Hu. apply update_Ok_full in Hu.
  destruct Hu as (counter & tq & req & Hs & Hout & _ & _ & _ & _ & _ & ss & stp & Hr).
  cbv zeta in Hr. destruct Hr as (_ & _ & ->).
  exists counter, tq, req. split; [exact Hs|]. split; [exact Hout|].
  match goal with
  | |- context [bus_msgs _ _ ?m ?sb ?rq ?t ?f ?s1 ?a1 ?s2 _ _] =>
      pose proof (bus_msgs_fields m sb rq t f s1 a1 s2 CS CC) as (F1 & (m0 & F2 & F3) & _)
  end.
  cbn [apply_angle_last accel_last mid_state] in F1, F3.
  match type of F1 with
  | Forall (sent_fields_agree ?a ?rq ?t ?f ?al ?ac) _ =>
      pose proof (tester_present_fields a rq t f al ac st sub) as (T1 & T2)
  end.
  split.
  - apply Forall_app. split; assumption.
  - exists m0. rewrite filter_app, T2. simpl. split; assumption.
Qed.

End TickMore.

Section TickExtras.

Variable ext : Externals.
Variable HF : HyundaiFlags.
Variable params : CarControllerParams.
Variable CP : CarParams.
Variable VM : VehicleModel.
Variable self : Tuning.

Local Abbreviation update' := (update ext HF params CP VM self).
Local Abbreviation gmin := (min_torque_reduction_gain self).
Local Abbreviation gmax := (max_torque_reduction_gain self).

Lemma steering_command_torque_mode st CC CS :
  has_flag (flags CP) (CANFD_ANGLE_STEERING HF) = false ->
  exists r, steering_command ext HF params CP VM self st CC CS = Ok r.
Proof.
  intros Hf. unfold steering_command. rewrite Hf. simpl.
  destruct (common_fault_avoidance _ _ _ _ _ _). eexists; reflexivity.
Qed.

Lemma steering_command_angle_full st CC CS counter angle tq req :
  has_flag (flags CP) (CANFD_ANGLE_STEERING HF) = true ->
  steering_command ext HF params CP VM self st CC CS = Ok (counter, angle, tq, req) ->
  exists g,
    apply_hyundai_steer_angle_limits ext params VM self st CS CC
      (Actuators.steeringAngleDeg (CarControl.actuators CC)) = Ok angle
    /\ calculate_angle_torque_reduction_gain self st CS
         (Qabs (Actuators.torque (CarControl.actuators CC))) = Ok g
    /\ tq = clip g gmin gmax
    /\ req = CarControl.latActive CC && negb (Qeq_bool tq 0)
    /\ counter = angle_limit_counter st.
Proof.
  intros Hf. unfold steering_command, update_angle_steering_control.
  rewrite Hf. simpl. intros H.
  apply bind_Ok_inv in H. destruct H as [[a g] [H1 H2]].
  apply bind_Ok_inv in H1. destruct H1 as [a' [Ha H1]].
  apply bind_Ok_inv in H1. destruct H1 as [g' [Hg H1]].
  injection H1 as <- <-. injection H2 as <- <- <- <-.
  exists g'. auto.
Qed.

(** X9.  A tick returns exactly when [STEER_MAX] is not zero and, in angle
    mode, the limiter and the gain computation return: the smoothing tables
    are ones [np.interp] accepts whenever the table lookup is reached, and
    the override-cycle count is not zero whenever the wheel is pressed.  In
    torque mode a non-zero [STEER_MAX] is enough. *)
Theorem tick_returns_iff st sub CC CS :
  (exists r, update' st sub CC CS = Ok r)
  <-> (~ STEER_MAX params == 0
       /\ (has_flag (flags CP) (CANFD_ANGLE_STEERING HF) = true ->
           (smoothing_applies params self st CS
              (Actuators.steeringAngleDeg (CarControl.actuators CC)) = true ->
            tables_ok params)
           /\ (CarState.steeringPressed CS = true ->
               angle_torque_override_cycles self <> 0%Z))).
Proof.
  split.
  - intros [[[st' act] sends] Hu].
    pose proof Hu as Hi. apply update_Ok_inv in Hi.
    destruct Hi as (c & a & tq & req & Hsc & _ & _ & _ & _ & _ & Hd & _).
    split; [apply (fdiv_Ok_nonzero _ _ _ Hd)|].
    intros Hf.
    destruct (steering_command_angle_full st CC CS c a tq req Hf Hsc)
      as (g & Ha & Hg & _).
    split.
    + apply (proj1 (limiter_returns_iff ext params VM self st CS CC _)).
      eexists. exact Ha.
    + intros Hp Hz.
      assert (Hr : calculate_angle_torque_reduction_gain self st CS
                     (Qabs (Actuators.torque (CarControl.actuators CC)))
                   = Raise ZeroDivisionError)
        by (apply gain_raises_iff; auto).
      rewrite Hg in Hr. discriminate Hr.
  - intros [Hz Hang].
    assert (Hs : exists r, steering_command ext HF params CP VM self st CC CS = Ok r).
    { destruct (has_flag (flags CP) (CANFD_ANGLE_STEERING HF)) eqn:Hf;
        [|apply steering_command_torque_mode; exact Hf].
      destruct (Hang eq_refl) as [Ht Hc].
      apply (proj2 (limiter_returns_iff ext params VM self st CS CC _)) in Ht.
      destruct Ht as [a Ha].
      destruct (calculate_angle_torque_reduction_gain self st CS
                  (Qabs (Actuators.torque (CarControl.actuators CC)))) as [g|e] eqn:Hg.
      - eexists. apply (steering_command_angle ext HF params CP VM self st CC CS a g Hf Ha Hg).
      - exfalso. apply gain_raises_iff in Hg. destruct Hg as (_ & Hp & Hz0).
        apply (Hc Hp Hz0). }
    destruct Hs as [[[[c a] tq] req] Hs].
    destruct (update_total ext HF params CP VM self st sub CC CS c a tq req Hz Hs)
      as (st' & act & sends & Hu).
    eexists. exact Hu.
Qed.

(** X10.  On a tick where lateral control is inactive, in either steering
    mode and on either bus, the torque output is zero: it is echoed as 0,
    persisted as 0, and the steering message carries torque 0 and no torque
    fault. *)
Theorem inactive_tick_commands_no_torque st sub CC CS st' act sends :
  CarControl.latActive CC = false ->
  update' st sub CC CS = Ok (st', act, sends) ->
  Actuators.torqueOutputCan act = 0
  /\ Actuators.torque act == 0
  /\ apply_torque_last st' = 0
  /\ Forall (fun m => when_some (fun tq => tq = 0) (steer_torque m)
                      /\ when_some (fun f => f = false) (steer_fault m)) sends.
Proof.
  intros Hl Hu.
  pose proof Hu as Hfull. apply update_Ok_full in Hfull.
  destruct Hfull as (c0 & tq0 & req0 & _ & Ho0 & Htl & _ & _ & _ & Hd & _).
  apply tick_fields in Hu.
  destruct Hu as (c & tq & req & _ & Hout & Hall & _).
  rewrite Hl in Hout, Hall. simpl in Hout, Hall.
  split; [exact Hout|].
  split.
  { rewrite Hout in Hd. unfold fdiv in Hd.
    destruct (Qeq_bool (STEER_MAX params) 0); [discriminate Hd|].
    injection Hd as <-. unfold Qdiv. ring. }
  split; [congruence|].
  rewrite Hout in Hall.
  eapply Forall_impl; [|exact Hall].
  intros m (F1 & _ & F3 & _). split; assumption.
Qed.

Lemma steer_cmd_has_fields (m : msg) :
  is_steer_cmd m = true -> exists tq req, steer_torque m = Some tq /\ steer_req m = Some req.
Proof.
  destruct m; simpl; try discriminate; intros _; do 2 eexists; split; reflexivity.
Qed.

(** X11.  Every tick that returns sends exactly one steering command
    message (LKAS11 on the legacy bus, the steering messages on CAN FD); its
    torque is the one echoed as [torqueOutputCan], and on CAN FD its angle is
    the one echoed as [steeringAngleDeg]. *)
Theorem one_steering_command_per_tick st sub CC CS st' act sends :
  update' st sub CC CS = Ok (st', act, sends) ->
  exists m,
    filter is_steer_cmd sends = [m]
    /\ steer_torque m = Some (Actuators.torqueOutputCan act)
    /\ (has_flag (flags CP) (CANFD HF) = true ->
        steer_angle m = Some (Actuators.steeringAngleDeg act)).
Proof.
  intros Hu. apply tick_fields in Hu.
  destruct Hu as (c & tq & req & _ & _ & Hall & m & Hm & Hang).
  exists m. split; [exact Hm|]. split; [|exact Hang].
  destruct (Forall_filter_one _ _ _ _ Hall Hm) as [(F1 & _) Hp].
  destruct (steer_cmd_has_fields m Hp) as (t & r & Et & _).
  rewrite Et in F1 |- *. simpl in F1. congruence.
Qed.

(** X12.  In angle mode with 0 < minGain <= maxGain, the steering request
    bit of the steering command message is exactly the lateral-active flag,
    and the torque-fault bit is never set: the clamped gain cannot be zero. *)
Theorem angle_mode_request_follows_lat_active st sub CC CS st' act sends :
  has_flag (flags CP) (CANFD_ANGLE_STEERING HF) = true ->
  0 < gmin -> gmin <= gmax ->
  update' st sub CC CS = Ok (st', act, sends) ->
  exists m,
    filter is_steer_cmd sends = [m]
    /\ steer_req m = Some (CarControl.latActive CC)
    /\ Forall (fun m' => when_some (fun f => f = false) (steer_fault m')) sends.
Proof.
  intros Hf Hpos Hmm Hu. apply tick_fields in Hu.
  destruct Hu as (c & tq & req & Hsc & _ & Hall & m & Hm & _).
  destruct (steering_command_angle_full st CC CS c _ tq req Hf Hsc)
    as (g & _ & _ & Htq & Hreq & _).
  assert (Hb : gmin <= tq <= gmax) by (rewrite Htq; apply clip_bounds; exact Hmm).
  assert (Hnz : Qeq_bool tq 0 = false) by (apply Qeq_bool_false_iff; intros E; lra).
  rewrite Hnz in Hreq. simpl in Hreq. rewrite Bool.andb_true_r in Hreq.
  subst req. rewrite Bool.andb_negb_r in Hall.
  exists m. split; [exact Hm|]. split.
  - destruct (Forall_filter_one _ _ _ _ Hall Hm) as [(_ & F2 & _) Hp].
    destruct (steer_cmd_has_fields m Hp) as (t & r & _ & Er).
    rewrite Er in F2 |- *. simpl in F2. congruence.
  - eapply Forall_impl; [|exact Hall]. intros m' (_ & _ & F3 & _). exact F3.
Qed.

(** X13.  With ACCEL_MIN <= ACCEL_MAX, every longitudinal command a tick
    sends carries an acceleration within [ACCEL_MIN, ACCEL_MAX]; and when the
    persisted last acceleration is within these bounds it stays so, as does
    the previous acceleration carried by the CAN FD command. *)
Theorem sent_accel_within_bounds st sub CC CS st' act sends :
  ACCEL_MIN params <= ACCEL_MAX params ->
  update' st sub CC CS = Ok (st', act, sends) ->
  Forall (fun m => when_some (fun a => ACCEL_MIN params <= a <= ACCEL_MAX params)
                             (accel_of m)) sends
  /\ (ACCEL_MIN params <= accel_last st <= ACCEL_MAX params ->
      ACCEL_MIN params <= accel_last st' <= ACCEL_MAX params
      /\ Forall (fun m => when_some (fun a => ACCEL_MIN params <= a <= ACCEL_MAX params)
                                    (accel_last_of m)) sends).
Proof.
  intros Hmm Hu.
  pose proof Hu as Hfull. apply update_Ok_full in Hfull.
  destruct Hfull as (c0 & tq0 & req0 & _ & _ & _ & _ & _ & _ & _ & ss & stp & Hr).
  cbv zeta in Hr. destruct Hr as (_ & Hal & _).
  apply tick_fields in Hu.
  destruct Hu as (c & tq & req & _ & _ & Hall & _).
  set (acc := clip (Actuators.accel (CarControl.actuators CC))
                   (ACCEL_MIN params) (ACCEL_MAX params)) in *.
  assert (Hacc : ACCEL_MIN params <= acc <= ACCEL_MAX params)
    by (apply clip_bounds; exact Hmm).
  split.
  - eapply Forall_impl; [|exact Hall].
    intros m (_ & _ & _ & _ & F5 & _).
    destruct (accel_of m); simpl in *; [subst; exact Hacc | exact I].
  - intros Hlast. split.
    + match type of Hal with
      | _ = accel_last (fst (bus_msgs _ _ ?m ?sb ?rq ?t ?f ?s1 ?a1 ?s2 _ _)) =>
          pose proof (bus_msgs_fields HF CP m sb rq t f s1 a1 s2 CS CC) as (_ & _ & F & _)
      end.
      cbv zeta in F. cbn [accel_last mid_state] in F.
      rewrite Hal. destruct F as [-> | ->]; assumption.
    + eapply Forall_impl; [|exact Hall].
      intros m (_ & _ & _ & _ & _ & F6).
      destruct (accel_last_of m); simpl in *; [subst; exact Hlast | exact I].
Qed.

End TickExtras.

Section SchedulerExtras.

Variable ext : Externals.
Variable HF : HyundaiFlags.
Variable params : CarControllerParams.
Variable CP : CarParams.
Variable VM : VehicleModel.
Variable self : Tuning.

Local Abbreviation update' := (update ext HF params CP VM self).
Local Abbreviation tick' := (tick ext HF params CP VM self).
Local Abbreviation run' := (run ext HF params CP VM self).

(** The sends and the latches of a tick, in terms of the scheduler's. *)
Lemma tick_sends st sub CC CS st' act sends :
  update' st sub CC CS = Ok (st', act, sends) ->
  exists c a tq req fault ss acc stp,
    let r := bus_msgs HF CP (mid_state st c a tq) sub req tq fault ss acc stp CS CC in
    sends = tester_present ext HF CP st sub ++ snd r
    /\ last_button_frame st' = last_button_frame (fst r)
    /\ accel_last st' = accel_last (fst r)
    /\ frame st' = (frame st + 1)%Z.
Proof.
  intros Hu. apply update_Ok_full in Hu.
  destruct Hu as (c & tq & req & _ & _ & _ & _ & _ & Hfr & _ & ss & stp & Hr).
  cbv zeta in Hr. destruct Hr as (H1 & H2 & H3).
  do 8 eexists. cbv zeta. repeat split; eassumption.
Qed.

Lemma canfd_sends_self_managed st sub req tq ss acc stp hud CS CC :
  openpilotLongitudinalControl CP = true ->
  let r := create_canfd_msgs HF CP st sub req tq ss acc stp hud CS CC in
  count_msgs is_button_msg (snd r) = 0%nat
  /\ count_msgs is_tester_present (snd r) = 0%nat
  /\ last_button_frame (fst r) = last_button_frame st.
Proof.
  intros Hlong. unfold create_canfd_msgs. rewrite Hlong.
  destruct (interceptor_available sub);
    destruct (has_flag (flags CP) (CANFD_LKA_STEERING HF));
    destruct (frame st mod 5 =? 0)%Z;
    destruct (has_flag (flags CP) (ENABLE_BLINKERS HF));
    destruct (frame st mod 2 =? 0)%Z; repeat split; reflexivity.
Qed.

Lemma canfd_sends_stock st sub req tq ss acc stp hud CS CC :
  openpilotLongitudinalControl CP = false ->
  let r := create_canfd_msgs HF CP st sub req tq ss acc stp hud CS CC in
  let d := (frame st - last_button_frame st)%Z in
  count_msgs is_longitudinal_msg (snd r) = 0%nat
  /\ accel_last (fst r) = accel_last st
  /\ filter is_button_msg (snd r)
     = (if (25 <? d)%Z then
          if CarControl.cancel CC then
            if has_flag (flags CP) (CANFD_ALT_BUTTONS HF) then [create_acc_cancel]
            else repeat (create_buttons (CarState.buttons_counter CS + 1) CANCEL) 20
          else if CarControl.resume CC then
            if has_flag (flags CP) (CANFD_ALT_BUTTONS HF) then []
            else repeat (create_buttons (CarState.buttons_counter CS + 1) RES_ACCEL) 20
          else []
        else [])
  /\ last_button_frame (fst r)
     = (if (25 <? d)%Z
           && (CarControl.cancel CC
               || (CarControl.resume CC
                   && negb (has_flag (flags CP) (CANFD_ALT_BUTTONS HF))))
        then frame st else last_button_frame st).
Proof.
  intros Hlong. unfold create_canfd_msgs. rewrite Hlong, elapsed_gt_quarter.
  destruct (25 <? frame st - last_button_frame st)%Z;
    destruct (CarControl.cancel CC); destruct (CarControl.resume CC);
    destruct (has_flag (flags CP) (CANFD_ALT_BUTTONS HF));
    destruct (interceptor_available sub);
    destruct (has_flag (flags CP) (CANFD_LKA_STEERING HF));
    destruct (frame st mod 5 =? 0)%Z;
    destruct (has_flag (flags CP) (ENABLE_BLINKERS HF));
    repeat split; reflexivity.
Qed.

Lemma can_sends_self_managed st sub req tq fault ss acc stp hud act CS CC :
  openpilotLongitudinalControl CP = true ->
  let r := create_can_msgs HF CP st sub req tq fault ss acc stp hud act CS CC in
  count_msgs is_button_msg (snd r) = 0%nat
  /\ last_button_frame (fst r) = last_button_frame st.
Proof.
  intros Hlong. unfold create_can_msgs.
  destruct (process_hud_alert _ _ _) as [[[w s] l] r0].
  rewrite Hlong. simpl negb. cbv iota. cbn [frame].
  destruct (frame st mod 2 =? 0)%Z; destruct (frame st mod 5 =? 0)%Z;
    destruct (has_flag (flags CP) (SEND_LFA HF));
    destruct (frame st mod 20 =? 0)%Z; destruct (frame st mod 50 =? 0)%Z;
    destruct (ESCC_enabled sub); split; reflexivity.
Qed.

Lemma can_sends_stock st sub req tq fault ss acc stp hud act CS CC :
  openpilotLongitudinalControl CP = false ->
  let r := create_can_msgs HF CP st sub req tq fault ss acc stp hud act CS CC in
  let d := (frame st - last_button_frame st)%Z in
  count_msgs is_longitudinal_msg (snd r) = 0%nat
  /\ count_msgs is_tester_present (snd r) = 0%nat
  /\ accel_last (fst r) = accel_last st
  /\ filter is_button_msg (snd r)
     = (if CarControl.cancel CC then [create_clu11 (frame st) CANCEL]
        else if CarControl.resume CC && (10 <? d)%Z
             then repeat (create_clu11 (frame st) RES_ACCEL) 25
             else [])
  /\ last_button_frame (fst r)
     = (if negb (CarControl.cancel CC) && CarControl.resume CC && (15 <=? d)%Z
        then frame st else last_button_frame st).
Proof.
  intros Hlong. unfold create_can_msgs.
  destruct (process_hud_alert _ _ _) as [[[w s] l] r0].
  rewrite Hlong, elapsed_gt_tenth, elapsed_ge_latch. simpl negb. cbv iota.
  destruct (CarControl.cancel CC); destruct (CarControl.resume CC);
    destruct (Z.ltb_spec 10 (frame st - last_button_frame st));
    destruct (Z.leb_spec 15 (frame st - last_button_frame st));
    try lia; cbv iota beta; cbn [frame set_last_button_frame andb negb];
    rewrite !Bool.andb_false_r; cbn [andb];
    destruct ((frame st mod 5 =? 0)%Z && has_flag (flags CP) (SEND_LFA HF));
    repeat split; reflexivity.
Qed.

Lemma tester_present_stock st sub :
  openpilotLongitudinalControl CP = false -> tester_present ext HF CP st sub = [].
Proof.
  intros Hlong. unfold tester_present. rewrite Hlong, Bool.andb_false_r. reflexivity.
Qed.

(** X14.  With longitudinal control self-managed, a tick sends no button or
    cruise-cancel message on either bus, whatever the cancel and resume
    requests are, and leaves the last-button-frame latch where it was. *)
Theorem self_managed_sends_no_buttons st sub CC CS st' act sends :
  openpilotLongitudinalControl CP = true ->
  update' st sub CC CS = Ok (st', act, sends) ->
  count_msgs is_button_msg sends = 0%nat
  /\ last_button_frame st' = last_button_frame st.
Proof.
  intros Hlong Hu. apply tick_sends in Hu.
  destruct Hu as (c & a & tq & req & fault & ss & acc & stp & Hr).
  cbv zeta in Hr. destruct Hr as (-> & -> & _ & _).
  pose proof (tester_present_counts ext HF CP st sub) as (_ & _ & _ & _ & _ & _ & T7).
  rewrite count_msgs_app, T7. unfold bus_msgs.
  destruct (has_flag (flags CP) (CANFD HF)).
  - destruct (canfd_sends_self_managed (mid_state st c a tq) sub req tq ss acc stp
                (CarControl.hudControl CC) CS CC Hlong) as (F1 & _ & F3).
    split; [exact F1 | exact F3].
  - destruct (can_sends_self_managed (mid_state st c a tq) sub req tq fault ss acc stp
                (CarControl.hudControl CC) (CarControl.actuators CC) CS CC Hlong)
      as (F1 & F3).
    split; [exact F1 | exact F3].
Qed.

(** X15.  With longitudinal control left to the car, a tick sends none of
    the longitudinal messages (tester present, acceleration commands, ACC
    options, radar options, ADAS-driving, FCA warning light) on either bus,
    and leaves the persisted last acceleration where it was. *)
Theorem stock_longitudinal_sends_no_commands st sub CC CS st' act sends :
  openpilotLongitudinalControl CP = false ->
  update' st sub CC CS = Ok (st', act, sends) ->
  count_msgs is_longitudinal_msg sends = 0%nat
  /\ accel_last st' = accel_last st.
Proof.
  intros Hlong Hu. apply tick_sends in Hu.
  destruct Hu as (c & a & tq & req & fault & ss & acc & stp & Hr).
  cbv zeta in Hr. destruct Hr as (-> & _ & -> & _).
  rewrite (tester_present_stock st sub Hlong). simpl app. unfold bus_msgs.
  destruct (has_flag (flags CP) (CANFD HF)).
  - destruct (canfd_sends_stock (mid_state st c a tq) sub req tq ss acc stp
                (CarControl.hudControl CC) CS CC Hlong) as (F1 & F2 & _).
    split; [exact F1 | exact F2].
  - destruct (can_sends_stock (mid_state st c a tq) sub req tq fault ss acc stp
                (CarControl.hudControl CC) (CarControl.actuators CC) CS CC Hlong)
      as (F1 & _ & F2 & _).
    split; [exact F1 | exact F2].
Qed.

(** The button messages of a tick when longitudinal control is left to the
    car, on either bus. *)
Lemma stock_buttons st sub CC CS st' act sends :
  openpilotLongitudinalControl CP = false ->
  update' st sub CC CS = Ok (st', act, sends) ->
  exists r,
    filter is_button_msg sends = filter is_button_msg (snd r)
    /\ last_button_frame st' = last_button_frame (fst r)
    /\ frame st' = (frame st + 1)%Z
    /\ exists c a tq req fault ss acc stp,
         r = bus_msgs HF CP (mid_state st c a tq) sub req tq fault ss acc stp CS CC.
Proof.
  intros Hlong Hu. apply tick_sends in Hu.
  destruct Hu as (c & a & tq & req & fault & ss & acc & stp & Hr).
  cbv zeta in Hr. destruct Hr as (-> & H2 & _ & H4).
  eexists. rewrite (tester_present_stock st sub Hlong). simpl app.
  split; [reflexivity|]. split; [exact H2|]. split; [exact H4|].
  do 8 eexists. reflexivity.
Qed.

(** X16.  On the legacy bus with longitudinal control left to the car, a
    cancel request sends exactly one cancel button message on that very
    tick, whatever the time since the last button frame; it takes priority
    over a resume request made on the same tick, and does not move the
    latch. *)
Theorem legacy_cancel_is_immediate st sub CC CS st' act sends :
  has_flag (flags CP) (CANFD HF) = false ->
  openpilotLongitudinalControl CP = false ->
  CarControl.cancel CC = true ->
  update' st sub CC CS = Ok (st', act, sends) ->
  filter is_button_msg sends = [create_clu11 (frame st) CANCEL]
  /\ last_button_frame st' = last_button_frame st.
Proof.
  intros Hb Hlong Hc Hu.
  destruct (stock_buttons st sub CC CS st' act sends Hlong Hu)
    as (r & -> & -> & _ & c & a & tq & req & fault & ss & acc & stp & ->).
  unfold bus_msgs. rewrite Hb.
  destruct (can_sends_stock (mid_state st c a tq) sub req tq fault ss acc stp
              (CarControl.hudControl CC) (CarControl.actuators CC) CS CC Hlong)
    as (_ & _ & _ & F4 & F5).
  rewrite F4, F5, Hc. split; reflexivity.
Qed.

(** X17.  On the CAN FD bus with longitudinal control left to the car, a
    tick on which at most 25 ticks have passed since the last button frame
    sends no button message, cancel requests included, and does not move
    the latch. *)
Theorem canfd_buttons_are_throttled st sub CC CS st' act sends :
  has_flag (flags CP) (CANFD HF) = true ->
  openpilotLongitudinalControl CP = false ->
  (frame st - last_button_frame st <= 25)%Z ->
  update' st sub CC CS = Ok (st', act, sends) ->
  filter is_button_msg sends = []
  /\ last_button_frame st' = last_button_frame st.
Proof.
  intros Hb Hlong Hd Hu.
  destruct (stock_buttons st sub CC CS st' act sends Hlong Hu)
    as (r & -> & -> & _ & c & a & tq & req & fault & ss & acc & stp & ->).
  unfold bus_msgs. rewrite Hb.
  destruct (canfd_sends_stock (mid_state st c a tq) sub req tq ss acc stp
              (CarControl.hudControl CC) CS CC Hlong) as (_ & _ & F3 & F4).
  rewrite F3, F4. cbn [frame last_button_frame mid_state].
  destruct (Z.ltb_spec 25 (frame st - last_button_frame st)); [lia|].
  split; reflexivity.
Qed.

(** X18.  On the CAN FD bus with longitudinal control left to the car, a
    cancel request on a tick where more than 25 ticks have passed since the
    last button frame sends one ACC-cancel message on an alt-button platform
    and 20 cancel button messages (counter + 1) otherwise, whatever the
    resume request is, and sets the latch to the current frame. *)
Theorem canfd_cancel_batch st sub CC CS st' act sends :
  has_flag (flags CP) (CANFD HF) = true ->
  openpilotLongitudinalControl CP = false ->
  CarControl.cancel CC = true ->
  (25 < frame st - last_button_frame st)%Z ->
  update' st sub CC CS = Ok (st', act, sends) ->
  filter is_button_msg sends
  = (if has_flag (flags CP) (CANFD_ALT_BUTTONS HF) then [create_acc_cancel]
     else repeat (create_buttons (CarState.buttons_counter CS + 1) CANCEL) 20)
  /\ last_button_frame st' = frame st.
Proof.
  intros Hb Hlong Hc Hd Hu.
  destruct (stock_buttons st sub CC CS st' act sends Hlong Hu)
    as (r & -> & -> & _ & c & a & tq & req & fault & ss & acc & stp & ->).
  unfold bus_msgs. rewrite Hb.
  destruct (canfd_sends_stock (mid_state st c a tq) sub req tq ss acc stp
              (CarControl.hudControl CC) CS CC Hlong) as (_ & _ & F3 & F4).
  rewrite F3, F4, Hc. cbn [frame last_button_frame mid_state].
  destruct (Z.ltb_spec 25 (frame st - last_button_frame st)); [|lia].
  split; reflexivity.
Qed.

End SchedulerExtras.

Section RunExtras.

Variable ext : Externals.
Variable HF : HyundaiFlags.
Variable params : CarControllerParams.
Variable CP : CarParams.
Variable VM : VehicleModel.
Variable self : Tuning.

Local Abbreviation update' := (update ext HF params CP VM self).
Local Abbreviation tick' := (tick ext HF params CP VM self).
Local Abbreviation run' := (run ext HF params CP VM self).




Lemma bus_msgs_no_tester st sub req tq fault ss acc stp CS CC :
  count_msgs is_tester_present
    (snd (bus_msgs HF CP st sub req tq fault ss acc stp CS CC)) = 0%nat.
Proof.
  unfold bus_msgs. destruct (has_flag (flags CP) (CANFD HF)).
  - destruct (openpilotLongitudinalControl CP) eqn:Hlong.
    + apply (canfd_sends_self_managed HF CP st sub req tq ss acc stp
               (CarControl.hudControl CC) CS CC Hlong).
    + unfold create_canfd_msgs. rewrite Hlong.
      destruct (Qlt_bool _ _);
        destruct (CarControl.cancel CC); destruct (CarControl.resume CC);
        destruct (has_flag (flags CP) (CANFD_ALT_BUTTONS HF));
        destruct (interceptor_available sub);
        destruct (has_flag (flags CP) (CANFD_LKA_STEERING HF));
        destruct (frame st mod 5 =? 0)%Z;
        destruct (has_flag (flags CP) (ENABLE_BLINKERS HF));
        reflexivity.
  - destruct (openpilotLongitudinalControl CP) eqn:Hlong.
    + apply (create_can_msgs_long HF CP st sub req tq fault ss acc stp
               (CarControl.hudControl CC) (CarControl.actuators CC) CS CC Hlong).
    + apply (can_sends_stock HF CP st sub req tq fault ss acc stp
               (CarControl.hudControl CC) (CarControl.actuators CC) CS CC Hlong).
Qed.

(** X20.  On either bus, a tick sends tester-present messages only on a
    frame divisible by 100 with longitudinal control self-managed and none of
    camera SCC, ESCC and the ADAS interceptor in place; it then sends one,
    or two when the blinker flag is set. *)
Theorem tester_present_gate st sub CC CS st' act sends :
  update' st sub CC CS = Ok (st', act, sends) ->
  count_msgs is_tester_present sends
  = (if (frame st mod 100 =? 0)%Z
        && negb (has_flag (flags CP) (CANFD_CAMERA_SCC HF)
                 || ESCC_enabled sub || interceptor_available sub)
        && openpilotLongitudinalControl CP
     then (if has_flag (flags CP) (ENABLE_BLINKERS HF) then 2 else 1) else 0)%nat.
Proof.
  intros Hu. apply tick_sends in Hu.
  destruct Hu as (c & a & tq & req & fault & ss & acc & stp & Hr).
  cbv zeta in Hr. destruct Hr as (-> & _).
  rewrite count_msgs_app, bus_msgs_no_tester, Nat.add_0_r.
  apply (tester_present_counts ext HF CP st sub).
Qed.

(** A run that returns, one tick after the other. *)
Lemma run_Ok_cons st i ins st' outs :
  run' st (i :: ins) = Ok (st', outs) ->
  exists st1 act sends outs',
    tick' st i = Ok (st1, act, sends)
    /\ run' st1 ins = Ok (st', outs')
    /\ outs = (act, sends) :: outs'.
Proof.
  simpl. intros H.
  apply bind_Ok_inv in H. destruct H as [[[st1 act] sends] [Hu H]].
  apply bind_Ok_inv in H. destruct H as [[st2 outs'] [Hr H]].
  injection H as <- <-. exists st1, act, sends, outs'. auto.
Qed.

Lemma last_cons_default {A : Type} (l : list A) (x d : A) :
  last (x :: l) d = last l x.
Proof.
  revert x d. induction l as [|y l IH]; intros x d; [reflexivity|].
  change (last (x :: y :: l) d) with (last (y :: l) d).
  rewrite (IH y d), (IH y x). reflexivity.
Qed.

Lemma run_bookkeeping ins :
  forall st st' outs,
    run' st ins = Ok (st', outs) ->
    length outs = length ins
    /\ frame st' = (frame st + Z.of_nat (length ins))%Z
    /\ ((0 <= last_button_frame st <= frame st)%Z ->
        (0 <= last_button_frame st' <= frame st')%Z)
    /\ apply_torque_last st' = last (echoed_gains outs) (apply_torque_last st)
    /\ apply_angle_last st' = last (echoed_angles outs) (apply_angle_last st).
Proof.
  induction ins as [|i ins IH]; intros st st' outs Hr.
  - simpl in Hr. injection Hr as <- <-. simpl. repeat split; try lia; tauto.
  - apply run_Ok_cons in Hr.
    destruct Hr as (st1 & act & sends & outs' & Hu & Hr & ->).
    destruct (IH st1 st' outs' Hr) as (I1 & I2 & I3 & I4 & I5).
    pose proof Hu as Hfull. unfold tick in Hfull. apply update_Ok_full in Hfull.
    destruct Hfull as (c & tq & req & _ & _ & Htl & Hal & _ & Hfr & _ & ss & stp & Hb).
    cbv zeta in Hb. destruct Hb as (Hlb & _ & _).
    match type of Hlb with
    | _ = last_button_frame (fst (bus_msgs _ _ ?m ?sb ?rq ?t ?f ?s1 ?a1 ?s2 _ _)) =>
        pose proof (bus_msgs_fields HF CP m sb rq t f s1 a1 s2 (in_CS i) (in_CC i))
          as (_ & _ & _ & F)
    end.
    cbv zeta in F. cbn [last_button_frame frame mid_state] in F. rewrite <- Hlb in F.
    split; [simpl; congruence|].
    split; [rewrite I2, Hfr; simpl length; lia|].
    split; [intros H; apply I3; destruct F as [F|F]; rewrite F, Hfr; lia|].
    unfold echoed_gains, echoed_angles in *. cbn [map fst].
    split.
    + rewrite last_cons_default, I4, Htl. reflexivity.
    + rewrite last_cons_default, I5, Hal. reflexivity.
Qed.

(** X21.  Along any run from the initial state that returns: there is one
    output per tick, the frame counter equals the number of ticks, the
    last-button-frame latch stays between 0 and the frame counter, and the
    persisted last torque and last angle are the ones echoed by the last
    tick. *)
Theorem run_keeps_the_books ins st' outs :
  run' init_state ins = Ok (st', outs) ->
  length outs = length ins
  /\ frame st' = Z.of_nat (length ins)
  /\ (0 <= last_button_frame st' <= frame st')%Z
  /\ apply_torque_last st' = last (echoed_gains outs) 0
  /\ apply_angle_last st' = last (echoed_angles outs) 0.
Proof.
  intros Hr. destruct (run_bookkeeping ins init_state st' outs Hr)
    as (I1 & I2 & I3 & I4 & I5).
  split; [exact I1|]. split; [exact I2|].
  split; [apply I3; simpl; lia|]. split; assumption.
Qed.

(** X22.  Re-engagement starts from the measured angle: in angle mode,
    after a tick with lateral control inactive, the command of an active
    tick is within the rate cap of the previous tick's true steering angle
    (clamped to the static maximum) whenever that angle lies in the envelope
    of the current speed. *)
Theorem reengagement_starts_from_true_angle st i1 i2 :
  well_formed params self ->
  has_flag (flags CP) (CANFD_ANGLE_STEERING HF) = true ->
  CarControl.latActive (in_CC i1) = false ->
  CarControl.latActive (in_CC i2) = true ->
  0 <= kinematicRateCap ext VM (CarState.vEgoRaw (in_CS i2)) ->
  0 <= kinematicMaxAngle ext VM (CarState.vEgoRaw (in_CS i2)) ->
  0 <= STEER_ANGLE_MAX params ->
  in_envelope ext params VM (CarState.vEgoRaw (in_CS i2))
    (clip (CarState.steeringAngleDeg (in_CS i1))
          (- STEER_ANGLE_MAX params) (STEER_ANGLE_MAX params)) ->
  exists st' a1 s1 a2 s2,
    run' st [i1; i2] = Ok (st', [(a1, s1); (a2, s2)])
    /\ Actuators.steeringAngleDeg a1
       = clip (CarState.steeringAngleDeg (in_CS i1))
              (- STEER_ANGLE_MAX params) (STEER_ANGLE_MAX params)
    /\ Qabs (Actuators.steeringAngleDeg a2 - Actuators.steeringAngleDeg a1)
       <= rate_cap ext VM (CarState.vEgoRaw (in_CS i2)).
Proof.
  intros Hwf Hf Hl1 Hl2 Hd HA HM Henv.
  destruct (update_angle_step ext HF params CP VM self st (in_sub i1) (in_CC i1) (in_CS i1)
              Hwf Hf)
    as (a & g & st1 & act1 & s1 & Ha & _ & Hu1 & _ & Hl & He & _).
  rewrite (limiter_inactive ext params VM self st (in_CS i1) (in_CC i1) _
             (proj2 (proj2 Hwf)) Hl1) in Ha.
  injection Ha as <-.
  destruct (update_angle_step ext HF params CP VM self st1 (in_sub i2) (in_CC i2) (in_CS i2)
              Hwf Hf)
    as (a2 & g2 & st2 & act2 & s2 & Ha2 & _ & Hu2 & _ & _ & He2 & _).
  destruct (limiter_active_step ext params VM self st1 (in_CS i2) (in_CC i2) _ a2
              Hl2 Ha2 Hd HA HM) as [_ Hstep].
  rewrite Hl in Hstep. specialize (Hstep Henv).
  exists st2, act1, s1, act2, s2.
  split; [simpl; unfold tick; rewrite Hu1; simpl; rewrite Hu2; reflexivity|].
  split; [exact He|].
  rewrite He, He2. exact Hstep.
Qed.

End RunExtras.

(** ** HUD state and tuning overrides *)


(** X24.  A tuning gain read at construction: a missing key gives the
    default; a stored number [n] gives [n / 100], except that a stored 0
    gives the default; so with a non-zero default the gain is never 0. *)
Theorem tuned_gain_cases (PyVal : Type) (py_float : PyVal -> result Q)
        (stored : option PyVal) (default g : Q) :
  tuned_gain PyVal py_float stored default = Ok g ->
  (stored = None -> g = default)
  /\ (forall v n, stored = Some v -> py_float v = Ok n ->
      (n == 0 -> g = default) /\ (~ n == 0 -> g == n / 100))
  /\ (~ default == 0 -> ~ g == 0).
Proof.
  unfold tuned_gain, parse_tq_rdc_gain. intros H.
  destruct stored as [v|].
  - apply bind_Ok_inv in H. destruct H as [o [Ho H]].
    apply bind_Ok_inv in Ho. destruct Ho as [f [Hf Ho]].
    rewrite fdiv_Ok in Ho by (intros E; discriminate E). simpl in Ho.
    injection Ho as <-. injection H as <-.
    assert (Hq : f / 100 == 0 <-> f == 0).
    { split; intros E; [|rewrite E; reflexivity].
      assert (E' : f == f / 100 * 100) by (field). rewrite E' , E. reflexivity. }
    split; [discriminate|]. split.
    + intros v' n Hv Hn. injection Hv as <-. rewrite Hf in Hn. injection Hn as <-.
      split; intros E.
      * apply Hq in E. apply Qeq_bool_iff in E. rewrite E. reflexivity.
      * assert (E' : Qeq_bool (f / 100) 0 = false)
          by (apply Qeq_bool_false_iff; intros X; apply E; apply Hq; exact X).
        rewrite E'. reflexivity.
    + intros Hd. destruct (Qeq_bool (f / 100) 0) eqn:E; [exact Hd|].
      apply Qeq_bool_false_iff. exact E.
  - simpl in H. injection H as <-.
    split; [reflexivity|]. split; [discriminate | auto].
Qed.

(** X25.  The override-cycle count read at construction is not guarded
    against zero the way the gains are: a stored value that is true and
    converts to the integer 0 is taken as it is.  With the count so read, the
    gain computation raises [ZeroDivisionError] on a pressed wheel exactly
    when the stored value is true and converts to 0, or it is missing or
    false and the default is 0. *)
Theorem tuned_cycles_zero_raises (PyVal : Type) (py_int : PyVal -> result Z)
        (py_truthy : PyVal -> bool) (stored : option PyVal) (default : Z)
        (self : Tuning) (st : State) (CS : CarState.t) (target : Q) :
  tuned_cycles PyVal py_int py_truthy stored default
  = Ok (angle_torque_override_cycles self) ->
  CarState.steeringPressed CS = true ->
  (calculate_angle_torque_reduction_gain self st CS target = Raise ZeroDivisionError
   <-> match stored with
       | Some v => if py_truthy v then py_int v = Ok 0%Z else default = 0%Z
       | None => default = 0%Z
       end).
Proof.
  intros Hc Hp.
  assert (Hiff : calculate_angle_torque_reduction_gain self st CS target
                 = Raise ZeroDivisionError
                 <-> angle_torque_override_cycles self = 0%Z).
  { rewrite gain_raises_iff. split; [intros (_ & _ & H); exact H | auto]. }
  rewrite Hiff. unfold tuned_cycles in Hc.
  destruct stored as [v|]; [destruct (py_truthy v)|].
  - rewrite Hc. split; [intros ->; reflexivity | intros H; injection H as H; exact H].
  - injection Hc as Hc. rewrite <- Hc. tauto.
  - injection Hc as Hc. rewrite <- Hc. tauto.
Qed.


(** ** Evaluation of the further properties on the sample configuration *)

Ltac Qcmp :=
  vm_compute; first [reflexivity | let H := fresh in intros H; discriminate H].

Lemma active_angle_within_lateral_accel_bound_witness :
  exists a,
    apply_hyundai_steer_angle_limits Sample.ext Sample.params Sample.VM Sample.self
      init_state (in_CS Sample.i_active) (in_CC Sample.i_active) 10 = Ok a
    /\ - kinematicMaxAngle Sample.ext Sample.VM (CarState.vEgoRaw (in_CS Sample.i_active)) <= a
    /\ a <= kinematicMaxAngle Sample.ext Sample.VM (CarState.vEgoRaw (in_CS Sample.i_active)).
Proof.
  eexists. split; [vm_compute; reflexivity|].
  apply (active_angle_within_lateral_accel_bound Sample.ext Sample.params Sample.VM
           Sample.self init_state (in_CS Sample.i_active) (in_CC Sample.i_active) 10).
  - reflexivity.
  - Qcmp.
  - Qcmp.
  - vm_compute. reflexivity.
Defined.

Lemma limiter_holds_steady_witness :
  exists a,
    apply_hyundai_steer_angle_limits Sample.ext Sample.params Sample.VM Sample.self
      init_state (in_CS Cases.i_hold) (in_CC Cases.i_hold) (apply_angle_last init_state)
    = Ok a
    /\ a == apply_angle_last init_state.
Proof.
  apply (limiter_holds_steady Sample.ext Sample.params Sample.VM Sample.self
           init_state (in_CS Cases.i_hold) (in_CC Cases.i_hold)).
  - reflexivity.
  - split; Qcmp.
  - split; split; Qcmp.
  - Qcmp.
Defined.

Lemma smoothing_stays_between_witness :
  exists r,
    sp_smooth_angle Sample.params 5 10 0 = Ok r
    /\ Qmin 10 0 <= r /\ r <= Qmax 10 0.
Proof.
  eexists. split; [vm_compute; reflexivity|].
  apply (smoothing_stays_between Sample.params 5 10 0).
  - repeat constructor; Qcmp.
  - vm_compute. reflexivity.
Defined.

Lemma gain_steps_towards_target_witness :
  exists g,
    calculate_angle_torque_reduction_gain Sample.self Sample.st_full_gain
      (in_CS Sample.i_active) (1 # 2) = Ok g
    /\ Qmin (apply_torque_last Sample.st_full_gain) (gain_target Sample.self (1 # 2)) <= g
    /\ g <= Qmax (apply_torque_last Sample.st_full_gain) (gain_target Sample.self (1 # 2))
    /\ Qabs (g - gain_target Sample.self (1 # 2))
       <= Qmax (Qabs (apply_torque_last Sample.st_full_gain
                      - gain_target Sample.self (1 # 2))
                - Qmin (ramp_down_reduction_gain_rate Sample.self)
                       (ramp_up_reduction_gain_rate Sample.self)) 0.
Proof.
  apply (gain_steps_towards_target Sample.self Sample.st_full_gain
           (in_CS Sample.i_active) (1 # 2)).
  - reflexivity.
  - Qcmp.
  - Qcmp.
Defined.

Lemma gain_converges_to_target_witness :
  exists st' outs,
    Platforms.angle_run Sample.st_full_gain (repeat Sample.i_active 3) = Ok (st', outs)
    /\ length outs = length (repeat Sample.i_active 3)
    /\ (forall t, (t < length outs)%nat ->
        (1 # 2 <= nth t (apply_torque_last Sample.st_full_gain :: echoed_gains outs) 0 ->
         1 # 2 <= nth t (echoed_gains outs) 0
         /\ nth t (echoed_gains outs) 0
            <= nth t (apply_torque_last Sample.st_full_gain :: echoed_gains outs) 0)
        /\ (nth t (apply_torque_last Sample.st_full_gain :: echoed_gains outs) 0 <= 1 # 2 ->
            nth t (apply_torque_last Sample.st_full_gain :: echoed_gains outs) 0
            <= nth t (echoed_gains outs) 0
            /\ nth t (echoed_gains outs) 0 <= 1 # 2))
    /\ (forall t, (t < length outs)%nat ->
        Qabs (apply_torque_last Sample.st_full_gain - (1 # 2))
        <= Qmin (ramp_down_reduction_gain_rate Sample.self)
                (ramp_up_reduction_gain_rate Sample.self) * inject_Z (Z.of_nat (S t)) ->
        nth t (echoed_gains outs) 0 == 1 # 2).
Proof.
  apply (gain_converges_to_target Sample.ext Sample.HF Sample.params Sample.CP_angle
           Sample.VM Sample.self (1 # 2) Sample.st_full_gain (repeat Sample.i_active 3)).
  - exact sample_well_formed.
  - reflexivity.
  - Qcmp.
  - Qcmp.
  - Qcmp.
  - Qcmp.
  - apply Forall_repeat. split; [reflexivity|]. split; reflexivity.
  - split; Qcmp.
Defined.

Ltac returned E :=
  unfold holds_on;
  match goal with
  | |- match ?t with Ok _ => _ | Raise _ => _ end =>
      destruct t as [[[? ?] ?]|?] eqn:E; [|vm_compute in E; discriminate E]
  end.

Ltac returned_run E :=
  unfold holds_on;
  match goal with
  | |- match ?t with Ok _ => _ | Raise _ => _ end =>
      destruct t as [[? ?]|?] eqn:E; [|vm_compute in E; discriminate E]
  end.

Lemma inactive_tick_commands_no_torque_witness :
  holds_on (Platforms.angle_tick init_state Sample.i_inactive_small)
    (fun '(st', act, sends) =>
       Actuators.torqueOutputCan act = 0
       /\ Actuators.torque act == 0
       /\ apply_torque_last st' = 0
       /\ Forall (fun m => when_some (fun tq => tq = 0) (steer_torque m)
                           /\ when_some (fun f => f = false) (steer_fault m)) sends).
Proof.
  returned E.
  eapply (inactive_tick_commands_no_torque Sample.ext Sample.HF Sample.params
           Sample.CP_angle Sample.VM Sample.self init_state
           (in_sub Sample.i_inactive_small) (in_CC Sample.i_inactive_small)
           (in_CS Sample.i_inactive_small));
    [reflexivity | exact E].
Defined.

Lemma one_steering_command_per_tick_witness :
  holds_on (Platforms.angle_tick init_state Sample.i_active)
    (fun '(st', act, sends) =>
       exists m,
         filter is_steer_cmd sends = [m]
         /\ steer_torque m = Some (Actuators.torqueOutputCan act)
         /\ (has_flag (flags Sample.CP_angle) (CANFD Sample.HF) = true ->
             steer_angle m = Some (Actuators.steeringAngleDeg act))).
Proof.
  returned E.
  eapply (one_steering_command_per_tick Sample.ext Sample.HF Sample.params
           Sample.CP_angle Sample.VM Sample.self init_state
           (in_sub Sample.i_active) (in_CC Sample.i_active) (in_CS Sample.i_active)
           _ _ _ E).
Defined.

Lemma angle_mode_request_follows_lat_active_witness :
  holds_on (Platforms.angle_tick init_state Sample.i_active)
    (fun '(st', act, sends) =>
       exists m,
         filter is_steer_cmd sends = [m]
         /\ steer_req m = Some (CarControl.latActive (in_CC Sample.i_active))
         /\ Forall (fun m' => when_some (fun f => f = false) (steer_fault m')) sends).
Proof.
  returned E.
  eapply (angle_mode_request_follows_lat_active Sample.ext Sample.HF Sample.params
           Sample.CP_angle Sample.VM Sample.self init_state
           (in_sub Sample.i_active) (in_CC Sample.i_active) (in_CS Sample.i_active));
    [reflexivity | Qcmp | Qcmp | exact E].
Defined.

Lemma sent_accel_within_bounds_witness :
  holds_on (Platforms.legacy_tick true init_state Sample.i_active)
    (fun '(st', act, sends) =>
       Forall (fun m => when_some (fun a => ACCEL_MIN Sample.params <= a
                                            <= ACCEL_MAX Sample.params)
                                  (accel_of m)) sends
       /\ (ACCEL_MIN Sample.params <= accel_last init_state <= ACCEL_MAX Sample.params ->
           ACCEL_MIN Sample.params <= accel_last st' <= ACCEL_MAX Sample.params
           /\ Forall (fun m => when_some (fun a => ACCEL_MIN Sample.params <= a
                                                   <= ACCEL_MAX Sample.params)
                                         (accel_last_of m)) sends)).
Proof.
  returned E.
  eapply (sent_accel_within_bounds Sample.ext Sample.HF Sample.params
           (Sample.CP_legacy true) Sample.VM Sample.self init_state
           (in_sub Sample.i_active) (in_CC Sample.i_active) (in_CS Sample.i_active));
    [Qcmp | exact E].
Defined.

Lemma self_managed_sends_no_buttons_witness :
  holds_on (Platforms.legacy_tick true init_state Cases.i_cancel)
    (fun '(st', act, sends) =>
       count_msgs is_button_msg sends = 0%nat
       /\ last_button_frame st' = last_button_frame init_state).
Proof.
  returned E.
  eapply (self_managed_sends_no_buttons Sample.ext Sample.HF Sample.params
           (Sample.CP_legacy true) Sample.VM Sample.self init_state
           (in_sub Cases.i_cancel) (in_CC Cases.i_cancel) (in_CS Cases.i_cancel));
    [reflexivity | exact E].
Defined.

Lemma stock_longitudinal_sends_no_commands_witness :
  holds_on (Platforms.legacy_tick false init_state Sample.i_resume)
    (fun '(st', act, sends) =>
       count_msgs is_longitudinal_msg sends = 0%nat
       /\ accel_last st' = accel_last init_state).
Proof.
  returned E.
  eapply (stock_longitudinal_sends_no_commands Sample.ext Sample.HF Sample.params
           (Sample.CP_legacy false) Sample.VM Sample.self init_state
           (in_sub Sample.i_resume) (in_CC Sample.i_resume) (in_CS Sample.i_resume));
    [reflexivity | exact E].
Defined.

Lemma legacy_cancel_is_immediate_witness :
  holds_on (Platforms.legacy_tick false init_state Cases.i_cancel)
    (fun '(st', act, sends) =>
       filter is_button_msg sends = [create_clu11 (frame init_state) CANCEL]
       /\ last_button_frame st' = last_button_frame init_state).
Proof.
  returned E.
  eapply (legacy_cancel_is_immediate Sample.ext Sample.HF Sample.params
           (Sample.CP_legacy false) Sample.VM Sample.self init_state
           (in_sub Cases.i_cancel) (in_CC Cases.i_cancel) (in_CS Cases.i_cancel));
    [reflexivity | reflexivity | reflexivity | exact E].
Defined.

Lemma canfd_buttons_are_throttled_witness :
  holds_on (Platforms.canfd_tick init_state Cases.i_cancel)
    (fun '(st', act, sends) =>
       filter is_button_msg sends = []
       /\ last_button_frame st' = last_button_frame init_state).
Proof.
  returned E.
  eapply (canfd_buttons_are_throttled Sample.ext Sample.HF Sample.params
           Cases.CP_canfd Sample.VM Sample.self init_state
           (in_sub Cases.i_cancel) (in_CC Cases.i_cancel) (in_CS Cases.i_cancel));
    [reflexivity | reflexivity | vm_compute; discriminate | exact E].
Defined.

Lemma canfd_cancel_batch_witness :
  holds_on (Platforms.canfd_tick Sample.st_frame_30 Cases.i_cancel)
    (fun '(st', act, sends) =>
       filter is_button_msg sends
       = (if has_flag (flags Cases.CP_canfd) (CANFD_ALT_BUTTONS Sample.HF)
          then [create_acc_cancel]
          else repeat (create_buttons (CarState.buttons_counter (in_CS Cases.i_cancel) + 1)
                                      CANCEL) 20)
       /\ last_button_frame st' = frame Sample.st_frame_30).
Proof.
  returned E.
  eapply (canfd_cancel_batch Sample.ext Sample.HF Sample.params
           Cases.CP_canfd Sample.VM Sample.self Sample.st_frame_30
           (in_sub Cases.i_cancel) (in_CC Cases.i_cancel) (in_CS Cases.i_cancel));
    [reflexivity | reflexivity | reflexivity | reflexivity | exact E].
Defined.


Lemma tester_present_gate_witness :
  holds_on (Platforms.legacy_tick true init_state Sample.i_active)
    (fun '(st', act, sends) =>
       count_msgs is_tester_present sends
       = (if (frame init_state mod 100 =? 0)%Z
             && negb (has_flag (flags (Sample.CP_legacy true)) (CANFD_CAMERA_SCC Sample.HF)
                      || ESCC_enabled (in_sub Sample.i_active)
                      || interceptor_available (in_sub Sample.i_active))
             && openpilotLongitudinalControl (Sample.CP_legacy true)
          then (if has_flag (flags (Sample.CP_legacy true)) (ENABLE_BLINKERS Sample.HF)
                then 2 else 1)
          else 0)%nat).
Proof.
  returned E.
  eapply (tester_present_gate Sample.ext Sample.HF Sample.params
           (Sample.CP_legacy true) Sample.VM Sample.self init_state
           (in_sub Sample.i_active) (in_CC Sample.i_active) (in_CS Sample.i_active)
           _ _ _ E).
Defined.

Lemma run_keeps_the_books_witness :
  holds_on (Platforms.angle_run init_state (repeat Sample.i_active 3))
    (fun '(st', outs) =>
       length outs = length (repeat Sample.i_active 3)
       /\ frame st' = Z.of_nat (length (repeat Sample.i_active 3))
       /\ (0 <= last_button_frame st' <= frame st')%Z
       /\ apply_torque_last st' = last (echoed_gains outs) 0
       /\ apply_angle_last st' = last (echoed_angles outs) 0).
Proof.
  returned_run E.
  apply (run_keeps_the_books Sample.ext Sample.HF Sample.params Sample.CP_angle
           Sample.VM Sample.self (repeat Sample.i_active 3) _ _ E).
Defined.

Lemma reengagement_starts_from_true_angle_witness :
  exists st' a1 s1 a2 s2,
    Platforms.angle_run init_state [Sample.i_inactive_small; Sample.i_active]
    = Ok (st', [(a1, s1); (a2, s2)])
    /\ Actuators.steeringAngleDeg a1
       = clip (CarState.steeringAngleDeg (in_CS Sample.i_inactive_small))
              (- STEER_ANGLE_MAX Sample.params) (STEER_ANGLE_MAX Sample.params)
    /\ Qabs (Actuators.steeringAngleDeg a2 - Actuators.steeringAngleDeg a1)
       <= rate_cap Sample.ext Sample.VM (CarState.vEgoRaw (in_CS Sample.i_active)).
Proof.
  apply (reengagement_starts_from_true_angle Sample.ext Sample.HF Sample.params
           Sample.CP_angle Sample.VM Sample.self init_state
           Sample.i_inactive_small Sample.i_active).
  - exact sample_well_formed.
  - reflexivity.
  - reflexivity.
  - reflexivity.
  - Qcmp.
  - Qcmp.
  - Qcmp.
  - split; split; Qcmp.
Defined.

Lemma tuned_gain_cases_witness :
  holds_on (tuned_gain Q Cases.py_float (Some 50) (1 # 10))
    (fun g =>
       (Some 50 = None -> g = 1 # 10)
       /\ (forall v n, Some 50 = Some v -> Cases.py_float v = Ok n ->
           (n == 0 -> g = 1 # 10) /\ (~ n == 0 -> g == n / 100))
       /\ (~ 1 # 10 == 0 -> ~ g == 0)).
Proof.
  unfold holds_on.
  destruct (tuned_gain Q Cases.py_float (Some 50) (1 # 10)) as [g|e] eqn:E;
    [|vm_compute in E; discriminate E].
  apply (tuned_gain_cases Q Cases.py_float (Some 50) (1 # 10) g E).
Defined.

Lemma tuned_cycles_zero_raises_witness :
  calculate_angle_torque_reduction_gain Cases.self_zero_cycles init_state
    (in_CS Sample.i_pressed) (1 # 2) = Raise ZeroDivisionError
  <-> (if Cases.py_truthy (1 # 2) then Cases.py_int (1 # 2) = Ok 0%Z else 25%Z = 0%Z).
Proof.
  apply (tuned_cycles_zero_raises Q Cases.py_int Cases.py_truthy (Some (1 # 2)) 25
           Cases.self_zero_cycles init_state (in_CS Sample.i_pressed) (1 # 2)).
  - reflexivity.
  - reflexivity.
Defined.
